(** * Java method extraction: brace matching, lexing and line-count filtering

    A shallow embedding of the pure core of [craw_java_method.py]:
    [_brace_matched_end], [tokenize_code], [_strip_java_comments_for_check],
    [filter_invalid_methods] and the record-building loop of
    [extract_methods_from_file].

    Python values are modelled as follows.
    - [str] is a list of Unicode code points ([N]).
    - [int] is [Z]; [len] results are injected into [Z].
    - A function that may raise returns an [outcome].
    - The two regular expressions are written as terms of a small regex
      syntax [re] and run by a backtracking matcher with the priorities of
      Python's [re] module (alternatives left to right, greedy and lazy
      repetition). *)

From Stdlib Require Import Ascii String.
From Stdlib Require Import ZArith NArith List Bool Lia.
Import ListNotations.
Open Scope Z_scope.

(** ** Strings *)

Definition char := N.
Definition str := list char.

Definition chr (a : ascii) : char := N_of_ascii a.
Definition lit (s : string) : str := map N_of_ascii (list_ascii_of_string s).

Definition lbrace : char := chr "{".
Definition rbrace : char := chr "}".
Definition newline : char := 10%N.
Definition dquote : char := 34%N.
Definition squote : char := 39%N.

Definition len {A} (l : list A) : Z := Z.of_nat (length l).

(** [c in s] for a one-character [c]. *)
Definition contains (c : char) (s : str) : bool := existsb (N.eqb c) s.

(** [s.count(c)] for a one-character [c]. *)
Definition count (c : char) (s : str) : Z := len (filter (N.eqb c) s).

(** ** Outcomes: a value, or an exception *)

Inductive exn := IndexError.

Inductive outcome (A : Type) :=
| Returns (a : A)
| Raises (e : exn).

Arguments Returns {A} a.
Arguments Raises {A} e.

Definition bind {A B} (m : outcome A) (f : A -> outcome B) : outcome B :=
  match m with
  | Returns a => f a
  | Raises e => Raises e
  end.

Notation "x <- m ;; k" := (bind m (fun x => k))
  (at level 61, m at next level, right associativity).

(** [l[i]] with Python's negative indices. *)
Definition py_getitem {A} (l : list A) (i : Z) : outcome A :=
  let k := if i <? 0 then i + len l else i in
  if (0 <=? k) && (k <? len l) then
    match nth_error l (Z.to_nat k) with
    | Some x => Returns x
    | None => Raises IndexError
    end
  else Raises IndexError.

(** [range(a, b)]. *)
Definition py_range (a b : Z) : list Z :=
  map (fun k => a + Z.of_nat k) (seq 0 (Z.to_nat (b - a))).

(** [l[a:b]] with Python's clamping and negative indices. *)
Definition py_slice {A} (l : list A) (a b : Z) : list A :=
  let clamp i := if i <? 0 then Z.max (i + len l) 0 else Z.min i (len l) in
  let a' := clamp a in
  let b' := clamp b in
  firstn (Z.to_nat (b' - a')) (skipn (Z.to_nat a') l).

(** ** BoundaryLocator: [_brace_matched_end] *)

(** The [while] loop looking for the first line with an opening brace.
    [fuel] bounds the number of iterations; [len lines - open_i] is enough. *)
Fixpoint find_open (fuel : nat) (lines : list str) (open_i : Z) : outcome Z :=
  match fuel with
  | O => Returns open_i
  | S fuel' =>
      if open_i <? len lines then
        line <- py_getitem lines open_i ;;
        if negb (contains lbrace line) then find_open fuel' lines (open_i + 1)
        else Returns open_i
      else Returns open_i
  end.

(** The [for j in range(open_i, len(lines))] loop, with its early return. *)
Fixpoint scan_depth (lines : list str) (js : list Z) (depth : Z)
  : outcome (option Z) :=
  match js with
  | [] => Returns None
  | j :: js' =>
      line <- py_getitem lines j ;;
      let depth := depth + count lbrace line in
      let depth := depth - count rbrace line in
      if depth =? 0 then Returns (Some (j + 1))
      else scan_depth lines js' depth
  end.

Definition _brace_matched_end (lines : list str) (start_line : Z)
  : outcome (option Z) :=
  let i := start_line - 1 in
  open_i <- find_open (Z.to_nat (len lines - i)) lines i ;;
  if open_i >=? len lines then Returns None
  else scan_depth lines (py_range open_i (len lines)) 0.

(** ** Regular expressions, as Python's [re] runs them *)

Inductive re :=
| Eps
| Cls (p : char -> bool)          (* one character of a class *)
| Seq (r1 r2 : re)
| Alt (r1 r2 : re)                (* r1|r2, r1 tried first *)
| Star (greedy : bool) (r : re)   (* r* when greedy, r*? otherwise *)
| Eol.                            (* $ under re.M *)

Section Matcher.
Variable A : Type.

(** Repetition of [body], followed by [k].  A greedy loop tries one more
    iteration before it tries to leave; a lazy one tries to leave first.
    An iteration that consumes nothing is not repeated. *)
Definition star_loop (greedy : bool)
    (body : str -> (str -> option A) -> option A) (k : str -> option A)
  : nat -> str -> option A :=
  fix loop (n : nat) (s : str) : option A :=
    match n with
    | O => k s
    | S n' =>
        let again (_ : unit) :=
          body s (fun s' =>
            if (length s' <? length s)%nat then loop n' s' else None) in
        if greedy then
          match again tt with Some x => Some x | None => k s end
        else
          match k s with Some x => Some x | None => again tt end
    end.

(** Backtracking matcher in continuation-passing style: [rmatch r s k]
    matches [r] on a prefix of [s] and hands the rest to [k]; when [k]
    fails the next choice of [r] is tried. *)
Fixpoint rmatch (r : re) (s : str) (k : str -> option A) : option A :=
  match r with
  | Eps => k s
  | Cls p =>
      match s with
      | c :: s' => if p c then k s' else None
      | [] => None
      end
  | Seq r1 r2 => rmatch r1 s (fun s' => rmatch r2 s' k)
  | Alt r1 r2 =>
      match rmatch r1 s k with
      | Some x => Some x
      | None => rmatch r2 s k
      end
  | Star g r1 => star_loop g (rmatch r1) k (length s) s
  | Eol =>
      match s with
      | [] => k s
      | c :: _ => if N.eqb c newline then k s else None
      end
  end.
End Matcher.

Arguments star_loop {A} greedy body k n s.
Arguments rmatch {A} r s k.

(** The match of [r] that starts at the head of [s], as what is left of [s]
    after it. *)
Definition match_here (r : re) (s : str) : option str := rmatch r s Some.

Definition Chr (c : char) : re := Cls (N.eqb c).
Definition Any : re := Cls (fun _ => true).      (* . under re.S *)
Definition Plus (g : bool) (r : re) : re := Seq r (Star g r).

Fixpoint Lit (s : str) : re :=
  match s with
  | [] => Eps
  | c :: s' => Seq (Chr c) (Lit s')
  end.

(** [re.findall(r, s)] for a pattern without groups. *)
Fixpoint findall_from (fuel : nat) (r : re) (s : str) : list str :=
  match fuel with
  | O => []
  | S fuel' =>
      match match_here r s with
      | Some rest =>
          firstn (length s - length rest) s ::
            (if (length rest <? length s)%nat then findall_from fuel' r rest
             else match s with
                  | [] => []
                  | _ :: s' => findall_from fuel' r s'
                  end)
      | None =>
          match s with
          | [] => []
          | _ :: s' => findall_from fuel' r s'
          end
      end
  end.

Definition findall (r : re) (s : str) : list str :=
  findall_from (S (length s)) r s.

(** [re.sub(r, repl, s)] for a replacement without back-references. *)
Fixpoint sub_from (fuel : nat) (r : re) (repl s : str) : str :=
  match fuel with
  | O => []
  | S fuel' =>
      match match_here r s with
      | Some rest =>
          repl ++
            (if (length rest <? length s)%nat then sub_from fuel' r repl rest
             else match s with
                  | [] => []
                  | c :: s' => c :: sub_from fuel' r repl s'
                  end)
      | None =>
          match s with
          | [] => []
          | c :: s' => c :: sub_from fuel' r repl s'
          end
      end
  end.

Definition sub (r : re) (repl s : str) : str :=
  sub_from (S (length s)) r repl s.

(** ** Character classes *)

Definition in_range (lo hi c : char) : bool := ((lo <=? c) && (c <=? hi))%N.
Arguments in_range (lo hi c)%_N.

(** [[A-Za-z_]] *)
Definition is_ident_start (c : char) : bool :=
  in_range (chr "A") (chr "Z") c || in_range (chr "a") (chr "z") c
  || N.eqb c (chr "_").

(** [[A-Za-z0-9_]] *)
Definition is_ident_char (c : char) : bool :=
  in_range (chr "A") (chr "Z") c || in_range (chr "a") (chr "z") c
  || in_range (chr "0") (chr "9") c || N.eqb c (chr "_").

(** [\s] on [str] patterns, [str.strip] and [str.isspace]. *)
Definition is_space (c : char) : bool :=
  in_range 9 13 c || in_range 28 32 c || N.eqb c 133%N || N.eqb c 160%N
  || N.eqb c 5760%N || in_range 8192 8202 c || N.eqb c 8232%N || N.eqb c 8233%N
  || N.eqb c 8239%N || N.eqb c 8287%N || N.eqb c 12288%N.

(** Line boundaries of [str.splitlines]. *)
Definition is_linebreak (c : char) : bool :=
  in_range 10 13 c || in_range 28 30 c || N.eqb c 133%N
  || N.eqb c 8232%N || N.eqb c 8233%N.

Definition cr : char := 13%N.

(** ** Comment stripping: [_strip_java_comments_for_check] *)

(** [//.*?$|/\*.*?\*/] under [re.M|re.S] *)
Definition comment_re : re :=
  Alt (Seq (Lit (lit "//")) (Seq (Star false Any) Eol))
      (Seq (Lit (lit "/*")) (Seq (Star false Any) (Lit (lit "*/")))).

Definition _strip_java_comments_for_check (src : str) : str :=
  sub comment_re [] src.

(** ** [str.splitlines], [str.strip], [str.join] *)

Fixpoint splitlines_from (cur : str) (s : str) : list str :=
  match s with
  | [] =>
      match cur with
      | [] => []
      | _ => [cur]
      end
  | c :: s' =>
      if is_linebreak c then
        cur ::
          match s' with
          | c' :: s'' =>
              if N.eqb c cr && N.eqb c' newline then splitlines_from [] s''
              else splitlines_from [] s'
          | [] => splitlines_from [] s'
          end
      else splitlines_from (cur ++ [c]) s'
  end.

Definition splitlines (s : str) : list str := splitlines_from [] s.

Fixpoint lstrip (s : str) : str :=
  match s with
  | c :: s' => if is_space c then lstrip s' else s
  | [] => []
  end.

Definition strip (s : str) : str := rev (lstrip (rev (lstrip s))).

(** Truth value of a [str]: non-empty. *)
Definition truthy_str (s : str) : bool :=
  match s with
  | [] => false
  | _ => true
  end.

Fixpoint join (sep : str) (parts : list str) : str :=
  match parts with
  | [] => []
  | [p] => p
  | p :: ps => p ++ sep ++ join sep ps
  end.

(** ** Records *)

Record MethodRecord := {
  method_name : str;
  start_line : Z;
  end_line : Z;
  signature : str;
  original_code : str;
  code_tokens : list str
}.

(** What the declaration pass ([javalang]) hands over for one method:
    [position] is [node.position.line] when [node.position] is set, the
    types are given as rendered by [str]. *)
Record MethodDeclaration := {
  name : str;
  position : option Z;
  modifiers : list str;
  return_type : str;
  parameters : list str
}.

(** ** MethodFilter: [filter_invalid_methods] *)

Definition code_lines_of (original : str) : list str :=
  let check_code := _strip_java_comments_for_check original in
  filter (fun l => truthy_str (strip l)) (splitlines check_code).

Definition filter_invalid_methods (methods : list MethodRecord)
    (min_lines max_lines : Z) : list MethodRecord :=
  fold_left
    (fun cleaned m =>
       let code_lines := code_lines_of (original_code m) in
       if len code_lines =? 0 then cleaned
       else if (len code_lines <? min_lines) || (len code_lines >? max_lines)
       then cleaned
       else cleaned ++ [m])
    methods [].

Definition default_min_lines : Z := 3.
Definition default_max_lines : Z := 100.

(** ** Lexer and extraction loop *)

Section Lexer.

(** [\d] matches every Unicode decimal digit.  Which code points beyond
    ASCII are decimal digits is decided by the interpreter's Unicode
    database; [uni_decimal] stands for that table. *)
Variable uni_decimal : char -> bool.

Definition is_digit (c : char) : bool :=
  in_range (chr "0") (chr "9") c || (128 <=? c)%N && uni_decimal c.

Definition non_space (c : char) : bool := negb (is_space c).

(** The six token rules, in the order of the pattern. *)
Definition ident_re : re := Seq (Cls is_ident_start) (Star true (Cls is_ident_char)).
Definition number_re : re := Plus true (Cls is_digit).
Definition dq_string_re : re := Seq (Chr dquote) (Seq (Star false Any) (Chr dquote)).
Definition sq_string_re : re := Seq (Chr squote) (Seq (Star false Any) (Chr squote)).
Definition operators : list str :=
  [lit "=="; lit "!="; lit "<="; lit ">="; lit "&&"; lit "||"].
Definition fallback_re : re := Cls non_space.

(** [[A-Za-z_][A-Za-z0-9_]*|\d+|".*?"|'.*?'|==|!=|<=|>=|&&|\|\||[^\s]]
    under [re.S] *)
Definition token_re : re :=
  Alt ident_re
 (Alt number_re
 (Alt dq_string_re
 (Alt sq_string_re
 (fold_right (fun op r => Alt (Lit op) r) fallback_re operators)))).

Definition tokenize_code (text : str) : list str := findall token_re text.

(** The loop of [extract_methods_from_file] over the declarations that the
    parser found; [results] is the list built so far. *)
Definition truthy_int (z : Z) : bool := negb (z =? 0).

Definition make_signature (node : MethodDeclaration) : str :=
  join (lit " ") (modifiers node) ++ lit " " ++ return_type node ++ lit " "
  ++ name node ++ lit "(" ++ join (lit ", ") (parameters node) ++ lit ")".

Fixpoint extract_loop (lines : list str) (nodes : list MethodDeclaration)
    (results : list MethodRecord) : outcome (list MethodRecord) :=
  match nodes with
  | [] => Returns results
  | node :: nodes' =>
      match position node with
      | None => extract_loop lines nodes' results
      | Some start_line =>
          if truthy_int start_line then
            end_line <- _brace_matched_end lines start_line ;;
            match end_line with
            | None => extract_loop lines nodes' results
            | Some end_line =>
                if truthy_int end_line then
                  let original_code :=
                    join [newline] (py_slice lines (start_line - 1) end_line) in
                  let code_tokens := tokenize_code original_code in
                  extract_loop lines nodes'
                    (results ++
                       [{| method_name := name node;
                           start_line := start_line;
                           end_line := end_line;
                           signature := make_signature node;
                           original_code := original_code;
                           code_tokens := code_tokens |}])
                else extract_loop lines nodes' results
            end
          else extract_loop lines nodes' results
      end
  end.

(** [tree] is the result of [javalang.parse.parse(code)]: [None] when
    reading or parsing raised. *)
Definition extract_methods_from_file (code : str)
    (tree : option (list MethodDeclaration)) : outcome (list MethodRecord) :=
  match tree with
  | None => Returns []
  | Some nodes => extract_loop (splitlines code) nodes []
  end.

End Lexer.

(** ** Notions used to state the properties *)

(** Line [j] of the file, 1-based. *)
Definition line_at (lines : list str) (j : Z) : str :=
  nth (Z.to_nat (j - 1)) lines [].

(** Opening minus closing braces of one line, and of a run of lines. *)
Definition net (l : str) : Z := count lbrace l - count rbrace l.

Fixpoint net_lines (L : list str) : Z :=
  match L with
  | [] => 0
  | l :: L' => net l + net_lines L'
  end.

(** Running depth after line [j] when counting starts with line [o]. *)
Definition running_depth (lines : list str) (o j : Z) : Z :=
  net_lines (py_slice lines (o - 1) j).

(** [o] is the first line at or after [s] that contains an opening brace. *)
Definition first_open_line (lines : list str) (s o : Z) : Prop :=
  s <= o <= len lines /\
  contains lbrace (line_at lines o) = true /\
  forall j, s <= j < o -> contains lbrace (line_at lines j) = false.

(** Number of leading lines without an opening brace. *)
Fixpoint open_offset (L : list str) : nat :=
  match L with
  | [] => O
  | l :: L' => if contains lbrace l then O else S (open_offset L')
  end.

(** Number of lines of [L] read until the depth, starting from [d], is zero
    at the end of a line. *)
Fixpoint first_zero (L : list str) (d : Z) : option nat :=
  match L with
  | [] => None
  | l :: L' =>
      let d' := d + count lbrace l - count rbrace l in
      if d' =? 0 then Some 1%nat else option_map S (first_zero L' d')
  end.

(** A well-formed nested-brace block, read character by character: text
    without braces, an opening brace, properly nested braces, the closing
    brace that matches the first one, text without braces. *)
Inductive block_state :=
| Before                (* no brace seen yet *)
| Inside (d : nat)      (* [S d] braces are open *)
| After                 (* the first brace has been closed *)
| Bad.

Definition block_step (st : block_state) (c : char) : block_state :=
  match st with
  | Before =>
      if N.eqb lbrace c then Inside 0
      else if N.eqb rbrace c then Bad else Before
  | Inside d =>
      if N.eqb lbrace c then Inside (S d)
      else if N.eqb rbrace c then
        match d with
        | O => After
        | S d' => Inside d'
        end
      else Inside d
  | After => if N.eqb lbrace c || N.eqb rbrace c then Bad else After
  | Bad => Bad
  end.

Definition block_run (st : block_state) (text : str) : block_state :=
  fold_left block_step text st.

Definition well_formed_block (text : str) : bool :=
  match block_run Before text with
  | After => true
  | _ => false
  end.

Definition state_depth (st : block_state) : Z :=
  match st with
  | Inside d => Z.of_nat (S d)
  | _ => 0
  end.

(** The language of a pattern, without priorities: [matches r tok rest]
    says that [r] can match [tok] when [rest] follows ([$] looks at what
    follows). *)
Definition at_eol (rest : str) : bool :=
  match rest with
  | [] => true
  | c :: _ => N.eqb c newline
  end.

Inductive matches : re -> str -> str -> Prop :=
| matches_eps rest : matches Eps [] rest
| matches_cls p c rest : p c = true -> matches (Cls p) [c] rest
| matches_seq r1 r2 t1 t2 rest :
    matches r1 t1 (t2 ++ rest) -> matches r2 t2 rest ->
    matches (Seq r1 r2) (t1 ++ t2) rest
| matches_alt_l r1 r2 t rest : matches r1 t rest -> matches (Alt r1 r2) t rest
| matches_alt_r r1 r2 t rest : matches r2 t rest -> matches (Alt r1 r2) t rest
| matches_star_nil g r rest : matches (Star g r) [] rest
| matches_star_cons g r t1 t2 rest :
    matches r t1 (t2 ++ rest) -> matches (Star g r) t2 rest ->
    matches (Star g r) (t1 ++ t2) rest
| matches_eol rest : at_eol rest = true -> matches Eol [] rest.

(** Whatever a matcher [body] accepts is a match of [r], and the
    continuation accepted what follows it. *)
Definition sound_on {A} (body : str -> (str -> option A) -> option A) (r : re)
  : Prop :=
  forall s k x, body s k = Some x ->
    exists tok rest, s = tok ++ rest /\ matches r tok rest /\ k rest = Some x.

(** The first suffix of [s], from [s] itself on, that [k] accepts. *)
Fixpoint first_suffix {A} (k : str -> option A) (s : str) : option A :=
  match k s with
  | Some x => Some x
  | None =>
      match s with
      | [] => None
      | _ :: s' => first_suffix k s'
      end
  end.

(** What is left of a line comment's text at the end of its line. *)
Fixpoint to_eol (s : str) : str :=
  match s with
  | [] => []
  | c :: s' => if N.eqb c newline then s else to_eol s'
  end.

(** What follows the first [*/] of [s]. *)
Fixpoint after_close (s : str) : option str :=
  match s with
  | [] => None
  | c :: s' =>
      match s' with
      | c' :: s'' =>
          if N.eqb (chr "*") c && N.eqb (chr "/") c' then Some s''
          else after_close s'
      | [] => None
      end
  end.

(** The comment that starts at the head of [s], as what is left after it. *)
Definition comment_end (s : str) : option str :=
  match s with
  | c1 :: c2 :: r =>
      if N.eqb (chr "/") c1 then
        if N.eqb (chr "/") c2 then Some (to_eol r)
        else if N.eqb (chr "*") c2 then after_close r
        else None
      else None
  | _ => None
  end.

(** [toks] are consecutive pieces of [text], with only whitespace between
    them, before the first and after the last. *)
Inductive tokenization : str -> list str -> Prop :=
| tokenization_nil : tokenization [] []
| tokenization_space c s toks :
    is_space c = true -> tokenization s toks -> tokenization (c :: s) toks
| tokenization_token tok s toks :
    tok <> [] -> tokenization s toks -> tokenization (tok ++ s) (tok :: toks).

(** A quoted-string token: an opening quote, a body, the same quote. *)
Definition quoted (tok : str) : Prop :=
  exists q body, (q = dquote \/ q = squote) /\ tok = q :: body ++ [q].

(** No comment starts anywhere in [t]. *)
Fixpoint comment_free (t : str) : bool :=
  match t with
  | [] => true
  | _ :: t' =>
      match comment_end t with
      | None => comment_free t'
      | Some _ => false
      end
  end.

(** The text and the tokens of the lexer example. *)
Definition example_text : str :=
  lit "foo123 42 " ++ [dquote] ++ lit "a b" ++ [dquote]
  ++ lit " 'c' == != <= >= && || @".

Definition example_tokens : list str :=
  [lit "foo123"; lit "42"; [dquote] ++ lit "a b" ++ [dquote]; lit "'c'";
   lit "=="; lit "!="; lit "<="; lit ">="; lit "&&"; lit "||"; lit "@"].

(** Number of non-blank lines of the comment-stripped code. *)
Definition effective_line_count (original : str) : Z :=
  len (code_lines_of original).

(** The policy of the filter on one record. *)
Definition in_policy (min_lines max_lines : Z) (m : MethodRecord) : bool :=
  let c := effective_line_count (original_code m) in
  (0 <? c) && (min_lines <=? c) && (c <=? max_lines).

(** Lines [a] to [b] of the file, both included, 1-based. *)
Definition lines_between (lines : list str) (a b : Z) : list str :=
  map (line_at lines) (py_range a (b + 1)).

(** The declaration pass numbers lines from 1. *)
Definition positions_from_one (nodes : list MethodDeclaration) : Prop :=
  forall node p, In node nodes -> position node = Some p -> 1 <= p.

(** A method whose code is one block comment. *)
Definition comment_only_method : MethodRecord :=
  {| method_name := lit "f";
     start_line := 1;
     end_line := 1;
     signature := lit " void f()";
     original_code := lit "/* nothing here */";
     code_tokens := [] |}.

(** What a record built from [lines] has to satisfy. *)
Definition record_ok (uni_decimal : char -> bool) (lines : list str)
    (r : MethodRecord) : Prop :=
  1 <= start_line r /\
  start_line r <= end_line r <= len lines /\
  _brace_matched_end lines (start_line r) = Returns (Some (end_line r)) /\
  original_code r
  = join [newline] (lines_between lines (start_line r) (end_line r)) /\
  code_tokens r = tokenize_code uni_decimal (original_code r).

Definition tree_positions_from_one (tree : option (list MethodDeclaration)) : Prop :=
  match tree with
  | None => True
  | Some nodes => positions_from_one nodes
  end.

(** ** Sample inputs *)

Definition sample_lines : list str :=
  [lit "int g;"; lit "void f()"; lit "{"; lit "  if (x) { y(); }"; lit "}";
   lit "int z;"].

Definition one_line_body : list str :=
  [lit "// getter"; lit "int get() { return x; }"; lit "int x;"].

Definition unclosed_lines : list str :=
  [lit "void f() {"; lit "  g();"].

Definition sample_code : str :=
  join [newline]
    [lit "void f() {"; lit "  int x = 1;"; lit "  // note"; lit "  return;";
     lit "}"].

Definition sample_node : MethodDeclaration :=
  {| name := lit "f";
     position := Some 1;
     modifiers := [];
     return_type := lit "None";
     parameters := [] |}.

Definition three_line_method : MethodRecord :=
  {| method_name := lit "f";
     start_line := 1;
     end_line := 3;
     signature := lit " int f()";
     original_code :=
       join [newline] [lit "int f() {"; lit "  return 1; // one"; lit "}"];
     code_tokens := [] |}.

(** A table of decimal digits beyond ASCII: the Arabic-Indic digits. *)
Definition arabic_indic_digit (c : char) : bool := in_range 1632 1641 c.

Definition shared_line : list str :=
  [lit "void f() { } void g() {"; lit "}"].

(** ** Notions used for further properties *)

(** A line without line-boundary characters. *)
Definition break_free (l : str) : bool :=
  forallb (fun c => negb (is_linebreak c)) l.

(** The record that the extraction loop builds for [node], declared at line
    [s] and ending at line [e]. *)
Definition method_record (uni_decimal : char -> bool) (lines : list str)
    (node : MethodDeclaration) (s e : Z) : MethodRecord :=
  let code := join [newline] (py_slice lines (s - 1) e) in
  {| method_name := name node;
     start_line := s;
     end_line := e;
     signature := make_signature node;
     original_code := code;
     code_tokens := tokenize_code uni_decimal code |}.

(** What one declaration contributes: its record when it has a position and
    its end line is found, nothing otherwise. *)
Definition located (uni_decimal : char -> bool) (lines : list str)
    (node : MethodDeclaration) : list MethodRecord :=
  match position node with
  | Some s =>
      match _brace_matched_end lines s with
      | Returns (Some e) => [method_record uni_decimal lines node s e]
      | _ => []
      end
  | None => []
  end.

(** The longest prefix of [s] whose characters satisfy [p], and what is left
    after it. *)
Fixpoint span (p : char -> bool) (s : str) : str :=
  match s with
  | c :: s' => if p c then c :: span p s' else []
  | [] => []
  end.

Fixpoint after_span (p : char -> bool) (s : str) : str :=
  match s with
  | c :: s' => if p c then after_span p s' else s
  | [] => []
  end.

(** What is before, and what follows, the first [q] of [s]. *)
Fixpoint before_char (q : char) (s : str) : str :=
  match s with
  | c :: s' => if N.eqb q c then [] else c :: before_char q s'
  | [] => []
  end.

Fixpoint after_char (q : char) (s : str) : option str :=
  match s with
  | c :: s' => if N.eqb q c then Some s' else after_char q s'
  | [] => None
  end.

(** [s] without its prefix [w], when it has that prefix. *)
Fixpoint strip_prefix (w s : str) : option str :=
  match w with
  | [] => Some s
  | a :: w' =>
      match s with
      | c :: s' => if N.eqb a c then strip_prefix w' s' else None
      | [] => None
      end
  end.

(** [s] without the first of the words [ops] that is a prefix of it. *)
Fixpoint first_operator (ops : list str) (s : str) : option str :=
  match ops with
  | [] => None
  | op :: ops' =>
      match strip_prefix op s with
      | Some rest => Some rest
      | None => first_operator ops' s
      end
  end.

(** The token pattern as a direct scanner: what is left of [s] after the
    token that starts at its head. *)
Definition scan_token (uni_decimal : char -> bool) (s : str) : option str :=
  match s with
  | [] => None
  | c :: s' =>
      if is_ident_start c then Some (after_span is_ident_char s')
      else if is_digit uni_decimal c then
        Some (after_span (is_digit uni_decimal) s')
      else
        match (if N.eqb dquote c then after_char dquote s' else None) with
        | Some rest => Some rest
        | None =>
            match (if N.eqb squote c then after_char squote s' else None) with
            | Some rest => Some rest
            | None =>
                match first_operator operators s with
                | Some rest => Some rest
                | None => if non_space c then Some s' else None
                end
            end
        end
  end.

Definition space : char := 32%N.

(** [Y] is empty or starts with a space. *)
Definition at_space (Y : str) : Prop := Y = [] \/ exists Y', Y = space :: Y'.

(** [t] is [s] with some characters deleted. *)
Inductive subseq {A : Type} : list A -> list A -> Prop :=
| subseq_nil : subseq [] []
| subseq_skip x t s : subseq t s -> subseq t (x :: s)
| subseq_keep x t s : subseq t s -> subseq (x :: t) (x :: s).

(** Number of non-blank lines of a text as it is written. *)
Definition nonblank_lines (code : str) : Z :=
  len (filter (fun l => truthy_str (strip l)) (splitlines code)).

(** The same count in one pass: a line is counted at its first character
    that is not whitespace; [seen] says that the current line has been
    counted. *)
Fixpoint nonblank_from (seen : bool) (s : str) : Z :=
  match s with
  | [] => 0
  | c :: s' =>
      if is_linebreak c then nonblank_from false s'
      else if is_space c then nonblank_from seen s'
      else (if seen then 0 else 1) + nonblank_from true s'
  end.

(** Code that consists of comments and whitespace only: a line comment runs
    to the end of its line, a block comment to the first [*/]. *)
Inductive comment_only : str -> Prop :=
| comment_only_nil : comment_only []
| comment_only_space c s :
    is_space c = true -> comment_only s -> comment_only (c :: s)
| comment_only_line body s :
    contains newline body = false -> at_eol s = true -> comment_only s ->
    comment_only (lit "//" ++ body ++ s)
| comment_only_block body s :
    after_close (body ++ lit "*/") = Some [] -> comment_only s ->
    comment_only (lit "/*" ++ body ++ lit "*/" ++ s).

(** ** The crawler around the core *)

(** Equality of strings, [x in xs], [s.split(c)] and [s.endswith(w)]. *)
Fixpoint str_eqb (a b : str) : bool :=
  match a, b with
  | [], [] => true
  | x :: a', y :: b' => N.eqb x y && str_eqb a' b'
  | _, _ => false
  end.

Definition str_in (x : str) (xs : list str) : bool := existsb (str_eqb x) xs.

Fixpoint split_from (sep : char) (cur s : str) : list str :=
  match s with
  | [] => [cur]
  | c :: s' =>
      if N.eqb sep c then cur :: split_from sep [] s'
      else split_from sep (cur ++ [c]) s'
  end.

Definition split (sep : char) (s : str) : list str := split_from sep [] s.

Definition endswith (s w : str) : bool :=
  (length w <=? length s)%nat && str_eqb (skipn (length s - length w) s) w.

(** What a request or the file system may do instead of answering, and what
    the code itself may raise inside the [try] of [build_dataset]. *)
Inductive failure :=
| External              (* raised by [requests], [zipfile], the file system *)
| ValueError            (* [owner, name = ...] with other than two parts *)
| Internal (e : exn).   (* raised by the extraction *)

Inductive result (A : Type) :=
| Ok (a : A)
| Fail (e : failure).

Arguments Ok {A} a.
Arguments Fail {A} e.

(** The JSON objects of the GitHub API, with the fields that are read. *)
Record License := { key : str; spdx_id : str }.

Record Repo := {
  full_name : str;
  default_branch : str;
  html_url : str;
  license : option License
}.

Record TreeItem := { path : str; type : str }.

Record Commit := { sha : str }.

(** A row of the dataset: the five columns added by [build_dataset] and the
    columns of the method record. *)
Record Row := {
  repo_name : str;
  repo_url : str;
  repo_license : str;
  commit_sha : str;
  file_path : str;
  method : MethodRecord
}.

(** ** [search_java_repos] *)

(** [allowed_licenses] is [None] or a set of license keys; it filters when
    it is a non-empty set. *)
Definition filters (allowed_licenses : option (list str)) : bool :=
  match allowed_licenses with
  | Some (_ :: _) => true
  | _ => false
  end.

(** The test of the loop body, negated: the repository is not skipped.
    [lower] is [str.lower]. *)
Definition license_ok (lower : str -> str) (allowed_licenses : option (list str))
    (repo : Repo) : bool :=
  match allowed_licenses with
  | Some (k :: ks) =>
      match license repo with
      | None => false
      | Some lic => str_in (lower (key lic)) (k :: ks)
      end
  | _ => true
  end.

(** The [for repo in items] loop, with its [continue] and [break]. *)
Fixpoint add_items (lower : str -> str) (allowed_licenses : option (list str))
    (n : Z) (items repos : list Repo) : list Repo :=
  match items with
  | [] => repos
  | repo :: items' =>
      if negb (license_ok lower allowed_licenses repo) then
        add_items lower allowed_licenses n items' repos
      else
        let repos := repos ++ [repo] in
        if len repos >=? n then repos
        else add_items lower allowed_licenses n items' repos
  end.

(** The [while len(repos) < n] loop.  [search_page min_star page] is what
    the request for [page] gives: the items of the answer, or a failure.
    Every page is requested at most once.  The loop need not end; the
    result is [None] when [fuel] iterations were not enough. *)
Fixpoint search_loop (search_page : Z -> Z -> result (list Repo))
    (lower : str -> str) (allowed_licenses : option (list str))
    (fuel : nat) (n min_star page : Z) (repos : list Repo)
  : option (result (list Repo)) :=
  match fuel with
  | O => None
  | S fuel' =>
      if len repos <? n then
        match search_page min_star page with
        | Fail e => Some (Fail e)
        | Ok [] => Some (Ok (py_slice repos 0 n))
        | Ok items =>
            search_loop search_page lower allowed_licenses fuel' n min_star
              (page + 1) (add_items lower allowed_licenses n items repos)
        end
      else Some (Ok (py_slice repos 0 n))
  end.

Definition search_java_repos (search_page : Z -> Z -> result (list Repo))
    (lower : str -> str) (fuel : nat) (n min_star : Z)
    (allowed_licenses : option (list str)) : option (result (list Repo)) :=
  search_loop search_page lower allowed_licenses fuel n min_star 1 [].

(** ** [deduplicate_methods] *)

(** The columns of [subset]. *)
Definition row_key (r : Row) : str * str * str * str :=
  (repo_name r, file_path r, method_name (method r), original_code (method r)).

Definition same_key (a b : Row) : bool :=
  str_eqb (repo_name a) (repo_name b) && str_eqb (file_path a) (file_path b)
  && str_eqb (method_name (method a)) (method_name (method b))
  && str_eqb (original_code (method a)) (original_code (method b)).

(** [df.drop_duplicates(subset=...)] with the default [keep="first"]: a row
    is dropped when a row before it has the same values in the columns of
    [subset]; [seen] are the rows kept so far. *)
Fixpoint drop_duplicates (seen rows : list Row) : list Row :=
  match rows with
  | [] => []
  | r :: rows' =>
      if existsb (same_key r) seen then drop_duplicates seen rows'
      else r :: drop_duplicates (r :: seen) rows'
  end.

Definition deduplicate_methods (df : list Row) : list Row :=
  drop_duplicates [] df.

(** ** [get_repo_files], [get_last_commit], [build_dataset] *)

(** What the crawler asks of the world.  [W] is the state of the world
    (the servers, the file system), threaded through the calls; every
    answer may be a failure.
    - [search_page min_star page]: the items of one page of the repository
      search (the search runs once, first, and asks for each page once);
    - [fetch_tree owner repo branch]: the [tree] of the git tree request;
    - [fetch_commits owner repo filepath branch]: the commits of the
      commit request;
    - [download_and_extract_repo owner repo branch]: the folder in which
      the repository was unpacked;
    - [path_exists local_repo f]: [(local_repo / f).exists()];
    - [read_and_parse local_repo f]: the text of the file and the method
      declarations that the parser found in it, [None] when reading or
      parsing raised;
    - [lower] is [str.lower], [uni_decimal] the table of decimal digits. *)
Record Env (W Path : Type) := {
  search_page : Z -> Z -> result (list Repo);
  fetch_tree : str -> str -> str -> W -> result (list TreeItem) * W;
  fetch_commits : str -> str -> str -> str -> W -> result (list Commit) * W;
  download_and_extract_repo : str -> str -> str -> W -> result Path * W;
  path_exists : Path -> str -> W -> result bool * W;
  read_and_parse :
    Path -> str -> W -> option (str * list MethodDeclaration) * W;
  lower : str -> str;
  uni_decimal : char -> bool
}.

Arguments search_page {W Path} e.
Arguments fetch_tree {W Path} e.
Arguments fetch_commits {W Path} e.
Arguments download_and_extract_repo {W Path} e.
Arguments path_exists {W Path} e.
Arguments read_and_parse {W Path} e.
Arguments lower {W Path} e.
Arguments uni_decimal {W Path} e.

Section Crawler.
Context {W Path : Type}.
Variable env : Env W Path.

Definition get_repo_files (owner repo branch extension : str) (w : W)
  : result (list str) * W :=
  match fetch_tree env owner repo branch w with
  | (Ok tree, w') =>
      (Ok (map path
             (filter (fun item =>
                        str_eqb (type item) (lit "blob")
                        && endswith (path item) extension) tree)), w')
  | (Fail e, w') => (Fail e, w')
  end.

Definition get_last_commit (owner repo filepath branch : str) (w : W)
  : result (option str) * W :=
  match fetch_commits env owner repo filepath branch w with
  | (Ok commits, w') =>
      (Ok match commits with
          | c :: _ => Some (sha c)
          | [] => None
          end, w')
  | (Fail e, w') => (Fail e, w')
  end.

(** [extract_methods_from_file(file_path)] on what reading and parsing the
    file gave. *)
Definition extract_parsed (parsed : option (str * list MethodDeclaration))
  : outcome (list MethodRecord) :=
  match parsed with
  | Some (code, nodes) =>
      extract_methods_from_file (uni_decimal env) code (Some nodes)
  | None => extract_methods_from_file (uni_decimal env) [] None
  end.

(** Truth value of [commit_sha]: a non-empty string. *)
Definition truthy_sha (commit_sha : option str) : bool :=
  match commit_sha with
  | Some s => truthy_str s
  | None => false
  end.

Definition license_name (repo : Repo) : str :=
  match license repo with
  | Some lic => spdx_id lic
  | None => lit "NO-LICENSE"
  end.

Definition make_row (repo : Repo) (repo_url commit_sha f : str)
    (m : MethodRecord) : Row :=
  {| repo_name := full_name repo;
     repo_url := repo_url;
     repo_license := license_name repo;
     commit_sha := commit_sha;
     file_path := f;
     method := m |}.

(** The [for f in files[:max_files]] loop.  The first component of the
    result is the exception that ended the loop early, if any;
    [all_results] keeps what was appended before it. *)
Fixpoint process_files (repo : Repo) (owner name branch repo_url : str)
    (local_repo : Path) (files : list str) (all_results : list Row) (w : W)
  : option failure * list Row * W :=
  match files with
  | [] => (None, all_results, w)
  | f :: files' =>
      let continue := process_files repo owner name branch repo_url
                        local_repo files' in
      match path_exists env local_repo f w with
      | (Fail e, w1) => (Some e, all_results, w1)
      | (Ok false, w1) => continue all_results w1
      | (Ok true, w1) =>
          let '(parsed, w2) := read_and_parse env local_repo f w1 in
          match extract_parsed parsed with
          | Raises e => (Some (Internal e), all_results, w2)
          | Returns methods =>
              let methods :=
                filter_invalid_methods methods default_min_lines
                  default_max_lines in
              match get_last_commit owner name f branch w2 with
              | (Fail e, w3) => (Some e, all_results, w3)
              | (Ok commit_sha, w3) =>
                  if negb (truthy_sha commit_sha) then continue all_results w3
                  else
                    match methods with
                    | [] => continue all_results w3
                    | _ =>
                        let sha :=
                          match commit_sha with
                          | Some s => s
                          | None => []
                          end in
                        continue
                          (all_results
                             ++ map (make_row repo repo_url sha f) methods)
                          w3
                    end
              end
          end
      end
  end.

(** The body of the [try] for one repository; whatever it raises is
    caught, and [all_results] stays as it was when it was raised. *)
Definition process_repo (max_files : Z) (repo : Repo)
    (all_results : list Row) (w : W) : list Row * W :=
  match split (chr "/") (full_name repo) with
  | [owner; name] =>
      let branch := default_branch repo in
      let repo_url := html_url repo in
      match get_repo_files owner name branch (lit ".java") w with
      | (Fail _, w1) => (all_results, w1)
      | (Ok files, w1) =>
          match download_and_extract_repo env owner name branch w1 with
          | (Fail _, w2) => (all_results, w2)
          | (Ok local_repo, w2) =>
              let '(_, all_results', w3) :=
                process_files repo owner name branch repo_url local_repo
                  (py_slice files 0 max_files) all_results w2 in
              (all_results', w3)
          end
      end
  | _ => (all_results, w)
  end.

(** The [for repo in repos] loop. *)
Fixpoint crawl (max_files max_num_samples : Z) (repos : list Repo)
    (all_results : list Row) (w : W) : list Row * W :=
  match repos with
  | [] => (all_results, w)
  | repo :: repos' =>
      if len all_results >=? max_num_samples then (all_results, w)
      else
        let '(all_results', w') := process_repo max_files repo all_results w in
        crawl max_files max_num_samples repos' all_results' w'
  end.

(** [build_dataset], as the rows of the data frame it returns.  The search
    is outside the [try]: its failure is the failure of the call.  The
    result is [None] when the search did not end within [fuel]
    iterations. *)
Definition build_dataset (fuel : nat) (n_repos min_star max_files : Z)
    (allowed_licenses : option (list str)) (max_num_samples : Z) (w : W)
  : option (result (list Row) * W) :=
  match search_java_repos (search_page env) (lower env) fuel n_repos min_star
          allowed_licenses with
  | None => None
  | Some (Fail e) => Some (Fail e, w)
  | Some (Ok repos) =>
      let '(all_results, w') := crawl max_files max_num_samples repos [] w in
      Some (Ok (deduplicate_methods all_results), w')
  end.

(** Where a row comes from: a file [f] of repository [repo] with the
    extension [.java], a method [m] extracted from it and kept by the filter
    under the default thresholds, and a non-empty commit id. *)
Definition row_of_repo (repo : Repo) (r : Row) : Prop :=
  exists f m commit local_repo w0 methods,
    r = make_row repo (html_url repo) commit f m /\
    endswith f (lit ".java") = true /\
    truthy_str commit = true /\
    extract_parsed (fst (read_and_parse env local_repo f w0)) = Returns methods /\
    In m (filter_invalid_methods methods default_min_lines default_max_lines).

(** The parser numbers lines from 1. *)
Definition parser_positions_from_one : Prop :=
  forall local_repo f w code nodes,
    fst (read_and_parse env local_repo f w) = Some (code, nodes) ->
    positions_from_one nodes.

End Crawler.

(** ** Sample inputs for the crawler *)

Definition mit_repo : Repo :=
  {| full_name := lit "acme/tools";
     default_branch := lit "main";
     html_url := lit "https://github.com/acme/tools";
     license := Some {| key := lit "mit"; spdx_id := lit "MIT" |} |}.

Definition unlicensed_repo : Repo :=
  {| full_name := lit "acme/misc";
     default_branch := lit "main";
     html_url := lit "https://github.com/acme/misc";
     license := None |}.

(** A listing of one page. *)
Definition one_page (min_star page : Z) : result (list Repo) :=
  if page =? 1 then Ok [mit_repo; unlicensed_repo] else Ok [].

(** A listing whose second page fails. *)
Definition failing_page (min_star page : Z) : result (list Repo) :=
  if page =? 1 then Ok [mit_repo] else Fail External.

(** A listing that never ends and has no licensed repository. *)
Definition endless_pages (min_star page : Z) : result (list Repo) :=
  Ok [unlicensed_repo].

Definition sample_method_code : str :=
  join [newline] [lit "int f() {"; lit "  return 1; // one"; lit "}"].

(** A world with one repository of one file. *)
Definition sample_env : Env unit unit :=
  {| search_page := one_page;
     fetch_tree := fun _ _ _ w =>
       (Ok [{| path := lit "src/A.java"; type := lit "blob" |};
            {| path := lit "README.md"; type := lit "blob" |}], w);
     fetch_commits := fun _ _ _ _ w => (Ok [{| sha := lit "4f2a" |}], w);
     download_and_extract_repo := fun _ _ _ w => (Ok tt, w);
     path_exists := fun _ _ w => (Ok true, w);
     read_and_parse := fun _ _ w => (Some (sample_method_code, [sample_node]), w);
     lower := fun s => s;
     uni_decimal := arabic_indic_digit |}.

Definition sample_df : list Row :=
  Eval vm_compute in
    match build_dataset sample_env 3 2 500 50 (Some [lit "mit"]) 30000 tt with
    | Some (Ok df, _) => df
    | _ => []
    end.

Definition sample_record : MethodRecord :=
  method_record arabic_indic_digit (splitlines sample_code) sample_node 1 5.

Definition sample_row : Row :=
  Eval vm_compute in
    match sample_df with
    | r :: _ => r
    | [] => make_row mit_repo [] [] [] sample_record
    end.

(** * Properties *)

(** ** Python indexing *)

Lemma len_app {A} (l1 l2 : list A) : len (l1 ++ l2) = len l1 + len l2.
Proof. unfold len. rewrite length_app. lia. Qed.

Lemma len_nonneg {A} (l : list A) : 0 <= len l.
Proof. unfold len. lia. Qed.

Lemma py_getitem_app {A} (pre : list A) (x : A) (post : list A) :
  py_getitem (pre ++ x :: post) (len pre) = Returns x.
Proof.
  unfold py_getitem.
  pose proof (len_nonneg pre) as Hp. pose proof (len_nonneg post) as Hq.
  destruct (Z.ltb_spec (len pre) 0) as [H | _]; [lia |].
  rewrite len_app. change (len (x :: post)) with (Z.of_nat (S (length post))).
  unfold len in *.
  destruct (Z.leb_spec 0 (Z.of_nat (length pre))); [| lia].
  destruct (Z.ltb_spec (Z.of_nat (length pre))
              (Z.of_nat (length pre) + Z.of_nat (S (length post)))); [| lia].
  simpl. rewrite Nat2Z.id, nth_error_app2 by lia.
  now rewrite Nat.sub_diag.
Qed.

Lemma py_range_nil (a b : Z) : b <= a -> py_range a b = [].
Proof.
  intros H. unfold py_range. replace (Z.to_nat (b - a)) with O by lia.
  reflexivity.
Qed.

Lemma py_range_cons (a b : Z) : a < b -> py_range a b = a :: py_range (a + 1) b.
Proof.
  intros H. unfold py_range.
  replace (Z.to_nat (b - a)) with (S (Z.to_nat (b - (a + 1)))) by lia.
  cbn [seq map]. f_equal; [lia |].
  rewrite <- seq_shift, map_map. apply map_ext. intros k. lia.
Qed.

Lemma py_slice_firstn_skipn {A} (l : list A) (a : nat) (m : nat) :
  (a + m <= length l)%nat ->
  py_slice l (Z.of_nat a) (Z.of_nat a + Z.of_nat m) = firstn m (skipn a l).
Proof.
  intros H. unfold py_slice, len.
  destruct (Z.ltb_spec (Z.of_nat a) 0); [lia |].
  destruct (Z.ltb_spec (Z.of_nat a + Z.of_nat m) 0); [lia |].
  rewrite !Z.min_l by lia.
  f_equal; [lia |]. f_equal. lia.
Qed.

(** ** The two loops of [_brace_matched_end] *)

Lemma find_open_offset (L pre : list str) (fuel : nat) :
  (length L <= fuel)%nat ->
  find_open fuel (pre ++ L) (len pre)
  = Returns (len pre + Z.of_nat (open_offset L)).
Proof.
  revert pre fuel. induction L as [| l L IH]; intros pre fuel Hfuel.
  - rewrite app_nil_r. destruct fuel; cbn [find_open open_offset].
    + f_equal. lia.
    + rewrite Z.ltb_irrefl. f_equal. lia.
  - destruct fuel as [| fuel]; [simpl in Hfuel; lia |].
    cbn [find_open open_offset].
    pose proof (len_nonneg (l :: L)) as Hl.
    destruct (Z.ltb_spec (len pre) (len (pre ++ l :: L))) as [_ | H].
    2:{ rewrite len_app in H. change (len (l :: L)) with (Z.of_nat (S (length L))) in H. lia. }
    rewrite py_getitem_app. cbn [bind].
    destruct (contains lbrace l); cbn [negb].
    + f_equal. lia.
    + replace (pre ++ l :: L) with ((pre ++ [l]) ++ L)
        by (rewrite <- app_assoc; reflexivity).
      replace (len pre + 1) with (len (pre ++ [l]))
        by (rewrite len_app; reflexivity).
      rewrite IH by (simpl in Hfuel; lia).
      f_equal. rewrite len_app. change (len [l]) with 1. lia.
Qed.

Lemma scan_depth_first_zero (L pre : list str) (d : Z) :
  scan_depth (pre ++ L) (py_range (len pre) (len (pre ++ L))) d
  = Returns (option_map (fun m => len pre + Z.of_nat m) (first_zero L d)).
Proof.
  revert pre d. induction L as [| l L IH]; intros pre d.
  - rewrite app_nil_r, py_range_nil by lia. reflexivity.
  - rewrite py_range_cons
      by (rewrite len_app; change (len (l :: L)) with (Z.of_nat (S (length L))); lia).
    cbn [scan_depth first_zero]. rewrite py_getitem_app. cbn [bind].
    destruct (d + count lbrace l - count rbrace l =? 0).
    + reflexivity.
    + replace (pre ++ l :: L) with ((pre ++ [l]) ++ L)
        by (rewrite <- app_assoc; reflexivity).
      replace (len pre + 1) with (len (pre ++ [l]))
        by (rewrite len_app; reflexivity).
      rewrite IH. f_equal.
      destruct (first_zero L _); cbn [option_map]; [| reflexivity].
      f_equal. rewrite len_app. change (len [l]) with 1. lia.
Qed.

Lemma open_offset_le (L : list str) : (open_offset L <= length L)%nat.
Proof.
  induction L as [| l L IH]; simpl; [lia |].
  destruct (contains lbrace l); lia.
Qed.

Lemma open_offset_before (L : list str) (j : nat) :
  (j < open_offset L)%nat -> contains lbrace (nth j L []) = false.
Proof.
  revert j. induction L as [| l L IH]; intros j Hj; simpl in Hj; [lia |].
  destruct (contains lbrace l) eqn:E; [lia |].
  destruct j as [| j]; simpl; [exact E | apply IH; lia].
Qed.

Lemma open_offset_at (L : list str) :
  (open_offset L < length L)%nat ->
  contains lbrace (nth (open_offset L) L []) = true.
Proof.
  induction L as [| l L IH]; simpl; intros H; [lia |].
  destruct (contains lbrace l) eqn:E; [exact E | apply IH; lia].
Qed.

(** The offset is the only index with an opening brace and none before. *)
Lemma open_offset_unique (L : list str) (k : nat) :
  (k < length L)%nat ->
  contains lbrace (nth k L []) = true ->
  (forall j, (j < k)%nat -> contains lbrace (nth j L []) = false) ->
  open_offset L = k.
Proof.
  intros Hk Hat Hbefore.
  pose proof (open_offset_le L) as Hle.
  destruct (Nat.lt_trichotomy (open_offset L) k) as [Hlt | [Heq | Hgt]].
  - specialize (Hbefore _ Hlt). rewrite open_offset_at in Hbefore by lia.
    discriminate.
  - exact Heq.
  - rewrite (open_offset_before L k Hgt) in Hat. discriminate.
Qed.

Lemma first_zero_some (L : list str) (d : Z) (m : nat) :
  first_zero L d = Some m ->
  (1 <= m <= length L)%nat /\
  d + net_lines (firstn m L) = 0 /\
  forall m', (1 <= m' < m)%nat -> d + net_lines (firstn m' L) <> 0.
Proof.
  revert d m. induction L as [| l L IH]; intros d m H; [discriminate |].
  cbn [first_zero] in H.
  destruct (Z.eqb_spec (d + count lbrace l - count rbrace l) 0) as [E | E].
  - injection H as <-. cbn [firstn net_lines length]. unfold net.
    repeat split; try lia.
  - destruct (first_zero L _) as [m0 |] eqn:F; [| discriminate].
    injection H as <-. apply IH in F. destruct F as (Hm & Hz & Hmin).
    cbn [firstn net_lines length]. unfold net in *. repeat split; try lia.
    intros [| m'] Hm'; [lia |]. cbn [firstn net_lines].
    destruct m' as [| m'']; [cbn [firstn net_lines]; unfold net; lia |].
    specialize (Hmin (S m'')). unfold net. lia.
Qed.

Lemma first_zero_none (L : list str) (d : Z) (m' : nat) :
  first_zero L d = None ->
  (1 <= m' <= length L)%nat -> d + net_lines (firstn m' L) <> 0.
Proof.
  revert d m'. induction L as [| l L IH]; intros d m' H Hm'; [simpl in Hm'; lia |].
  cbn [first_zero] in H.
  destruct (Z.eqb_spec (d + count lbrace l - count rbrace l) 0) as [E | E];
    [discriminate |].
  destruct (first_zero L _) eqn:F; [discriminate |].
  destruct m' as [| m']; [lia |]. cbn [firstn net_lines]. unfold net.
  destruct m' as [| m'']; [cbn [firstn net_lines]; lia |].
  specialize (IH _ (S m'') F). simpl in Hm'. unfold net in *. lia.
Qed.

(** The first zero is determined by its two properties. *)
Lemma first_zero_unique (L : list str) (d : Z) (m : nat) :
  (1 <= m <= length L)%nat ->
  d + net_lines (firstn m L) = 0 ->
  (forall m', (1 <= m' < m)%nat -> d + net_lines (firstn m' L) <> 0) ->
  first_zero L d = Some m.
Proof.
  intros Hm Hz Hmin.
  destruct (first_zero L d) as [m0 |] eqn:F.
  - apply first_zero_some in F. destruct F as (Hm0 & Hz0 & Hmin0).
    destruct (Nat.lt_trichotomy m0 m) as [Hlt | [Heq | Hgt]].
    + exfalso. apply (Hmin m0); [lia | assumption].
    + now subst.
    + exfalso. apply (Hmin0 m); [lia | assumption].
  - exfalso. exact (first_zero_none L d m F Hm Hz).
Qed.

(** [_brace_matched_end] in closed form, when the file is split just before
    the start line. *)
Lemma brace_matched_end_app (pre L : list str) :
  let k := open_offset L in
  _brace_matched_end (pre ++ L) (len pre + 1)
  = if (k <? length L)%nat then
      Returns (option_map (fun m => len pre + Z.of_nat k + Z.of_nat m)
                 (first_zero (skipn k L) 0))
    else Returns None.
Proof.
  intros k. unfold _brace_matched_end.
  replace (len pre + 1 - 1) with (len pre) by lia.
  rewrite find_open_offset by (rewrite len_app; unfold len; lia).
  cbn [bind]. fold k. pose proof (open_offset_le L) as Hk. fold k in Hk.
  destruct (Nat.ltb_spec k (length L)) as [Hlt | Hge].
  - destruct (Z.geb_spec (len pre + Z.of_nat k) (len (pre ++ L))) as [H | _].
    { rewrite len_app in H. unfold len in H. lia. }
    assert (Hpre2 : len (pre ++ firstn k L) = len pre + Z.of_nat k).
    { rewrite len_app. f_equal. unfold len. rewrite length_firstn. lia. }
    rewrite <- Hpre2.
    replace (pre ++ L) with ((pre ++ firstn k L) ++ skipn k L)
      by (rewrite <- app_assoc, firstn_skipn; reflexivity).
    apply scan_depth_first_zero.
  - destruct (Z.geb_spec (len pre + Z.of_nat k) (len (pre ++ L))) as [_ | H];
      [reflexivity |].
    rewrite len_app in H. unfold len in H. lia.
Qed.

(** [_brace_matched_end] in closed form, for a start line from 1 on. *)
Lemma brace_matched_end_eq (lines : list str) (s : Z) :
  1 <= s ->
  let L := skipn (Z.to_nat (s - 1)) lines in
  let k := open_offset L in
  _brace_matched_end lines s
  = if (k <? length L)%nat then
      Returns (option_map (fun m => s - 1 + Z.of_nat k + Z.of_nat m)
                 (first_zero (skipn k L) 0))
    else Returns None.
Proof.
  intros Hs L k.
  set (a := Z.to_nat (s - 1)).
  assert (HlenL : length L = (length lines - a)%nat) by apply length_skipn.
  destruct (Nat.le_gt_cases (length lines) a) as [Hout | Hin].
  - (* the start line is beyond the file *)
    unfold _brace_matched_end.
    replace (Z.to_nat (len lines - (s - 1))) with O by (unfold len; lia).
    cbn [find_open bind].
    destruct (Z.geb_spec (s - 1) (len lines)) as [_ | H]; [| unfold len in H; lia].
    destruct (Nat.ltb_spec k (length L)); [| reflexivity].
    lia.
  - assert (Hpre : len (firstn a lines) = s - 1).
    { unfold len. rewrite length_firstn. lia. }
    pose proof (brace_matched_end_app (firstn a lines) L) as H.
    cbv zeta in H. rewrite firstn_skipn, Hpre in H.
    replace (s - 1 + 1) with s in H by lia. exact H.
Qed.

(** ** From offsets in a suffix to 1-based line numbers *)

Lemma line_at_skipn (lines : list str) (s j : Z) :
  1 <= s <= j ->
  line_at lines j = nth (Z.to_nat (j - s)) (skipn (Z.to_nat (s - 1)) lines) [].
Proof.
  intros H. unfold line_at. rewrite nth_skipn. f_equal. lia.
Qed.

Lemma running_depth_firstn (lines : list str) (o j : Z) :
  1 <= o -> o - 1 <= j <= len lines ->
  running_depth lines o j
  = net_lines (firstn (Z.to_nat (j - o + 1)) (skipn (Z.to_nat (o - 1)) lines)).
Proof.
  intros Ho Hj. unfold running_depth. f_equal.
  replace (o - 1) with (Z.of_nat (Z.to_nat (o - 1))) at 1 by lia.
  replace j with (Z.of_nat (Z.to_nat (o - 1)) + Z.of_nat (Z.to_nat (j - o + 1)))
    at 1 by lia.
  apply py_slice_firstn_skipn. unfold len in Hj. lia.
Qed.

Lemma first_open_line_offset (lines : list str) (s o : Z) :
  1 <= s ->
  let L := skipn (Z.to_nat (s - 1)) lines in
  first_open_line lines s o <->
  (open_offset L < length L)%nat /\ o = s + Z.of_nat (open_offset L).
Proof.
  intros Hs L.
  assert (HlenL : length L = (length lines - Z.to_nat (s - 1))%nat)
    by apply length_skipn.
  split.
  - intros (Hrange & Hat & Hbefore). unfold len in Hrange.
    assert (Hk : open_offset L = Z.to_nat (o - s)).
    { apply open_offset_unique.
      - lia.
      - unfold L. rewrite <- line_at_skipn by lia. exact Hat.
      - intros j Hj.
        replace j with (Z.to_nat ((s + Z.of_nat j) - s)) by lia.
        unfold L. rewrite <- line_at_skipn by lia. apply Hbefore. lia. }
    split; lia.
  - intros (Hlt & ->). unfold first_open_line, len. repeat split; try lia.
    + rewrite (line_at_skipn lines s) by lia.
      replace (Z.to_nat (s + Z.of_nat (open_offset L) - s))
        with (open_offset L) by lia.
      now apply open_offset_at.
    + intros j Hj. rewrite (line_at_skipn lines s) by lia.
      apply open_offset_before. fold L. lia.
Qed.

Lemma first_open_line_unique (lines : list str) (s o o' : Z) :
  1 <= s -> first_open_line lines s o -> first_open_line lines s o' -> o = o'.
Proof.
  intros Hs H H'. apply first_open_line_offset in H, H'; try assumption.
  destruct H as [_ ->], H' as [_ ->]. reflexivity.
Qed.

Lemma no_open_line_offset (lines : list str) (s : Z) :
  1 <= s ->
  let L := skipn (Z.to_nat (s - 1)) lines in
  (length L <= open_offset L)%nat ->
  forall j, s <= j <= len lines -> contains lbrace (line_at lines j) = false.
Proof.
  intros Hs L Hge j Hj.
  assert (HlenL : length L = (length lines - Z.to_nat (s - 1))%nat)
    by apply length_skipn.
  rewrite (line_at_skipn lines s) by lia.
  apply open_offset_before. fold L. unfold len in Hj. lia.
Qed.

(** What [_brace_matched_end] returns, in terms of line numbers: the three
    ways a call from a start line [s >= 1] can end. *)
Lemma brace_matched_end_cases (lines : list str) (s : Z) :
  1 <= s ->
  (_brace_matched_end lines s = Returns None /\
   forall j, s <= j <= len lines -> contains lbrace (line_at lines j) = false)
  \/
  exists o, first_open_line lines s o /\
    ((_brace_matched_end lines s = Returns None /\
      forall j, o <= j <= len lines -> running_depth lines o j <> 0)
     \/
     exists e, _brace_matched_end lines s = Returns (Some e) /\
       o <= e <= len lines /\
       running_depth lines o e = 0 /\
       forall j, o <= j < e -> running_depth lines o j <> 0).
Proof.
  intros Hs. rewrite brace_matched_end_eq by assumption. cbv zeta.
  set (L := skipn (Z.to_nat (s - 1)) lines).
  set (k := open_offset L).
  assert (HlenL : length L = (length lines - Z.to_nat (s - 1))%nat)
    by apply length_skipn.
  destruct (Nat.ltb_spec k (length L)) as [Hlt | Hge].
  2:{ left. split; [reflexivity |]. now apply no_open_line_offset. }
  right. exists (s + Z.of_nat k). split.
  { apply first_open_line_offset; [assumption |]. now split. }
  assert (HL' : skipn k L = skipn (Z.to_nat (s + Z.of_nat k - 1)) lines).
  { unfold L. rewrite skipn_skipn. f_equal. lia. }
  assert (Hlen' : length (skipn k L) = (length L - k)%nat) by apply length_skipn.
  destruct (first_zero (skipn k L) 0) as [m |] eqn:F; cbn [option_map].
  - right. exists (s - 1 + Z.of_nat k + Z.of_nat m).
    apply first_zero_some in F. destruct F as (Hm & Hz & Hmin).
    split; [reflexivity |]. unfold len. split; [lia |]. split.
    + rewrite running_depth_firstn by (unfold len; lia).
      rewrite <- HL'.
      replace (Z.to_nat (s - 1 + Z.of_nat k + Z.of_nat m - (s + Z.of_nat k) + 1))
        with m by lia.
      lia.
    + intros j Hj. rewrite running_depth_firstn by (unfold len; lia).
      rewrite <- HL'.
      specialize (Hmin (Z.to_nat (j - (s + Z.of_nat k) + 1))). lia.
  - left. split; [reflexivity |]. intros j Hj.
    rewrite running_depth_firstn by lia. rewrite <- HL'.
    pose proof (first_zero_none (skipn k L) 0
                  (Z.to_nat (j - (s + Z.of_nat k) + 1)) F) as Hnz.
    unfold len in Hj. lia.
Qed.

(** ** Claims on [_brace_matched_end] *)

(** C10: the braces of the first line with an opening brace are counted
    themselves: when that line has as many closing as opening braces, its
    own number is the end line. *)
Theorem brace_matched_end_one_line (lines : list str) (s o : Z) :
  1 <= s ->
  first_open_line lines s o ->
  count lbrace (line_at lines o) = count rbrace (line_at lines o) ->
  _brace_matched_end lines s = Returns (Some o).
Proof.
  intros Hs Ho Hcount.
  destruct (brace_matched_end_cases lines s Hs) as [[_ Hnone] | (o' & Ho' & Hres)].
  - destruct Ho as (Hrange & Hat & _). rewrite Hnone in Hat by lia. discriminate.
  - assert (o' = o) by (eapply first_open_line_unique; eassumption). subst o'.
    assert (Hrd : running_depth lines o o = 0).
    { destruct Ho as (Hrange & _ & _).
      rewrite running_depth_firstn by lia.
      replace (Z.to_nat (o - o + 1)) with 1%nat by lia.
      unfold line_at in Hcount.
      assert (Hlt : (Z.to_nat (o - 1) < length lines)%nat) by (unfold len in Hrange; lia).
      destruct (skipn (Z.to_nat (o - 1)) lines) as [| l L'] eqn:E.
      { apply (f_equal (@length str)) in E. rewrite length_skipn in E.
        simpl in E. lia. }
      assert (Hl : nth (Z.to_nat (o - 1)) lines [] = l).
      { rewrite <- (Nat.add_0_r (Z.to_nat (o - 1))), <- nth_skipn, E.
        reflexivity. }
      rewrite Hl in Hcount. cbn [firstn net_lines]. unfold net. lia. }
    destruct Ho as (Hrange & _ & _).
    destruct Hres as [[_ Hnz] | (e & He & Hoe & Hz & Hmin)].
    + exfalso. apply (Hnz o); [lia | exact Hrd].
    + rewrite He. do 2 f_equal.
      destruct (Z.eq_dec e o) as [-> | Hne]; [reflexivity |].
      exfalso. apply (Hmin o); [lia | exact Hrd].
Qed.

(** C4: from a start line [s >= 1] the call never raises, and it returns
    [None] exactly when no line from [s] on has an opening brace (as when
    [s] is beyond the last line) or the running depth, counted from the first
    line with an opening brace, is zero at the end of no line. *)
Theorem brace_matched_end_absent (lines : list str) (s : Z) :
  1 <= s ->
  (exists r, _brace_matched_end lines s = Returns r) /\
  (len lines < s -> _brace_matched_end lines s = Returns None) /\
  (_brace_matched_end lines s = Returns None <->
   (forall j, s <= j <= len lines -> contains lbrace (line_at lines j) = false)
   \/
   (exists o, first_open_line lines s o /\
      forall j, o <= j <= len lines -> running_depth lines o j <> 0)).
Proof.
  intros Hs.
  destruct (brace_matched_end_cases lines s Hs)
    as [[Hres Hnone] | (o & Ho & [[Hres Hnz] | (e & Hres & Hoe & Hz & Hmin)])].
  - split; [eauto |]. split; [intros _; exact Hres |].
    split; [intros _; left; exact Hnone | intros _; exact Hres].
  - split; [eauto |]. split; [intros _; exact Hres |].
    split; [intros _; right; eauto | intros _; exact Hres].
  - split; [eauto |]. split.
    { intros Hout. destruct Ho as (Hrange & _). lia. }
    rewrite Hres. split; [discriminate |].
    intros [Hnone | (o' & Ho' & Hnz)]; exfalso.
    + destruct Ho as (Hrange & Hat & _). rewrite Hnone in Hat by lia.
      discriminate.
    + assert (o' = o) by (eapply first_open_line_unique; eassumption). subst o'.
      apply (Hnz e); [lia | exact Hz].
Qed.

(** A returned end line is not before the start line and not beyond the
    file. *)
Lemma brace_matched_end_range (lines : list str) (s e : Z) :
  1 <= s ->
  _brace_matched_end lines s = Returns (Some e) ->
  s <= e <= len lines.
Proof.
  intros Hs He.
  destruct (brace_matched_end_cases lines s Hs)
    as [[Hres _] | (o & Ho & [[Hres _] | (e' & Hres & Hoe & _)])];
    rewrite Hres in He; try discriminate.
  injection He as <-. destruct Ho as (Hrange & _). lia.
Qed.

(** ** Counting braces in text *)

Lemma count_cons (c x : char) (s : str) :
  count c (x :: s) = (if N.eqb c x then 1 else 0) + count c s.
Proof.
  unfold count, len. cbn [filter]. destruct (N.eqb c x); cbn [length]; lia.
Qed.

Lemma count_app (c : char) (a b : str) : count c (a ++ b) = count c a + count c b.
Proof. unfold count. rewrite filter_app. apply len_app. Qed.

Lemma net_app (a b : str) : net (a ++ b) = net a + net b.
Proof. unfold net. rewrite !count_app. lia. Qed.

Lemma net_cons (x : char) (s : str) :
  net (x :: s)
  = (if N.eqb lbrace x then 1 else 0) - (if N.eqb rbrace x then 1 else 0) + net s.
Proof. unfold net. rewrite !count_cons. lia. Qed.

Lemma net_lines_app (A B : list str) :
  net_lines (A ++ B) = net_lines A + net_lines B.
Proof. induction A as [| a A IH]; cbn [app net_lines]; lia. Qed.

Lemma contains_app (c : char) (a b : str) :
  contains c (a ++ b) = contains c a || contains c b.
Proof. apply existsb_app. Qed.

Lemma join_cons (sep p : str) (ps : list str) :
  ps <> [] -> join sep (p :: ps) = p ++ sep ++ join sep ps.
Proof. destruct ps; [congruence | reflexivity]. Qed.

Lemma join_app (sep : str) (A B : list str) :
  A <> [] -> B <> [] -> join sep (A ++ B) = join sep A ++ sep ++ join sep B.
Proof.
  intros HA HB. induction A as [| a A IH]; [congruence |].
  destruct A as [| a' A].
  - cbn [app]. rewrite join_cons by assumption. reflexivity.
  - change ((a :: a' :: A) ++ B) with (a :: (a' :: A) ++ B).
    rewrite !join_cons by (try discriminate; destruct A; discriminate).
    rewrite IH by discriminate. now rewrite <- !app_assoc.
Qed.

Lemma net_newline : net [newline] = 0.
Proof. reflexivity. Qed.

Lemma net_join (A : list str) : net (join [newline] A) = net_lines A.
Proof.
  induction A as [| a A IH]; [reflexivity |].
  destruct A as [| a' A].
  - cbn [join net_lines]. lia.
  - rewrite join_cons by discriminate.
    rewrite !net_app, IH, net_newline. cbn [net_lines]. lia.
Qed.

Lemma contains_join_In (c : char) (sep : str) (A : list str) (l : str) :
  In l A -> contains c l = true -> contains c (join sep A) = true.
Proof.
  intros Hin Hl. induction A as [| a A IH]; [contradiction |].
  destruct A as [| a' A].
  - destruct Hin as [-> | []]. exact Hl.
  - rewrite join_cons by discriminate. rewrite !contains_app.
    destruct Hin as [-> | Hin].
    + now rewrite Hl.
    + rewrite IH by assumption. now rewrite !orb_true_r.
Qed.

Lemma contains_join_none (c : char) (A : list str) :
  N.eqb c newline = false ->
  (forall l, In l A -> contains c l = false) ->
  contains c (join [newline] A) = false.
Proof.
  intros Hc Hall. induction A as [| a A IH]; [reflexivity |].
  destruct A as [| a' A].
  - apply Hall. now left.
  - rewrite join_cons by discriminate. rewrite !contains_app.
    rewrite (Hall a) by now left.
    rewrite IH by (intros l Hl; apply Hall; now right).
    cbn. now rewrite Hc.
Qed.

(** ** The block automaton and the net brace count *)

Lemma block_run_app (st : block_state) (P R : str) :
  block_run st (P ++ R) = block_run (block_run st P) R.
Proof. apply fold_left_app. Qed.

Lemma block_run_Bad (R : str) : block_run Bad R = Bad.
Proof. induction R as [| c R IH]; [reflexivity | exact IH]. Qed.

Lemma lbrace_not_rbrace (c : char) : N.eqb lbrace c = true -> N.eqb rbrace c = false.
Proof.
  intros H. apply N.eqb_eq in H. subst c. reflexivity.
Qed.

Lemma block_step_depth (st : block_state) (c : char) :
  block_step st c <> Bad ->
  state_depth (block_step st c) = state_depth st + net [c].
Proof.
  rewrite net_cons. change (net []) with 0.
  destruct st as [| d | |]; cbn [block_step]; intros H.
  - destruct (N.eqb lbrace c) eqn:E1.
    + rewrite (lbrace_not_rbrace _ E1). reflexivity.
    + destruct (N.eqb rbrace c); [congruence | reflexivity].
  - destruct (N.eqb lbrace c) eqn:E1.
    + rewrite (lbrace_not_rbrace _ E1). cbn [state_depth]. lia.
    + destruct (N.eqb rbrace c); [| cbn [state_depth]; lia].
      destruct d; cbn [state_depth]; lia.
  - destruct (N.eqb lbrace c), (N.eqb rbrace c); cbn in *; congruence.
  - congruence.
Qed.

Lemma block_run_depth (P : str) (st : block_state) :
  block_run st P <> Bad ->
  state_depth (block_run st P) = state_depth st + net P.
Proof.
  revert st. induction P as [| c P IH]; intros st H.
  - cbn. unfold net. cbn. lia.
  - change (block_run st (c :: P)) with (block_run (block_step st c) P) in *.
    assert (Hstep : block_step st c <> Bad).
    { intros E. rewrite E in H. now rewrite block_run_Bad in H. }
    rewrite IH by assumption. rewrite block_step_depth by assumption.
    change (c :: P) with ([c] ++ P). rewrite net_app. lia.
Qed.

Lemma block_run_not_Before (P : str) (st : block_state) :
  st <> Before -> block_run st P <> Before.
Proof.
  revert st. induction P as [| c P IH]; intros st H; [exact H |].
  change (block_run st (c :: P)) with (block_run (block_step st c) P).
  apply IH. destruct st as [| d | |]; cbn [block_step]; try congruence.
  - destruct (N.eqb lbrace c); [discriminate |].
    destruct (N.eqb rbrace c); [destruct d |]; discriminate.
  - destruct (N.eqb lbrace c || N.eqb rbrace c); discriminate.
Qed.

Lemma block_run_opened (P : str) (st : block_state) :
  contains lbrace P = true -> block_run st P <> Before.
Proof.
  revert st. induction P as [| c P IH]; intros st H; [discriminate |].
  change (block_run st (c :: P)) with (block_run (block_step st c) P).
  cbn [contains existsb] in H. destruct (N.eqb lbrace c) eqn:E.
  - apply block_run_not_Before.
    destruct st; cbn [block_step]; rewrite ?E; cbn; discriminate.
  - apply IH. exact H.
Qed.

Lemma block_run_unopened (P : str) :
  contains lbrace P = false -> block_run Before P <> Bad ->
  block_run Before P = Before.
Proof.
  induction P as [| c P IH]; intros H Hbad; [reflexivity |].
  change (block_run Before (c :: P)) with (block_run (block_step Before c) P) in *.
  cbn [contains existsb] in H. apply orb_false_iff in H. destruct H as [E H].
  cbn [block_step] in *. rewrite E in *.
  destruct (N.eqb rbrace c).
  - now rewrite block_run_Bad in Hbad.
  - now apply IH.
Qed.

Lemma block_run_closed (R : str) :
  block_run After R = After -> contains rbrace R = false.
Proof.
  induction R as [| c R IH]; intros H; [reflexivity |].
  change (block_run After (c :: R)) with (block_run (block_step After c) R) in H.
  cbn [block_step] in H. cbn [contains existsb].
  destruct (N.eqb lbrace c) eqn:E1; cbn [orb] in H.
  - rewrite block_run_Bad in H. discriminate.
  - destruct (N.eqb rbrace c) eqn:E2.
    + rewrite block_run_Bad in H. discriminate.
    + now apply IH.
Qed.

Lemma well_formed_block_run (T : str) :
  well_formed_block T = true -> block_run Before T = After.
Proof.
  unfold well_formed_block. destruct (block_run Before T); congruence.
Qed.

(** The braces of a well-formed block cancel out. *)
Lemma block_total (T : str) : well_formed_block T = true -> net T = 0.
Proof.
  intros H. apply well_formed_block_run in H.
  pose proof (block_run_depth T Before) as Hd. rewrite H in Hd.
  cbn [state_depth] in Hd. specialize (Hd ltac:(discriminate)). lia.
Qed.

(** A prefix that ends before the opening brace has no brace at all. *)
Lemma block_prefix_unopened (P R : str) :
  well_formed_block (P ++ R) = true -> contains lbrace P = false -> net P = 0.
Proof.
  intros H Hno. apply well_formed_block_run in H. rewrite block_run_app in H.
  assert (Hbad : block_run Before P <> Bad).
  { intros E. rewrite E, block_run_Bad in H. discriminate. }
  pose proof (block_run_depth P Before Hbad) as Hd.
  rewrite (block_run_unopened P Hno Hbad) in Hd. cbn [state_depth] in Hd. lia.
Qed.

(** A prefix that ends after the opening brace and before the last closing
    one ends inside the block. *)
Lemma block_prefix_inside (P R : str) :
  well_formed_block (P ++ R) = true ->
  contains lbrace P = true -> contains rbrace R = true -> 1 <= net P.
Proof.
  intros H Hopen Hclose. apply well_formed_block_run in H.
  rewrite block_run_app in H.
  pose proof (block_run_opened P Before Hopen) as HnB.
  destruct (block_run Before P) as [| d | |] eqn:E.
  - congruence.
  - pose proof (block_run_depth P Before) as Hd. rewrite E in Hd.
    cbn [state_depth] in Hd. specialize (Hd ltac:(discriminate)). lia.
  - apply block_run_closed in H. congruence.
  - rewrite block_run_Bad in H. discriminate.
Qed.

Lemma firstn_plus {A} (k m : nat) (L : list A) :
  firstn (k + m) L = firstn k L ++ firstn m (skipn k L).
Proof.
  revert L. induction k as [| k IH]; intros L; [reflexivity |].
  destruct L as [| a L]; cbn [Nat.add firstn skipn app].
  - now rewrite firstn_nil.
  - now rewrite IH.
Qed.

Lemma In_firstn_nth {A} (m i : nat) (L : list A) (d : A) :
  (i < m)%nat -> (i < length L)%nat -> In (nth i L d) (firstn m L).
Proof.
  intros Him HiL.
  replace (nth i L d) with (nth i (firstn m L) d).
  - apply nth_In. rewrite length_firstn. lia.
  - rewrite nth_firstn. destruct (Nat.ltb_spec i m); [reflexivity | lia].
Qed.

Lemma firstn_unopened (k : nat) (L : list str) (l : str) :
  (k <= open_offset L)%nat -> In l (firstn k L) -> contains lbrace l = false.
Proof.
  intros Hk Hin. destruct (In_nth _ _ [] Hin) as (i & Hi & <-).
  rewrite length_firstn in Hi. rewrite nth_firstn.
  destruct (Nat.ltb_spec i k); [| lia].
  apply open_offset_before. lia.
Qed.

(** The locator on the lines of a well-formed block: [L] starts at the start
    line, its first [k] lines have no opening brace, the next [M] lines run
    from the line of the opening brace to the line of the matching one. *)
Lemma first_zero_block (L : list str) (M : nat) :
  let k := open_offset L in
  let B := skipn k L in
  (1 <= M <= length B)%nat ->
  contains rbrace (nth (M - 1) B []) = true ->
  well_formed_block (join [newline] (firstn (k + M) L)) = true ->
  first_zero B 0 = Some M.
Proof.
  intros k B HM Hclose Hwf.
  assert (Hk : (k < length L)%nat).
  { unfold B in HM. rewrite length_skipn in HM. lia. }
  assert (HlenB : length B = (length L - k)%nat) by apply length_skipn.
  assert (Hopen : contains lbrace (nth 0 B []) = true).
  { unfold B. rewrite nth_skipn, Nat.add_0_r. now apply open_offset_at. }
  set (A := firstn k L) in *.
  assert (HA : forall l, In l A -> contains lbrace l = false).
  { intros l Hl. apply (firstn_unopened k L); [lia | exact Hl]. }
  assert (HnetA : forall m, (1 <= m <= M)%nat ->
            well_formed_block (join [newline] (A ++ firstn m B)
                               ++ [newline] ++ join [newline] (firstn (M - m) (skipn m B))) = true
            \/ m = M).
  { intros m Hm. destruct (Nat.eq_dec m M) as [-> | Hne]; [now right | left].
    rewrite <- join_app.
    - rewrite <- app_assoc, <- firstn_plus.
      replace (m + (M - m))%nat with M by lia.
      unfold A, B. rewrite <- firstn_plus. exact Hwf.
    - intros E. apply (f_equal (@length str)) in E.
      rewrite length_app, length_firstn in E. simpl in E. lia.
    - intros E. apply (f_equal (@length str)) in E.
      rewrite length_firstn, length_skipn in E. simpl in E. lia. }
  assert (Hprefix0 : net_lines A = 0).
  { destruct A as [| a A'] eqn:EA; [reflexivity |].
    rewrite <- net_join.
    assert (HB : firstn M B <> []).
    { intros E. apply (f_equal (@length str)) in E.
      rewrite length_firstn in E. simpl in E. lia. }
    rewrite firstn_plus in Hwf. fold A B in Hwf. rewrite EA in Hwf.
    rewrite join_app in Hwf by (assumption || discriminate).
    apply (block_prefix_unopened _ _ Hwf).
    apply contains_join_none; [reflexivity | exact HA]. }
  apply first_zero_unique.
  - exact HM.
  - rewrite firstn_plus in Hwf. fold A B in Hwf.
    apply block_total in Hwf. rewrite net_join, net_lines_app in Hwf. lia.
  - intros m Hm.
    destruct (HnetA m ltac:(lia)) as [Hsplit | ->]; [| lia].
    assert (Hin : 1 <= net (join [newline] (A ++ firstn m B))).
    { apply (block_prefix_inside _ _ Hsplit).
      - apply (contains_join_In _ _ _ (nth 0 B [])); [| exact Hopen].
        apply in_or_app. right. apply In_firstn_nth; lia.
      - rewrite contains_app. apply orb_true_iff. right.
        apply (contains_join_In _ _ _ (nth (M - 1) B [])); [| exact Hclose].
        replace (nth (M - 1) B []) with (nth (M - 1 - m) (skipn m B) [])
          by (rewrite nth_skipn; f_equal; lia).
        apply In_firstn_nth; [lia |]. rewrite length_skipn. lia. }
    rewrite net_join, net_lines_app in Hin. lia.
Qed.

(** C1: on the lines of a well-formed nested-brace block that starts at line
    [s], whose first opening brace is on line [o >= s] and whose matching
    closing brace is on line [e], the call returns [e], which is the first
    line at whose end the depth, counted from line [o], is zero again. *)
Theorem brace_matching_correct (lines : list str) (s o e : Z) :
  1 <= s -> e <= len lines ->
  first_open_line lines s o -> o <= e ->
  contains rbrace (line_at lines e) = true ->
  well_formed_block (join [newline] (py_slice lines (s - 1) e)) = true ->
  _brace_matched_end lines s = Returns (Some e) /\
  running_depth lines o e = 0 /\
  (forall j, o <= j < e -> running_depth lines o j <> 0).
Proof.
  intros Hs He Ho Hoe Hclose Hwf.
  assert (Hres : _brace_matched_end lines s = Returns (Some e)).
  { rewrite brace_matched_end_eq by assumption. cbv zeta.
    pose proof (proj1 (first_open_line_offset lines s o Hs) Ho) as [Hlt Hoff].
    set (L := skipn (Z.to_nat (s - 1)) lines) in *.
    set (k := open_offset L) in *.
    assert (HlenL : length L = (length lines - Z.to_nat (s - 1))%nat)
      by apply length_skipn.
    destruct (Nat.ltb_spec k (length L)) as [_ | Hge]; [| lia].
    unfold len in He.
    pose proof (first_zero_block L (Z.to_nat (e - o + 1))) as F.
    cbv zeta in F. fold k in F. rewrite F.
    - cbn [option_map]. do 2 f_equal. lia.
    - rewrite length_skipn. lia.
    - rewrite nth_skipn. unfold L. rewrite nth_skipn.
      unfold line_at in Hclose.
      replace (Z.to_nat (s - 1) + (k + (Z.to_nat (e - o + 1) - 1)))%nat
        with (Z.to_nat (e - 1)) by lia.
      exact Hclose.
    - unfold L. rewrite <- py_slice_firstn_skipn by lia.
      replace (Z.of_nat (Z.to_nat (s - 1))) with (s - 1) by lia.
      replace (s - 1 + Z.of_nat (k + Z.to_nat (e - o + 1))) with e by lia.
      exact Hwf. }
  split; [exact Hres |].
  destruct (brace_matched_end_cases lines s Hs)
    as [[Hnone _] | (o' & Ho' & [[Hnone _] | (e' & Hres' & _ & Hz & Hmin)])];
    try congruence.
  assert (o' = o) by (eapply first_open_line_unique; eassumption). subst o'.
  assert (e' = e) by congruence. subst e'.
  split; assumption.
Qed.

(** ** The matcher *)

Section MatcherFacts.
Context {A : Type}.

Lemma star_loop_sound (g : bool) (r : re)
    (body : str -> (str -> option A) -> option A) :
  sound_on body r ->
  forall n, sound_on (fun s k => star_loop g body k n s) (Star g r).
Proof.
  intros Hbody n. unfold sound_on. induction n as [| n IH]; intros s k x H.
  - cbn in H. exists [], s. repeat split; [constructor | exact H].
  - cbn [star_loop] in H.
    assert (Hleave : k s = Some x ->
              exists tok rest, s = tok ++ rest /\ matches (Star g r) tok rest
                               /\ k rest = Some x).
    { intros Hk. exists [], s. repeat split; [constructor | exact Hk]. }
    assert (Hagain :
              body s (fun s' => if (length s' <? length s)%nat
                                then star_loop g body k n s' else None) = Some x ->
              exists tok rest, s = tok ++ rest /\ matches (Star g r) tok rest
                               /\ k rest = Some x).
    { intros Hb. apply Hbody in Hb. destruct Hb as (t1 & rest1 & -> & Hm1 & Hk).
      destruct (length rest1 <? length (t1 ++ rest1))%nat; [| discriminate].
      apply IH in Hk. destruct Hk as (t2 & rest & -> & Hm2 & Hk).
      exists (t1 ++ t2), rest. rewrite <- app_assoc.
      repeat split; [now constructor | exact Hk]. }
    destruct g.
    + destruct (body s _) eqn:E.
      * injection H as ->. now apply Hagain.
      * now apply Hleave.
    + destruct (k s) eqn:E.
      * injection H as ->. now apply Hleave.
      * now apply Hagain.
Qed.

Lemma rmatch_sound (r : re) : sound_on (@rmatch A r) r.
Proof.
  induction r as [| p | r1 IH1 r2 IH2 | r1 IH1 r2 IH2 | g r1 IH1 |];
    intros s k x H; cbn [rmatch] in H.
  - exists [], s. repeat split; [constructor | exact H].
  - destruct s as [| c s']; [discriminate |].
    destruct (p c) eqn:E; [| discriminate].
    exists [c], s'. repeat split; [now constructor | exact H].
  - apply IH1 in H. destruct H as (t1 & rest1 & -> & Hm1 & H).
    apply IH2 in H. destruct H as (t2 & rest & -> & Hm2 & H).
    exists (t1 ++ t2), rest. rewrite <- app_assoc.
    repeat split; [now constructor | exact H].
  - destruct (rmatch r1 s k) eqn:E.
    + injection H as ->. apply IH1 in E.
      destruct E as (t & rest & -> & Hm & Hk).
      exists t, rest. repeat split; [now apply matches_alt_l | exact Hk].
    + apply IH2 in H. destruct H as (t & rest & -> & Hm & Hk).
      exists t, rest. repeat split; [now apply matches_alt_r | exact Hk].
  - exact (star_loop_sound g r1 (rmatch r1) IH1 (length s) s k x H).
  - exists [], s. split; [reflexivity |].
    destruct s as [| c s'].
    + split; [now constructor | exact H].
    + destruct (N.eqb c newline) eqn:E; [| discriminate].
      split; [constructor; exact E | exact H].
Qed.

(** A lazy [.*?] hands the suffixes of the input to what follows, the
    longest first. *)
Lemma star_lazy_any (k : str -> option A) (n : nat) (s : str) :
  (length s <= n)%nat ->
  star_loop false (rmatch Any) k n s = first_suffix k s.
Proof.
  revert s. induction n as [| n IH]; intros s Hn.
  - destruct s; [| simpl in Hn; lia]. cbn. now destruct (k []).
  - cbn [star_loop]. destruct s as [| c s']; cbn [first_suffix].
    + cbn. now destruct (k []).
    + destruct (k (c :: s')); [reflexivity |].
      cbn [rmatch Any].
      destruct (Nat.ltb_spec (length s') (length (c :: s'))) as [_ | H];
        [| simpl in H; lia].
      apply IH. simpl in Hn. lia.
Qed.

Lemma rmatch_Lit_cons (c : char) (w s : str) (k : str -> option A) :
  rmatch (Lit (c :: w)) s k
  = match s with
    | c' :: s' => if N.eqb c c' then rmatch (Lit w) s' k else None
    | [] => None
    end.
Proof. reflexivity. Qed.
End MatcherFacts.

Lemma match_here_sound (r : re) (s rest : str) :
  match_here r s = Some rest ->
  exists tok, s = tok ++ rest /\ matches r tok rest.
Proof.
  intros H. apply rmatch_sound in H.
  destruct H as (tok & rest' & -> & Hm & E). injection E as ->. eauto.
Qed.

(** ** Scanning: [findall] and [sub] do not depend on the fuel *)

Lemma findall_from_fuel (r : re) (f1 f2 : nat) (s : str) :
  (length s < f1)%nat -> (length s < f2)%nat ->
  findall_from f1 r s = findall_from f2 r s.
Proof.
  revert f2 s. induction f1 as [| f1 IH]; intros f2 s H1 H2; [lia |].
  destruct f2 as [| f2]; [lia |]. cbn [findall_from].
  destruct (match_here r s) as [rest |].
  - f_equal. destruct (Nat.ltb_spec (length rest) (length s)).
    + apply IH; lia.
    + destruct s as [| c s']; [reflexivity |]. apply IH; simpl in *; lia.
  - destruct s as [| c s']; [reflexivity |]. apply IH; simpl in *; lia.
Qed.

Lemma findall_eq (r : re) (s : str) :
  findall r s
  = match match_here r s with
    | Some rest =>
        firstn (length s - length rest) s ::
          (if (length rest <? length s)%nat then findall r rest
           else match s with [] => [] | _ :: s' => findall r s' end)
    | None => match s with [] => [] | _ :: s' => findall r s' end
    end.
Proof.
  unfold findall at 1. cbn [findall_from].
  destruct (match_here r s) as [rest |].
  - f_equal. destruct (Nat.ltb_spec (length rest) (length s)).
    + apply findall_from_fuel; lia.
    + destruct s as [| c s']; [reflexivity |].
      apply findall_from_fuel; simpl; lia.
  - destruct s as [| c s']; [reflexivity |].
    apply findall_from_fuel; simpl; lia.
Qed.

Lemma sub_from_fuel (r : re) (repl : str) (f1 f2 : nat) (s : str) :
  (length s < f1)%nat -> (length s < f2)%nat ->
  sub_from f1 r repl s = sub_from f2 r repl s.
Proof.
  revert f2 s. induction f1 as [| f1 IH]; intros f2 s H1 H2; [lia |].
  destruct f2 as [| f2]; [lia |]. cbn [sub_from].
  destruct (match_here r s) as [rest |].
  - f_equal. destruct (Nat.ltb_spec (length rest) (length s)).
    + apply IH; lia.
    + destruct s as [| c s']; [reflexivity |]. f_equal.
      apply IH; simpl in *; lia.
  - destruct s as [| c s']; [reflexivity |]. f_equal.
    apply IH; simpl in *; lia.
Qed.

Lemma sub_eq (r : re) (repl s : str) :
  sub r repl s
  = match match_here r s with
    | Some rest =>
        repl ++
          (if (length rest <? length s)%nat then sub r repl rest
           else match s with [] => [] | c :: s' => c :: sub r repl s' end)
    | None => match s with [] => [] | c :: s' => c :: sub r repl s' end
    end.
Proof.
  unfold sub at 1. cbn [sub_from].
  destruct (match_here r s) as [rest |].
  - f_equal. destruct (Nat.ltb_spec (length rest) (length s)).
    + apply sub_from_fuel; lia.
    + destruct s as [| c s']; [reflexivity |].
      f_equal; apply sub_from_fuel; simpl; lia.
  - destruct s as [| c s']; [reflexivity |].
    f_equal; apply sub_from_fuel; simpl; lia.
Qed.

(** Induction on the length of a string. *)
Lemma str_length_ind (P : str -> Prop) :
  (forall s, (forall t, (length t < length s)%nat -> P t) -> P s) ->
  forall s, P s.
Proof.
  intros H s. remember (length s) as n eqn:E. revert s E.
  induction n as [n IH] using lt_wf_ind. intros s ->.
  apply H. intros t Ht. exact (IH _ Ht t eq_refl).
Qed.

(** ** Comments: where one starts and where it ends *)

Lemma first_suffix_eol (r : str) :
  first_suffix (fun s2 => rmatch Eol s2 Some) r = Some (to_eol r).
Proof.
  induction r as [| c r IH]; [reflexivity |].
  cbn [first_suffix rmatch to_eol].
  destruct (N.eqb c newline); [reflexivity | exact IH].
Qed.

Lemma first_suffix_close (r : str) :
  first_suffix (fun s2 => rmatch (Lit (lit "*/")) s2 Some) r = after_close r.
Proof.
  change (lit "*/") with [chr "*"; chr "/"].
  induction r as [| c r IH]; [reflexivity |].
  cbn [first_suffix]. rewrite rmatch_Lit_cons.
  destruct r as [| c' r'].
  - destruct (N.eqb (chr "*") c); reflexivity.
  - rewrite rmatch_Lit_cons. cbn [after_close].
    destruct (N.eqb (chr "*") c); cbn [andb]; [| exact IH].
    destruct (N.eqb (chr "/") c'); [reflexivity | exact IH].
Qed.

Lemma match_here_comment (s : str) : match_here comment_re s = comment_end s.
Proof.
  unfold match_here, comment_re.
  change (lit "//") with [chr "/"; chr "/"].
  change (lit "/*") with [chr "/"; chr "*"].
  cbn [rmatch]. rewrite !rmatch_Lit_cons.
  destruct s as [| c1 [| c2 r]]; cbn [comment_end].
  - reflexivity.
  - rewrite !rmatch_Lit_cons. now destruct (N.eqb (chr "/") c1).
  - rewrite !rmatch_Lit_cons.
    destruct (N.eqb (chr "/") c1); [| reflexivity].
    destruct (N.eqb (chr "/") c2) eqn:E2.
    + cbn [Lit rmatch]. rewrite star_lazy_any by lia.
      now rewrite first_suffix_eol.
    + destruct (N.eqb (chr "*") c2); [| reflexivity].
      cbn [Lit rmatch]. rewrite star_lazy_any by lia.
      apply first_suffix_close.
Qed.

Lemma to_eol_length (r : str) : (length (to_eol r) <= length r)%nat.
Proof.
  induction r as [| c r IH]; [reflexivity |]. cbn [to_eol].
  destruct (N.eqb c newline); simpl; lia.
Qed.

Lemma after_close_length (r rest : str) :
  after_close r = Some rest -> (length rest < length r)%nat.
Proof.
  revert rest. induction r as [| c r IH]; intros rest H; [discriminate |].
  cbn [after_close] in H. destruct r as [| c' r']; [discriminate |].
  destruct (N.eqb (chr "*") c && N.eqb (chr "/") c').
  - injection H as <-. simpl. lia.
  - apply IH in H. simpl in *. lia.
Qed.

Lemma comment_end_length (s rest : str) :
  comment_end s = Some rest -> (length rest < length s)%nat.
Proof.
  destruct s as [| c1 [| c2 r]]; try discriminate. cbn [comment_end].
  destruct (N.eqb (chr "/") c1); [| discriminate].
  destruct (N.eqb (chr "/") c2).
  - intros H. injection H as <-. pose proof (to_eol_length r). simpl. lia.
  - destruct (N.eqb (chr "*") c2); [| discriminate].
    intros H. apply after_close_length in H. simpl. lia.
Qed.

Lemma comment_end_slash (s rest : str) :
  comment_end s = Some rest -> exists r, s = chr "/" :: r.
Proof.
  destruct s as [| c1 [| c2 r]]; try discriminate. cbn [comment_end].
  destruct (N.eqb_spec (chr "/") c1) as [<- | _]; [eauto | discriminate].
Qed.

Lemma strip_comments_eq (s : str) :
  _strip_java_comments_for_check s
  = match comment_end s with
    | Some rest => _strip_java_comments_for_check rest
    | None =>
        match s with
        | [] => []
        | c :: s' => c :: _strip_java_comments_for_check s'
        end
    end.
Proof.
  unfold _strip_java_comments_for_check. rewrite sub_eq at 1.
  rewrite match_here_comment.
  destruct (comment_end s) as [rest |] eqn:E; [| reflexivity].
  apply comment_end_length in E.
  destruct (Nat.ltb_spec (length rest) (length s)); [reflexivity | lia].
Qed.

(** ** Comment stripping leaves no comment behind *)

Lemma after_close_tail (c : char) (s : str) :
  after_close (c :: s) = None -> after_close s = None.
Proof.
  cbn [after_close]. destruct s as [| c' s']; [reflexivity |].
  now destruct (N.eqb (chr "*") c && N.eqb (chr "/") c').
Qed.

Lemma after_close_to_eol (s : str) :
  after_close s = None -> after_close (to_eol s) = None.
Proof.
  induction s as [| c s IH]; intros H; [reflexivity |]. cbn [to_eol].
  destruct (N.eqb c newline); [exact H |].
  apply IH. exact (after_close_tail c s H).
Qed.

(** The head of the stripped text is the head of the text, unless the text
    starts with a comment. *)
Lemma strip_comments_head (s : str) (d : char) (t : str) :
  _strip_java_comments_for_check s = d :: t ->
  (exists r, s = d :: r /\ t = _strip_java_comments_for_check r) \/
  (exists r, s = chr "/" :: r).
Proof.
  rewrite strip_comments_eq. destruct (comment_end s) as [rest |] eqn:E.
  - intros _. right. exact (comment_end_slash s rest E).
  - destruct s as [| c s']; [discriminate |].
    intros H. injection H as -> <-. left. eauto.
Qed.

Lemma strip_comments_no_close (r : str) :
  after_close r = None ->
  after_close (_strip_java_comments_for_check r) = None.
Proof.
  induction r as [r IH] using str_length_ind. intros H.
  rewrite strip_comments_eq. destruct (comment_end r) as [rest |] eqn:E.
  - apply IH; [exact (comment_end_length r rest E) |].
    destruct r as [| c1 [| c2 r']]; try discriminate. cbn [comment_end] in E.
    apply after_close_tail, after_close_tail in H.
    destruct (N.eqb (chr "/") c1); [| discriminate].
    destruct (N.eqb (chr "/") c2).
    + injection E as <-. now apply after_close_to_eol.
    + destruct (N.eqb (chr "*") c2); congruence.
  - destruct r as [| c r']; [reflexivity |].
    assert (IH' : after_close (_strip_java_comments_for_check r') = None).
    { apply IH; [simpl; lia | exact (after_close_tail c r' H)]. }
    destruct (_strip_java_comments_for_check r') as [| d t] eqn:Es;
      [reflexivity |].
    cbn [after_close].
    destruct (N.eqb (chr "*") c && N.eqb (chr "/") d) eqn:Ecd; [| exact IH'].
    exfalso. apply andb_true_iff in Ecd. destruct Ecd as [Ec Ed].
    apply N.eqb_eq in Ec, Ed. subst c d.
    destruct (strip_comments_head r' _ _ Es) as [(r0 & -> & _) | (r0 & ->)];
      discriminate H.
Qed.

Lemma comment_end_stripped (c : char) (s' : str) :
  comment_end (c :: s') = None ->
  comment_end (c :: _strip_java_comments_for_check s') = None.
Proof.
  intros H.
  destruct (_strip_java_comments_for_check s') as [| d t] eqn:Es;
    [reflexivity |].
  cbn [comment_end].
  destruct (N.eqb_spec (chr "/") c) as [<- | _]; [| reflexivity].
  destruct (strip_comments_head s' _ _ Es) as [(r & -> & ->) | (r & ->)].
  - cbn [comment_end] in H. rewrite N.eqb_refl in H.
    destruct (N.eqb (chr "/") d); [discriminate |].
    destruct (N.eqb (chr "*") d); [| reflexivity].
    now apply strip_comments_no_close.
  - cbn [comment_end] in H. rewrite !N.eqb_refl in H. discriminate H.
Qed.

Lemma strip_comments_comment_free (s : str) :
  comment_free (_strip_java_comments_for_check s) = true.
Proof.
  induction s as [s IH] using str_length_ind.
  rewrite strip_comments_eq. destruct (comment_end s) as [rest |] eqn:E.
  - apply IH. exact (comment_end_length s rest E).
  - destruct s as [| c s']; [reflexivity |].
    cbn [comment_free]. rewrite (comment_end_stripped c s' E).
    apply IH. simpl. lia.
Qed.

Lemma strip_comments_fixed (t : str) :
  comment_free t = true -> _strip_java_comments_for_check t = t.
Proof.
  induction t as [| c t IH]; intros H.
  - now rewrite strip_comments_eq.
  - rewrite strip_comments_eq. cbn [comment_free] in H.
    destruct (comment_end (c :: t)); [discriminate |].
    now rewrite IH.
Qed.

(** C5: stripping comments is idempotent. *)
Theorem strip_comments_idempotent (s : str) :
  _strip_java_comments_for_check (_strip_java_comments_for_check s)
  = _strip_java_comments_for_check s.
Proof.
  apply strip_comments_fixed, strip_comments_comment_free.
Qed.

(** ** Character classes *)

Lemma in_range_true (lo hi c : char) :
  in_range lo hi c = true <-> (lo <= c <= hi)%N.
Proof.
  unfold in_range. rewrite andb_true_iff, !N.leb_le. tauto.
Qed.

Lemma in_range_false (lo hi c : char) :
  (c < lo \/ hi < c)%N -> in_range lo hi c = false.
Proof.
  intros H. unfold in_range. apply andb_false_iff.
  rewrite !N.leb_gt. tauto.
Qed.

Lemma printable_not_space (c : char) : (33 <= c <= 132)%N -> is_space c = false.
Proof.
  intros H. unfold is_space.
  repeat (apply orb_false_iff; split);
    try (apply in_range_false; lia); apply N.eqb_neq; lia.
Qed.

Lemma ident_char_printable (c : char) :
  is_ident_char c = true -> (33 <= c <= 132)%N.
Proof.
  unfold is_ident_char. rewrite !orb_true_iff, !in_range_true, N.eqb_eq.
  unfold chr. cbn. lia.
Qed.

Lemma ident_start_ident_char (c : char) :
  is_ident_start c = true -> is_ident_char c = true.
Proof.
  unfold is_ident_start, is_ident_char. rewrite !orb_true_iff. tauto.
Qed.

(** ** Shapes of the words of the token pattern *)

Ltac inv H := inversion H; subst; clear H.

Lemma matches_cls_inv (p : char -> bool) (tok rest : str) :
  matches (Cls p) tok rest -> exists c, tok = [c] /\ p c = true.
Proof. intros H. inv H. eauto. Qed.

Lemma matches_star_cls (g : bool) (p : char -> bool) (tok rest : str) :
  matches (Star g (Cls p)) tok rest -> forallb p tok = true.
Proof.
  intros H. remember (Star g (Cls p)) as r eqn:Er. revert Er.
  induction H; intros Er; try discriminate.
  - reflexivity.
  - injection Er as -> ->. apply matches_cls_inv in H.
    destruct H as (c & -> & Hc). cbn [app forallb]. rewrite Hc.
    now apply IHmatches2.
Qed.

Lemma matches_chr_inv (q : char) (tok rest : str) :
  matches (Chr q) tok rest -> tok = [q].
Proof.
  intros H. apply matches_cls_inv in H. destruct H as (c & -> & Hc).
  apply N.eqb_eq in Hc. now subst c.
Qed.

Lemma matches_seq_inv (r1 r2 : re) (tok rest : str) :
  matches (Seq r1 r2) tok rest ->
  exists t1 t2, tok = t1 ++ t2 /\ matches r1 t1 (t2 ++ rest) /\ matches r2 t2 rest.
Proof. intros H. inv H. eauto. Qed.

Lemma matches_alt_inv (r1 r2 : re) (tok rest : str) :
  matches (Alt r1 r2) tok rest -> matches r1 tok rest \/ matches r2 tok rest.
Proof. intros H. inv H; auto. Qed.

Lemma matches_lit (w tok rest : str) : matches (Lit w) tok rest -> tok = w.
Proof.
  revert tok. induction w as [| c w IH]; intros tok H; cbn [Lit] in H.
  - now inv H.
  - apply matches_seq_inv in H. destruct H as (t1 & t2 & -> & H1 & H2).
    apply matches_chr_inv in H1. apply IH in H2. now subst.
Qed.

Lemma matches_quoted (q : char) (tok rest : str) :
  matches (Seq (Chr q) (Seq (Star false Any) (Chr q))) tok rest ->
  exists body, tok = q :: body ++ [q].
Proof.
  intros H. apply matches_seq_inv in H. destruct H as (t1 & t2 & -> & H1 & H2).
  apply matches_seq_inv in H2. destruct H2 as (body & t3 & -> & _ & H3).
  apply matches_chr_inv in H1, H3. subst. now exists body.
Qed.

(** ** The lexer *)

Section LexerFacts.
Variable uni_decimal : char -> bool.

Local Abbreviation token_re' := (token_re uni_decimal).
Local Abbreviation tokenize_code' := (tokenize_code uni_decimal).
Local Abbreviation is_digit' := (is_digit uni_decimal).

(** The six rules, as cases on a word of the pattern. *)
Lemma token_re_cases (tok rest : str) :
  matches token_re' tok rest ->
  (exists c t, tok = c :: t /\ is_ident_start c = true
               /\ forallb is_ident_char t = true) \/
  (exists c t, tok = c :: t /\ is_digit' c = true
               /\ forallb is_digit' t = true) \/
  (exists body, tok = dquote :: body ++ [dquote]) \/
  (exists body, tok = squote :: body ++ [squote]) \/
  In tok operators \/
  (exists c, tok = [c] /\ is_space c = false).
Proof.
  intros H. unfold token_re in H.
  apply matches_alt_inv in H. destruct H as [H | H].
  { left. apply matches_seq_inv in H. destruct H as (t1 & t2 & -> & H1 & H2).
    apply matches_cls_inv in H1. destruct H1 as (c & -> & Hc).
    apply matches_star_cls in H2. exists c, t2. auto. }
  apply matches_alt_inv in H. destruct H as [H | H].
  { right; left. apply matches_seq_inv in H.
    destruct H as (t1 & t2 & -> & H1 & H2).
    apply matches_cls_inv in H1. destruct H1 as (c & -> & Hc).
    apply matches_star_cls in H2. exists c, t2. auto. }
  apply matches_alt_inv in H. destruct H as [H | H].
  { right; right; left. exact (matches_quoted dquote tok rest H). }
  apply matches_alt_inv in H. destruct H as [H | H].
  { right; right; right; left. exact (matches_quoted squote tok rest H). }
  right; right; right; right. cbn [fold_right operators] in H.
  repeat (apply matches_alt_inv in H;
          destruct H as [H | H];
          [left; apply matches_lit in H; subst tok; cbn; tauto |]).
  right. apply matches_cls_inv in H. destruct H as (c & -> & Hc).
  exists c. split; [reflexivity |]. unfold non_space in Hc.
  now apply negb_true_iff in Hc.
Qed.

Lemma token_re_nonempty (tok rest : str) :
  matches token_re' tok rest -> tok <> [].
Proof.
  intros H. apply token_re_cases in H.
  destruct H as [(c & t & -> & _) | [(c & t & -> & _) | [(b & ->) | [(b & ->)
                | [H | (c & -> & _)]]]]]; try discriminate.
  cbn in H. intuition (subst; discriminate).
Qed.

(** The fallback rule takes any character that is not whitespace. *)
Lemma token_re_fallback (c : char) (s : str) :
  is_space c = false -> match_here token_re' (c :: s) <> None.
Proof.
  intros Hc. unfold match_here, token_re.
  cbn [fold_right operators].
  repeat (match goal with
          | |- rmatch (Alt ?r1 ?r2) ?s ?k <> None =>
              change (rmatch (Alt r1 r2) s k)
                with (match rmatch r1 s k with
                      | Some x => Some x
                      | None => rmatch r2 s k
                      end);
              destruct (rmatch r1 s k); [discriminate |]
          end).
  cbn [rmatch fallback_re]. unfold non_space. rewrite Hc. discriminate.
Qed.

Lemma firstn_app_exact {A} (tok rest : list A) :
  firstn (length (tok ++ rest) - length rest) (tok ++ rest) = tok.
Proof.
  rewrite length_app. replace (length tok + length rest - length rest)%nat
    with (length tok + 0)%nat by lia.
  rewrite firstn_app_2. cbn. apply app_nil_r.
Qed.

(** One step of the scan: a token and the rest, a skipped whitespace
    character, or the end of the text. *)
Lemma tokenize_code_step (s : str) :
  (exists tok rest, s = tok ++ rest /\ matches token_re' tok rest /\
      tokenize_code' s = tok :: tokenize_code' rest) \/
  (exists c s', s = c :: s' /\ is_space c = true /\
      tokenize_code' s = tokenize_code' s') \/
  (s = [] /\ tokenize_code' s = []).
Proof.
  unfold tokenize_code. rewrite findall_eq.
  destruct (match_here token_re' s) as [rest |] eqn:E.
  - left. apply match_here_sound in E. destruct E as (tok & -> & Hm).
    exists tok, rest. split; [reflexivity |]. split; [exact Hm |].
    rewrite firstn_app_exact. f_equal.
    pose proof (token_re_nonempty tok rest Hm) as Hne.
    destruct (Nat.ltb_spec (length rest) (length (tok ++ rest))) as [_ | H];
      [reflexivity |].
    rewrite length_app in H. destruct tok; [congruence | simpl in H; lia].
  - destruct s as [| c s']; [now right; right |].
    right; left. exists c, s'. split; [reflexivity |].
    split; [| reflexivity].
    destruct (is_space c) eqn:Hc; [reflexivity |].
    exfalso. exact (token_re_fallback c s' Hc E).
Qed.

Lemma tokenize_code_covers (text : str) :
  tokenization text (tokenize_code' text).
Proof.
  induction text as [s IH] using str_length_ind.
  destruct (tokenize_code_step s)
    as [(tok & rest & -> & Hm & ->) | [(c & s' & -> & Hc & ->) | [-> ->]]].
  - pose proof (token_re_nonempty tok rest Hm) as Hne.
    apply tokenization_token; [exact Hne |].
    apply IH. rewrite length_app. destruct tok; [congruence | simpl; lia].
  - apply tokenization_space; [exact Hc |]. apply IH. simpl. lia.
  - constructor.
Qed.

Lemma tokenize_code_words (text tok : str) :
  In tok (tokenize_code' text) -> exists rest, matches token_re' tok rest.
Proof.
  induction text as [s IH] using str_length_ind.
  destruct (tokenize_code_step s)
    as [(tok' & rest & -> & Hm & ->) | [(c & s' & -> & Hc & ->) | [-> ->]]].
  - pose proof (token_re_nonempty tok' rest Hm) as Hne.
    intros [<- | Hin]; [eauto |].
    apply (IH rest); [| exact Hin].
    rewrite length_app. destruct tok'; [congruence | simpl; lia].
  - apply (IH s'). simpl. lia.
  - intros [].
Qed.

Lemma tokenization_nil_spaces (s : str) :
  tokenization s [] -> forallb is_space s = true.
Proof.
  intros H. remember [] as toks eqn:E. revert E.
  induction H; intros E; try discriminate.
  - reflexivity.
  - cbn [forallb]. rewrite H. now apply IHtokenization.
Qed.

Lemma tokenization_chars (s : str) (toks : list str) (tok : str) (c : char) :
  tokenization s toks -> In tok toks -> In c tok -> In c s.
Proof.
  intros H. induction H; intros Hin Hc.
  - contradiction.
  - right. now apply IHtokenization.
  - apply in_or_app. destruct Hin as [-> | Hin]; [now left |].
    right. now apply IHtokenization.
Qed.

Hypothesis uni_decimal_not_space :
  forall c, uni_decimal c = true -> is_space c = false.

Lemma digit_not_space (c : char) : is_digit' c = true -> is_space c = false.
Proof.
  unfold is_digit. rewrite orb_true_iff, andb_true_iff, in_range_true.
  intros [H | [_ H]].
  - apply printable_not_space. unfold chr in H. cbn in H. lia.
  - now apply uni_decimal_not_space.
Qed.

(** A token is not empty; it is a quoted string or free of whitespace. *)
Lemma token_re_shape (tok rest : str) :
  matches token_re' tok rest ->
  tok <> [] /\ (quoted tok \/ forallb non_space tok = true).
Proof.
  intros H. split; [exact (token_re_nonempty tok rest H) |].
  apply token_re_cases in H.
  destruct H as [(c & t & -> & Hc & Ht) | [(c & t & -> & Hc & Ht)
                | [(b & ->) | [(b & ->) | [H | (c & -> & Hc)]]]]].
  - right. apply (forallb_forall non_space (c :: t)). intros x Hx.
    unfold non_space. apply negb_true_iff, printable_not_space,
      ident_char_printable.
    destruct Hx as [<- | Hx]; [now apply ident_start_ident_char |].
    exact (proj1 (forallb_forall _ _) Ht x Hx).
  - right. apply (forallb_forall non_space (c :: t)). intros x Hx.
    unfold non_space. apply negb_true_iff, digit_not_space.
    destruct Hx as [<- | Hx]; [exact Hc |].
    exact (proj1 (forallb_forall _ _) Ht x Hx).
  - left. exists dquote, b. auto.
  - left. exists squote, b. auto.
  - right. cbn in H. intuition (subst; reflexivity).
  - right. cbn [forallb]. unfold non_space. now rewrite Hc.
Qed.

Lemma token_has_non_space (tok rest : str) :
  matches token_re' tok rest -> exists c, In c tok /\ is_space c = false.
Proof.
  intros H. apply token_re_shape in H.
  destruct H as [Hne [(q & body & Hq & ->) | Hall]].
  - exists q. split; [now left |]. destruct Hq as [-> | ->]; reflexivity.
  - destruct tok as [| c t]; [congruence |]. exists c. split; [now left |].
    cbn [forallb] in Hall. apply andb_true_iff in Hall.
    unfold non_space in Hall. now apply negb_true_iff.
Qed.

End LexerFacts.

(** ** Claims on [tokenize_code] *)

(** C3: the example text is split into exactly the eleven expected tokens,
    in order. *)
Theorem tokenize_code_example (uni_decimal : char -> bool) :
  tokenize_code uni_decimal example_text = example_tokens.
Proof. vm_compute. reflexivity. Qed.

(** C8: [tokenize_code] is total (the scan ends within the fuel it is
    given, and more fuel changes nothing), a character that is not whitespace
    always starts a token, the tokens are consecutive pieces of the text with
    only whitespace between them, the empty text has no token, and a token is
    never empty and is free of whitespace unless it is a quoted string. *)
Theorem tokenize_code_total (uni_decimal : char -> bool) (text : str) :
  (forall c, uni_decimal c = true -> is_space c = false) ->
  (forall fuel, (length text < fuel)%nat ->
     findall_from fuel (token_re uni_decimal) text
     = tokenize_code uni_decimal text) /\
  (forall c s, is_space c = false ->
     match_here (token_re uni_decimal) (c :: s) <> None) /\
  tokenization text (tokenize_code uni_decimal text) /\
  tokenize_code uni_decimal [] = [] /\
  (forall tok, In tok (tokenize_code uni_decimal text) ->
     tok <> [] /\ (quoted tok \/ forallb non_space tok = true)).
Proof.
  intros Hdec. split; [| split; [| split; [| split]]].
  - intros fuel Hfuel. apply findall_from_fuel; lia.
  - apply token_re_fallback.
  - apply tokenize_code_covers.
  - reflexivity.
  - intros tok Hin. apply tokenize_code_words in Hin. destruct Hin as [rest Hm].
    exact (token_re_shape uni_decimal Hdec tok rest Hm).
Qed.

(** C9: there is no token exactly when every character of the text is
    whitespace. *)
Theorem tokenize_code_empty_iff (uni_decimal : char -> bool) (text : str) :
  (forall c, uni_decimal c = true -> is_space c = false) ->
  tokenize_code uni_decimal text = [] <-> forallb is_space text = true.
Proof.
  intros Hdec. pose proof (tokenize_code_covers uni_decimal text) as Hcov.
  split.
  - intros E. rewrite E in Hcov. now apply tokenization_nil_spaces.
  - intros Hsp. destruct (tokenize_code uni_decimal text) as [| tok toks] eqn:E;
      [reflexivity | exfalso].
    assert (Hin : In tok (tokenize_code uni_decimal text))
      by (rewrite E; now left).
    apply tokenize_code_words in Hin. destruct Hin as [rest Hm].
    destruct (token_has_non_space uni_decimal Hdec tok rest Hm) as (c & Hc & Hns).
    assert (Hct : In c text).
    { apply (tokenization_chars text (tok :: toks) tok c Hcov); [now left | exact Hc]. }
    rewrite (proj1 (forallb_forall _ _) Hsp c Hct) in Hns. discriminate.
Qed.

(** ** Claims on [filter_invalid_methods] *)

Lemma filter_invalid_methods_acc (methods acc : list MethodRecord)
    (min_lines max_lines : Z) :
  fold_left
    (fun cleaned m =>
       let code_lines := code_lines_of (original_code m) in
       if len code_lines =? 0 then cleaned
       else if (len code_lines <? min_lines) || (len code_lines >? max_lines)
       then cleaned
       else cleaned ++ [m])
    methods acc
  = acc ++ filter (in_policy min_lines max_lines) methods.
Proof.
  revert acc. induction methods as [| m methods IH]; intros acc.
  - cbn. now rewrite app_nil_r.
  - cbn [fold_left filter]. rewrite IH. cbv zeta.
    unfold in_policy, effective_line_count.
    pose proof (len_nonneg (code_lines_of (original_code m))) as Hc.
    destruct (Z.eqb_spec (len (code_lines_of (original_code m))) 0) as [E0 | E0].
    { rewrite E0. reflexivity. }
    destruct (Z.ltb_spec 0 (len (code_lines_of (original_code m)))); [| lia].
    rewrite Z.gtb_ltb.
    destruct (Z.ltb_spec (len (code_lines_of (original_code m))) min_lines),
             (Z.leb_spec min_lines (len (code_lines_of (original_code m))));
      try lia; cbn [orb andb]; try reflexivity.
    destruct (Z.ltb_spec max_lines (len (code_lines_of (original_code m)))),
             (Z.leb_spec (len (code_lines_of (original_code m))) max_lines);
      try lia; try reflexivity.
    now rewrite <- app_assoc.
Qed.

Lemma filter_invalid_methods_filter (methods : list MethodRecord)
    (min_lines max_lines : Z) :
  filter_invalid_methods methods min_lines max_lines
  = filter (in_policy min_lines max_lines) methods.
Proof. unfold filter_invalid_methods. now rewrite filter_invalid_methods_acc. Qed.

(** With [min_lines = 0] a record with exactly [min_lines] effective lines
    is dropped: a record without code is never kept. *)
Lemma filter_boundary_min_zero :
  effective_line_count (original_code comment_only_method) = 0 /\
  In comment_only_method [comment_only_method] /\
  ~ In comment_only_method
      (filter_invalid_methods [comment_only_method] 0 default_max_lines).
Proof.
  split; [vm_compute; reflexivity |]. split; [now left |].
  vm_compute. intros [].
Qed.

(** C2, amended: the result is the records, in their order, whose effective
    line count [c] has [0 < c] and [min_lines <= c <= max_lines]; a record
    with [min_lines - 1] or [max_lines + 1] lines is dropped; a record with
    exactly [min_lines] lines is kept exactly when
    [1 <= min_lines <= max_lines], and one with exactly [max_lines] lines
    exactly when [1 <= max_lines] and [min_lines <= max_lines], as is the
    case for the defaults 3 and 100. *)
Theorem filter_invalid_methods_policy (methods : list MethodRecord)
    (min_lines max_lines : Z) :
  filter_invalid_methods methods min_lines max_lines
  = filter (fun m =>
              let c := effective_line_count (original_code m) in
              (0 <? c) && (min_lines <=? c) && (c <=? max_lines)) methods
  /\
  (forall m, effective_line_count (original_code m) = min_lines - 1 ->
     ~ In m (filter_invalid_methods methods min_lines max_lines)) /\
  (forall m, effective_line_count (original_code m) = max_lines + 1 ->
     ~ In m (filter_invalid_methods methods min_lines max_lines)) /\
  (forall m, In m methods ->
     effective_line_count (original_code m) = min_lines ->
     (In m (filter_invalid_methods methods min_lines max_lines)
      <-> 1 <= min_lines <= max_lines)) /\
  (forall m, In m methods ->
     effective_line_count (original_code m) = max_lines ->
     (In m (filter_invalid_methods methods min_lines max_lines)
      <-> 1 <= max_lines /\ min_lines <= max_lines)) /\
  1 <= default_min_lines <= default_max_lines.
Proof.
  rewrite filter_invalid_methods_filter.
  assert (Hin : forall m, In m (filter (in_policy min_lines max_lines) methods)
                  <-> In m methods /\
                      0 < effective_line_count (original_code m) /\
                      min_lines <= effective_line_count (original_code m)
                                <= max_lines).
  { intros m. rewrite filter_In. unfold in_policy. cbv zeta.
    rewrite !andb_true_iff, Z.ltb_lt, !Z.leb_le. tauto. }
  split; [reflexivity |].
  split; [| split; [| split; [| split]]].
  - intros m Hc H. apply Hin in H. lia.
  - intros m Hc H. apply Hin in H. lia.
  - intros m Hm Hc. rewrite Hin. split; [lia |].
    intros Hr. split; [assumption | lia].
  - intros m Hm Hc. rewrite Hin. split; [lia |].
    intros Hr. split; [assumption | lia].
  - split; discriminate.
Qed.

(** ** The extraction loop *)

Lemma skipn_cons_nth {A} (d : A) (a : nat) (l : list A) :
  (a < length l)%nat -> skipn a l = nth a l d :: skipn (S a) l.
Proof.
  revert l. induction a as [| a IH]; intros [| x l] H; simpl in H; try lia.
  - reflexivity.
  - cbn [skipn nth]. rewrite IH by lia. reflexivity.
Qed.

Lemma firstn_skipn_nth {A} (d : A) (m a : nat) (l : list A) :
  (a + m <= length l)%nat ->
  firstn m (skipn a l) = map (fun k => nth (a + k) l d) (seq 0 m).
Proof.
  revert a. induction m as [| m IH]; intros a H; [reflexivity |].
  rewrite (skipn_cons_nth d) by lia. cbn [firstn seq map].
  rewrite Nat.add_0_r. f_equal.
  rewrite IH by lia. rewrite <- seq_shift, map_map.
  apply map_ext. intros k. f_equal. lia.
Qed.

(** [lines[s-1:e]] is lines [s] to [e]. *)
Lemma py_slice_lines_between (lines : list str) (s e : Z) :
  1 <= s -> s <= e <= len lines ->
  py_slice lines (s - 1) e = lines_between lines s e.
Proof.
  intros Hs He. unfold len in He.
  replace (s - 1) with (Z.of_nat (Z.to_nat (s - 1))) by lia.
  replace e with (Z.of_nat (Z.to_nat (s - 1)) + Z.of_nat (Z.to_nat (e - s + 1)))
    at 1 by lia.
  rewrite py_slice_firstn_skipn by lia.
  rewrite (firstn_skipn_nth ([] : str)) by lia.
  unfold lines_between, py_range. rewrite map_map.
  replace (Z.to_nat (e + 1 - s)) with (Z.to_nat (e - s + 1)) by lia.
  apply map_ext. intros k. unfold line_at. f_equal. lia.
Qed.

Lemma truthy_int_pos (z : Z) : 1 <= z -> truthy_int z = true.
Proof.
  intros H. unfold truthy_int. destruct (Z.eqb_spec z 0); [lia | reflexivity].
Qed.

Lemma brace_matched_end_returns (lines : list str) (s : Z) :
  1 <= s -> exists r, _brace_matched_end lines s = Returns r.
Proof.
  intros Hs.
  destruct (brace_matched_end_cases lines s Hs)
    as [[Hres _] | (o & _ & [[Hres _] | (e & Hres & _)])]; eauto.
Qed.

Lemma extract_loop_ok (uni_decimal : char -> bool) (lines : list str)
    (nodes : list MethodDeclaration) :
  positions_from_one nodes ->
  forall results, Forall (record_ok uni_decimal lines) results ->
  exists res, extract_loop uni_decimal lines nodes results = Returns res /\
              Forall (record_ok uni_decimal lines) res.
Proof.
  induction nodes as [| node nodes IH]; intros Hpos results Hres.
  - exists results. now split.
  - assert (Hpos' : positions_from_one nodes).
    { intros n p Hin Hp. apply (Hpos n p); [now right | exact Hp]. }
    specialize (IH Hpos'). cbn [extract_loop].
    destruct (position node) as [s |] eqn:Ep; [| now apply IH].
    assert (Hs : 1 <= s) by (apply (Hpos node s); [now left | exact Ep]).
    rewrite (truthy_int_pos s Hs).
    destruct (brace_matched_end_returns lines s Hs) as [r Hr].
    rewrite Hr. cbn [bind]. destruct r as [e |]; [| now apply IH].
    pose proof (brace_matched_end_range lines s e Hs Hr) as He.
    rewrite (truthy_int_pos e) by lia.
    apply IH. apply Forall_app. split; [exact Hres |].
    constructor; [| constructor].
    unfold record_ok. cbn [start_line end_line original_code code_tokens].
    rewrite py_slice_lines_between by lia. repeat split; try lia. exact Hr.
Qed.

Lemma extract_methods_ok (uni_decimal : char -> bool) (code : str)
    (tree : option (list MethodDeclaration)) :
  tree_positions_from_one tree ->
  exists res, extract_methods_from_file uni_decimal code tree = Returns res /\
              Forall (record_ok uni_decimal (splitlines code)) res.
Proof.
  intros Hpos. destruct tree as [nodes |]; cbn [extract_methods_from_file].
  - now apply extract_loop_ok.
  - exists []. now split.
Qed.

(** C6: every record that the extraction produces has, as [original_code],
    the lines from [start_line] to [end_line] of the file, both included,
    joined with newlines and otherwise unchanged, and as [code_tokens] the
    tokens of that text. *)
Theorem extracted_code_is_span (uni_decimal : char -> bool) (code : str)
    (tree : option (list MethodDeclaration)) :
  tree_positions_from_one tree ->
  exists res,
    extract_methods_from_file uni_decimal code tree = Returns res /\
    forall r, In r res ->
      let lines := splitlines code in
      1 <= start_line r <= end_line r /\ end_line r <= len lines /\
      original_code r
      = join [newline] (py_slice lines (start_line r - 1) (end_line r)) /\
      original_code r
      = join [newline] (lines_between lines (start_line r) (end_line r)) /\
      code_tokens r = tokenize_code uni_decimal (original_code r).
Proof.
  intros Hpos.
  destruct (extract_methods_ok uni_decimal code tree Hpos) as (res & Hres & Hall).
  exists res. split; [exact Hres |]. intros r Hin. cbv zeta.
  destruct (proj1 (Forall_forall _ _) Hall r Hin) as (H1 & H2 & _ & Hcode & Htok).
  rewrite py_slice_lines_between by lia. repeat split; try lia; assumption.
Qed.

(** C7: an end line returned for a start line [s >= 1] lies between [s] and
    the number of lines; so every record that the extraction produces has
    [1 <= start_line <= end_line]. *)
Theorem brace_matched_end_bounds :
  (forall lines s e,
     1 <= s -> _brace_matched_end lines s = Returns (Some e) ->
     s <= e <= len lines) /\
  (forall uni_decimal code tree res r,
     tree_positions_from_one tree ->
     extract_methods_from_file uni_decimal code tree = Returns res ->
     In r res ->
     1 <= start_line r <= end_line r).
Proof.
  split.
  - exact brace_matched_end_range.
  - intros uni_decimal code tree res r Hpos Hres Hin.
    destruct (extract_methods_ok uni_decimal code tree Hpos) as (res' & Hres' & Hall).
    assert (res' = res) by congruence. subst res'.
    destruct (proj1 (Forall_forall _ _) Hall r Hin) as (H1 & H2 & _). lia.
Qed.

(** ** Instances at sample inputs *)

Lemma arabic_indic_digit_not_space (c : char) :
  arabic_indic_digit c = true -> is_space c = false.
Proof.
  unfold arabic_indic_digit. rewrite in_range_true. intros H.
  unfold is_space.
  repeat (apply orb_false_iff; split);
    try (apply in_range_false; lia); apply N.eqb_neq; lia.
Qed.

Lemma sample_first_open_line : first_open_line sample_lines 2 3.
Proof.
  split; [split; vm_compute; discriminate |].
  split; [reflexivity |].
  intros j Hj. assert (j = 2) by lia. subst j. reflexivity.
Defined.

Lemma brace_matching_correct_witness :
  _brace_matched_end sample_lines 2 = Returns (Some 5) /\
  running_depth sample_lines 3 5 = 0 /\
  (forall j, 3 <= j < 5 -> running_depth sample_lines 3 j <> 0).
Proof.
  apply (brace_matching_correct sample_lines 2 3 5).
  - lia.
  - vm_compute. discriminate.
  - exact sample_first_open_line.
  - lia.
  - reflexivity.
  - reflexivity.
Defined.

Lemma brace_matched_end_one_line_witness :
  _brace_matched_end one_line_body 1 = Returns (Some 2).
Proof.
  apply (brace_matched_end_one_line one_line_body 1 2).
  - lia.
  - split; [split; vm_compute; discriminate |].
    split; [reflexivity |].
    intros j Hj. assert (j = 1) by lia. subst j. reflexivity.
  - reflexivity.
Defined.

Lemma brace_matched_end_absent_witness :
  (exists r, _brace_matched_end unclosed_lines 1 = Returns r) /\
  (len unclosed_lines < 1 -> _brace_matched_end unclosed_lines 1 = Returns None) /\
  (_brace_matched_end unclosed_lines 1 = Returns None <->
   (forall j, 1 <= j <= len unclosed_lines ->
      contains lbrace (line_at unclosed_lines j) = false)
   \/
   (exists o, first_open_line unclosed_lines 1 o /\
      forall j, o <= j <= len unclosed_lines ->
        running_depth unclosed_lines o j <> 0)).
Proof.
  apply (brace_matched_end_absent unclosed_lines 1). lia.
Defined.

Lemma brace_matched_end_bounds_witness :
  2 <= 5 <= len sample_lines.
Proof.
  apply (proj1 brace_matched_end_bounds sample_lines 2 5).
  - lia.
  - reflexivity.
Defined.

Lemma sample_positions_from_one : tree_positions_from_one (Some [sample_node]).
Proof.
  intros node p [<- | []] H. injection H as <-. lia.
Defined.

Lemma extracted_code_is_span_witness :
  exists res,
    extract_methods_from_file arabic_indic_digit sample_code (Some [sample_node])
    = Returns res /\
    forall r, In r res ->
      let lines := splitlines sample_code in
      1 <= start_line r <= end_line r /\ end_line r <= len lines /\
      original_code r
      = join [newline] (py_slice lines (start_line r - 1) (end_line r)) /\
      original_code r
      = join [newline] (lines_between lines (start_line r) (end_line r)) /\
      code_tokens r = tokenize_code arabic_indic_digit (original_code r).
Proof.
  apply (extracted_code_is_span arabic_indic_digit sample_code (Some [sample_node])).
  exact sample_positions_from_one.
Defined.

Lemma tokenize_code_total_witness :
  (forall fuel, (length example_text < fuel)%nat ->
     findall_from fuel (token_re arabic_indic_digit) example_text
     = tokenize_code arabic_indic_digit example_text) /\
  (forall c s, is_space c = false ->
     match_here (token_re arabic_indic_digit) (c :: s) <> None) /\
  tokenization example_text (tokenize_code arabic_indic_digit example_text) /\
  tokenize_code arabic_indic_digit [] = [] /\
  (forall tok, In tok (tokenize_code arabic_indic_digit example_text) ->
     tok <> [] /\ (quoted tok \/ forallb non_space tok = true)).
Proof.
  apply (tokenize_code_total arabic_indic_digit example_text).
  exact arabic_indic_digit_not_space.
Defined.

Lemma tokenize_code_empty_iff_witness :
  tokenize_code arabic_indic_digit (lit "  ") = [] <->
  forallb is_space (lit "  ") = true.
Proof.
  apply (tokenize_code_empty_iff arabic_indic_digit (lit "  ")).
  exact arabic_indic_digit_not_space.
Defined.

Lemma filter_invalid_methods_policy_witness :
  In three_line_method
    (filter_invalid_methods [three_line_method] default_min_lines
       default_max_lines).
Proof.
  apply (proj1 (proj2 (proj2 (proj2
           (filter_invalid_methods_policy [three_line_method]
              default_min_lines default_max_lines))))
           three_line_method).
  - now left.
  - vm_compute. reflexivity.
  - vm_compute. split; discriminate.
Defined.

(** ** The scenarios of the specification *)

(** An opening brace that is never closed gives no end line. *)
Example unbalanced_input :
  _brace_matched_end unclosed_lines 1 = Returns None.
Proof. reflexivity. Qed.

(** A declaration that takes two lines before its opening brace. *)
Example multi_line_opener :
  _brace_matched_end sample_lines 2 = Returns (Some 5).
Proof. reflexivity. Qed.

(** Braces are counted line by line: when another block opens on the line
    that closes the first one, the depth is not zero at the end of that
    line and the scan goes on. *)
Example text_after_closing_brace :
  well_formed_block (join [newline] (py_slice shared_line 0 1)) = false /\
  _brace_matched_end shared_line 1 = Returns (Some 2).
Proof. split; reflexivity. Qed.

(** A body that is one block comment over five lines is dropped, whatever
    [min_lines] is. *)
Example comment_only_rejection (min_lines max_lines : Z) (m : MethodRecord) :
  original_code m
  = join [newline] [lit "/* one"; lit " * two"; lit " * three"; lit " * four";
                    lit " */"] ->
  filter_invalid_methods [m] min_lines max_lines = [].
Proof.
  intros H. rewrite filter_invalid_methods_filter. cbn [filter].
  unfold in_policy. rewrite H. reflexivity.
Qed.

(** The five-line method: located, extracted, and kept under the defaults,
    with four effective lines. *)
Example end_to_end (uni_decimal : char -> bool) :
  let lines := splitlines sample_code in
  _brace_matched_end lines 1 = Returns (Some 5) /\
  effective_line_count sample_code = 4 /\
  exists r,
    extract_methods_from_file uni_decimal sample_code (Some [sample_node])
    = Returns [r] /\
    original_code r = sample_code /\
    filter_invalid_methods [r] default_min_lines default_max_lines = [r].
Proof.
  cbv zeta. split; [reflexivity |]. split; [reflexivity |].
  eexists. split; [reflexivity |]. split; reflexivity.
Qed.

(** ** [_brace_matched_end] on start lines below 1 *)

Lemma py_getitem_valid {A} (l : list A) (i : Z) :
  - len l <= i < len l -> exists x, py_getitem l i = Returns x.
Proof.
  intros H. unfold py_getitem.
  set (k := if i <? 0 then i + len l else i).
  assert (Hk : 0 <= k < len l).
  { unfold k. destruct (Z.ltb_spec i 0); lia. }
  destruct (Z.leb_spec 0 k); [| lia].
  destruct (Z.ltb_spec k (len l)); [| lia]. cbn [andb].
  destruct (nth_error l (Z.to_nat k)) as [x |] eqn:E; [eauto |].
  apply nth_error_None in E. unfold len in Hk. lia.
Qed.

Lemma py_getitem_below {A} (l : list A) (i : Z) :
  i < - len l -> py_getitem l i = Raises IndexError.
Proof.
  intros H. unfold py_getitem. pose proof (len_nonneg l).
  destruct (Z.ltb_spec i 0); [| lia].
  destruct (Z.leb_spec 0 (i + len l)); [lia | reflexivity].
Qed.

Lemma find_open_valid (fuel : nat) (lines : list str) (i : Z) :
  - len lines <= i ->
  exists o, find_open fuel lines i = Returns o /\ i <= o.
Proof.
  revert i. induction fuel as [| fuel IH]; intros i Hi; cbn [find_open].
  - exists i. split; [reflexivity | lia].
  - destruct (Z.ltb_spec i (len lines)) as [Hlt | Hge].
    + destruct (py_getitem_valid lines i) as [line ->]; [lia |]. cbn [bind].
      destruct (contains lbrace line); cbn [negb].
      * exists i. split; [reflexivity | lia].
      * destruct (IH (i + 1)) as (o & -> & Ho); [lia |].
        exists o. split; [reflexivity | lia].
    + exists i. split; [reflexivity | lia].
Qed.

Lemma py_range_bounds (a b j : Z) : In j (py_range a b) -> a <= j < b.
Proof.
  unfold py_range. rewrite in_map_iff. intros (k & <- & Hk).
  apply in_seq in Hk. lia.
Qed.

Lemma scan_depth_valid (lines : list str) (js : list Z) (d : Z) :
  (forall j, In j js -> - len lines <= j < len lines) ->
  exists r, scan_depth lines js d = Returns r.
Proof.
  revert d. induction js as [| j js IH]; intros d Hjs; cbn [scan_depth].
  - eauto.
  - destruct (py_getitem_valid lines j) as [line ->]; [apply Hjs; now left |].
    cbn [bind]. destruct (_ =? 0); [eauto |].
    apply IH. intros j' Hj'. apply Hjs. now right.
Qed.

(** X1: [_brace_matched_end] raises [IndexError] exactly when the start line
    is at or below minus the number of lines; any other start line, also 0
    or a negative one that counts from the end of the file, gives a
    result. *)
Theorem brace_matched_end_raises (lines : list str) (start_line : Z) :
  (_brace_matched_end lines start_line = Raises IndexError
   <-> start_line <= - len lines) /\
  (- len lines < start_line ->
   exists r, _brace_matched_end lines start_line = Returns r).
Proof.
  pose proof (len_nonneg lines) as Hlen.
  assert (Hok : - len lines < start_line ->
                exists r, _brace_matched_end lines start_line = Returns r).
  { intros H. unfold _brace_matched_end.
    destruct (find_open_valid (Z.to_nat (len lines - (start_line - 1))) lines
                (start_line - 1)) as (o & -> & Ho); [lia |].
    cbn [bind]. destruct (o >=? len lines); [eauto |].
    apply scan_depth_valid. intros j Hj. apply py_range_bounds in Hj. lia. }
  split; [| exact Hok]. split.
  - intros H. destruct (Z.le_gt_cases start_line (- len lines)) as [Hle | Hgt];
      [exact Hle |].
    destruct (Hok ltac:(lia)) as [r Hr]. congruence.
  - intros H. unfold _brace_matched_end.
    replace (Z.to_nat (len lines - (start_line - 1)))
      with (S (Z.to_nat (len lines - start_line))) by lia.
    cbn [find_open].
    destruct (Z.ltb_spec (start_line - 1) (len lines)); [| lia].
    rewrite py_getitem_below by lia. reflexivity.
Qed.

(** ** [splitlines] and [join] *)

Lemma splitlines_from_line (l cur rest : str) :
  break_free l = true ->
  splitlines_from cur (l ++ rest) = splitlines_from (cur ++ l) rest.
Proof.
  revert cur. induction l as [| c l IH]; intros cur H.
  - now rewrite app_nil_r.
  - cbn [break_free forallb] in H. apply andb_true_iff in H.
    destruct H as [Hc Hl]. apply negb_true_iff in Hc.
    cbn [app splitlines_from]. rewrite Hc.
    rewrite IH by exact Hl. now rewrite <- app_assoc.
Qed.

Lemma splitlines_from_newline (cur rest : str) :
  splitlines_from cur (newline :: rest) = cur :: splitlines_from [] rest.
Proof. cbn [splitlines_from]. now destruct rest. Qed.

(** Joining lines with newlines and splitting again gives the lines back,
    when no line has a line boundary inside and the last one is not empty. *)
Lemma splitlines_join (L : list str) :
  Forall (fun l => break_free l = true) L ->
  last L (lit "x") <> [] ->
  splitlines (join [newline] L) = L.
Proof.
  unfold splitlines. induction L as [| l L IH]; intros Hbf Hlast; [reflexivity |].
  inversion Hbf as [| ? ? Hl HL]; subst.
  destruct L as [| l' L'].
  - cbn [join last] in *. rewrite <- (app_nil_r l) at 1.
    rewrite splitlines_from_line by exact Hl. cbn [app splitlines_from].
    destruct l; [congruence | reflexivity].
  - rewrite join_cons by discriminate.
    rewrite splitlines_from_line by exact Hl. cbn [app].
    rewrite splitlines_from_newline. f_equal.
    apply IH; [exact HL | exact Hlast].
Qed.

Lemma splitlines_from_break_free (s cur : str) :
  break_free cur = true ->
  Forall (fun l => break_free l = true) (splitlines_from cur s).
Proof.
  revert cur. induction s as [s IH] using str_length_ind. intros cur Hcur.
  destruct s as [| c s']; cbn [splitlines_from].
  - destruct cur; constructor; [exact Hcur | constructor].
  - destruct (is_linebreak c) eqn:Ec.
    + constructor; [exact Hcur |].
      destruct s' as [| c' s''].
      * apply IH; [simpl; lia | reflexivity].
      * destruct (N.eqb c cr && N.eqb c' newline);
          (apply IH; [simpl; lia | reflexivity]).
    + apply IH; [simpl; lia |].
      unfold break_free. rewrite forallb_app. fold (break_free cur).
      rewrite Hcur. cbn. now rewrite Ec.
Qed.

Lemma splitlines_break_free (s : str) :
  Forall (fun l => break_free l = true) (splitlines s).
Proof. now apply splitlines_from_break_free. Qed.

(** ** The line on which a method ends *)

Lemma first_zero_last_line (L : list str) (d : Z) (m : nat) :
  first_zero L d = Some m ->
  d <> 0 \/ contains lbrace (nth 0 L []) = true ->
  nth (m - 1) L [] <> [].
Proof.
  revert d m. induction L as [| l L IH]; intros d m H Hd; [discriminate |].
  cbn [first_zero] in H.
  destruct (Z.eqb_spec (d + count lbrace l - count rbrace l) 0) as [E | E].
  - injection H as <-. cbn [Nat.sub nth]. intros ->.
    destruct Hd as [Hd | Hd]; [| discriminate]. cbn in E. lia.
  - destruct (first_zero L _) as [m0 |] eqn:F; [| discriminate].
    injection H as <-.
    pose proof (first_zero_some L _ m0 F) as [Hm0 _].
    replace (S m0 - 1)%nat with (S (m0 - 1)) by lia. cbn [nth].
    apply (IH _ _ F). now left.
Qed.

Lemma brace_matched_end_line (lines : list str) (s e : Z) :
  1 <= s -> _brace_matched_end lines s = Returns (Some e) ->
  line_at lines e <> [].
Proof.
  intros Hs H. rewrite brace_matched_end_eq in H by assumption. cbv zeta in H.
  set (L := skipn (Z.to_nat (s - 1)) lines) in *.
  set (k := open_offset L) in *.
  destruct (Nat.ltb_spec k (length L)) as [Hk | Hk]; [| discriminate].
  destruct (first_zero (skipn k L) 0) as [m |] eqn:F; [| discriminate].
  injection H as <-.
  pose proof (first_zero_some _ _ _ F) as [Hm _].
  assert (Hopen : contains lbrace (nth 0 (skipn k L) []) = true).
  { rewrite nth_skipn, Nat.add_0_r. now apply open_offset_at. }
  pose proof (first_zero_last_line _ _ _ F (or_intror Hopen)) as Hne.
  rewrite nth_skipn in Hne. unfold L in Hne. rewrite nth_skipn in Hne.
  unfold line_at.
  replace (Z.to_nat (s - 1 + Z.of_nat k + Z.of_nat m - 1))
    with (Z.to_nat (s - 1) + (k + (m - 1)))%nat by lia.
  exact Hne.
Qed.

Lemma lines_between_break_free (lines : list str) (a b : Z) :
  Forall (fun l => break_free l = true) lines ->
  Forall (fun l => break_free l = true) (lines_between lines a b).
Proof.
  intros H. unfold lines_between. apply Forall_map, Forall_forall.
  intros j _. unfold line_at.
  destruct (nth_in_or_default (Z.to_nat (j - 1)) lines []) as [Hin | ->];
    [| reflexivity].
  exact (proj1 (Forall_forall _ _) H _ Hin).
Qed.

Lemma lines_between_last (lines : list str) (a b : Z) (d : str) :
  a <= b -> last (lines_between lines a b) d = line_at lines b.
Proof.
  intros H. unfold lines_between, py_range.
  replace (Z.to_nat (b + 1 - a)) with (S (Z.to_nat (b - a))) by lia.
  rewrite seq_S, map_app, map_app. cbn [map]. rewrite last_last.
  f_equal. lia.
Qed.

Lemma lines_between_length (lines : list str) (a b : Z) :
  a <= b -> len (lines_between lines a b) = b - a + 1.
Proof.
  intros H. unfold lines_between, py_range, len.
  rewrite !length_map, length_seq. lia.
Qed.

Lemma record_ok_splits_back (uni_decimal : char -> bool) (lines : list str)
    (r : MethodRecord) :
  Forall (fun l => break_free l = true) lines ->
  record_ok uni_decimal lines r ->
  splitlines (original_code r)
  = lines_between lines (start_line r) (end_line r) /\
  len (splitlines (original_code r)) = end_line r - start_line r + 1 /\
  line_at lines (end_line r) <> [].
Proof.
  intros Hbf (H1 & H2 & Hend & Hcode & _).
  pose proof (brace_matched_end_line _ _ _ H1 Hend) as Hlast.
  assert (Hsplit : splitlines (original_code r)
                   = lines_between lines (start_line r) (end_line r)).
  { rewrite Hcode. apply splitlines_join.
    - now apply lines_between_break_free.
    - rewrite lines_between_last by lia. exact Hlast. }
  split; [exact Hsplit |]. split; [| exact Hlast].
  rewrite Hsplit. apply lines_between_length. lia.
Qed.

(** X2: splitting the [original_code] of an extracted record into lines
    gives back exactly lines [start_line] to [end_line] of the file, so the
    code has [end_line - start_line + 1] lines and its last line is not
    empty. *)
Theorem extracted_code_splits_back (uni_decimal : char -> bool) (code : str)
    (tree : option (list MethodDeclaration)) (res : list MethodRecord)
    (r : MethodRecord) :
  tree_positions_from_one tree ->
  extract_methods_from_file uni_decimal code tree = Returns res ->
  In r res ->
  splitlines (original_code r)
  = lines_between (splitlines code) (start_line r) (end_line r) /\
  len (splitlines (original_code r)) = end_line r - start_line r + 1 /\
  line_at (splitlines code) (end_line r) <> [].
Proof.
  intros Hpos Hres Hin.
  destruct (extract_methods_ok uni_decimal code tree Hpos) as (res' & Hres' & Hall).
  assert (res' = res) by congruence. subst res'.
  apply (record_ok_splits_back uni_decimal).
  - apply splitlines_break_free.
  - exact (proj1 (Forall_forall _ _) Hall r Hin).
Qed.

Lemma extract_loop_located (uni_decimal : char -> bool) (lines : list str)
    (nodes : list MethodDeclaration) (results : list MethodRecord) :
  positions_from_one nodes ->
  extract_loop uni_decimal lines nodes results
  = Returns (results ++ flat_map (located uni_decimal lines) nodes).
Proof.
  revert results. induction nodes as [| node nodes IH]; intros results Hpos.
  - cbn. now rewrite app_nil_r.
  - assert (Hpos' : positions_from_one nodes).
    { intros n p Hin Hp. apply (Hpos n p); [now right | exact Hp]. }
    cbn [extract_loop flat_map]. unfold located at 1.
    destruct (position node) as [s |] eqn:Ep; [| now apply IH].
    assert (Hs : 1 <= s) by (apply (Hpos node s); [now left | exact Ep]).
    rewrite (truthy_int_pos s Hs).
    destruct (brace_matched_end_returns lines s Hs) as [r Hr].
    rewrite Hr. cbn [bind]. destruct r as [e |]; [| now apply IH].
    pose proof (brace_matched_end_range lines s e Hs Hr) as He.
    rewrite (truthy_int_pos e) by lia.
    rewrite IH by exact Hpos'. now rewrite <- app_assoc.
Qed.

(** X3: the extraction returns, in the order of the declarations, one
    record for every declaration that has a position and whose end line is
    found, and nothing else; so there are at most as many records as
    declarations, and none when the file could not be parsed. *)
Theorem extract_methods_in_order (uni_decimal : char -> bool) (code : str)
    (tree : option (list MethodDeclaration)) :
  tree_positions_from_one tree ->
  extract_methods_from_file uni_decimal code tree
  = Returns (match tree with
             | None => []
             | Some nodes =>
                 flat_map (located uni_decimal (splitlines code)) nodes
             end) /\
  forall res, extract_methods_from_file uni_decimal code tree = Returns res ->
    (length res <= match tree with None => 0 | Some nodes => length nodes end)%nat.
Proof.
  intros Hpos.
  assert (Heq : extract_methods_from_file uni_decimal code tree
                = Returns (match tree with
                           | None => []
                           | Some nodes =>
                               flat_map (located uni_decimal (splitlines code)) nodes
                           end)).
  { destruct tree as [nodes |]; [| reflexivity].
    cbn [extract_methods_from_file].
    now rewrite extract_loop_located. }
  split; [exact Heq |]. intros res Hres. rewrite Heq in Hres.
  injection Hres as <-. destruct tree as [nodes |]; [| reflexivity].
  clear. induction nodes as [| node nodes IH]; [reflexivity |].
  cbn [flat_map]. rewrite length_app. unfold located at 1.
  destruct (position node); [| simpl; lia].
  destruct (_brace_matched_end _ _) as [[e |] | ]; simpl; lia.
Qed.

(** ** The token pattern as a direct scanner *)

Lemma star_greedy_cls (p : char -> bool) (n : nat) (s : str) :
  (length s <= n)%nat ->
  star_loop true (rmatch (Cls p)) Some n s = Some (after_span p s).
Proof.
  revert s. induction n as [| n IH]; intros s Hn.
  - destruct s; [reflexivity | simpl in Hn; lia].
  - cbn [star_loop]. destruct s as [| c s']; [reflexivity |].
    cbn [rmatch after_span]. destruct (p c); [| reflexivity].
    destruct (Nat.ltb_spec (length s') (length (c :: s'))) as [_ | H];
      [| simpl in H; lia].
    rewrite IH by (simpl in Hn; lia). reflexivity.
Qed.

Lemma first_suffix_char (q : char) (s : str) :
  first_suffix (fun s2 => rmatch (Chr q) s2 Some) s = after_char q s.
Proof.
  induction s as [| c s IH]; [reflexivity |].
  cbn [first_suffix rmatch Chr after_char].
  destruct (N.eqb q c); [reflexivity | exact IH].
Qed.

Lemma rmatch_lit_prefix (w s : str) : rmatch (Lit w) s Some = strip_prefix w s.
Proof.
  revert s. induction w as [| a w IH]; intros s; [reflexivity |].
  rewrite rmatch_Lit_cons. cbn [strip_prefix].
  destruct s as [| c s']; [reflexivity |].
  destruct (N.eqb a c); [apply IH | reflexivity].
Qed.

Lemma rmatch_operators (ops : list str) (fb : re) (s : str) :
  rmatch (fold_right (fun op r => Alt (Lit op) r) fb ops) s Some
  = match first_operator ops s with
    | Some rest => Some rest
    | None => rmatch fb s Some
    end.
Proof.
  induction ops as [| op ops IH]; [reflexivity |].
  cbn [fold_right rmatch first_operator]. rewrite rmatch_lit_prefix.
  destruct (strip_prefix op s); [reflexivity | exact IH].
Qed.

Lemma rmatch_quoted (q : char) (s : str) :
  rmatch (Seq (Chr q) (Seq (Star false Any) (Chr q))) s Some
  = match s with
    | c :: s' => if N.eqb q c then after_char q s' else None
    | [] => None
    end.
Proof.
  destruct s as [| c s']; [reflexivity |].
  cbn [rmatch Chr]. destruct (N.eqb q c); [| reflexivity].
  change (Cls (N.eqb q)) with (Chr q).
  rewrite star_lazy_any by lia. apply first_suffix_char.
Qed.

Lemma rmatch_alt {A} (r1 r2 : re) (s : str) (k : str -> option A) :
  rmatch (Alt r1 r2) s k
  = match rmatch r1 s k with
    | Some x => Some x
    | None => rmatch r2 s k
    end.
Proof. reflexivity. Qed.

Lemma rmatch_run (p1 p2 : char -> bool) (s : str) :
  rmatch (Seq (Cls p1) (Star true (Cls p2))) s Some
  = match s with
    | c :: s' => if p1 c then Some (after_span p2 s') else None
    | [] => None
    end.
Proof.
  destruct s as [| c s']; [reflexivity |].
  change (rmatch (Seq (Cls p1) (Star true (Cls p2))) (c :: s') Some)
    with (if p1 c
          then star_loop true (rmatch (Cls p2)) Some (length s') s'
          else None).
  destruct (p1 c); [| reflexivity]. now rewrite star_greedy_cls by lia.
Qed.

Lemma match_here_token (uni_decimal : char -> bool) (s : str) :
  match_here (token_re uni_decimal) s = scan_token uni_decimal s.
Proof.
  unfold match_here, token_re. rewrite !rmatch_alt.
  unfold ident_re, number_re, Plus, dq_string_re, sq_string_re.
  rewrite !rmatch_run, !rmatch_quoted, rmatch_operators.
  destruct s as [| c s']; [reflexivity |]. cbn [scan_token].
  destruct (is_ident_start c); [reflexivity |].
  destruct (is_digit uni_decimal c); [reflexivity |].
  destruct (if N.eqb dquote c then after_char dquote s' else None);
    [reflexivity |].
  destruct (if N.eqb squote c then after_char squote s' else None);
    [reflexivity |].
  reflexivity.
Qed.

Lemma span_after_span (p : char -> bool) (s : str) :
  s = span p s ++ after_span p s.
Proof.
  induction s as [| c s IH]; [reflexivity |]. cbn [span after_span].
  destruct (p c); [| reflexivity]. cbn [app]. now f_equal.
Qed.

Lemma span_all (p : char -> bool) (s : str) : forallb p (span p s) = true.
Proof.
  induction s as [| c s IH]; [reflexivity |]. cbn [span].
  destruct (p c) eqn:E; [| reflexivity]. cbn [forallb]. now rewrite E.
Qed.

Lemma after_span_head (p : char -> bool) (s : str) :
  match after_span p s with
  | [] => True
  | c :: _ => p c = false
  end.
Proof.
  induction s as [| c s IH]; [exact I |]. cbn [after_span].
  destruct (p c) eqn:E; [exact IH | exact E].
Qed.

Lemma before_after_char (q : char) (s rest : str) :
  after_char q s = Some rest -> s = before_char q s ++ q :: rest.
Proof.
  revert rest. induction s as [| c s IH]; intros rest H; [discriminate |].
  cbn [after_char before_char] in *. destruct (N.eqb_spec q c) as [-> | _].
  - injection H as <-. reflexivity.
  - cbn [app]. f_equal. now apply IH.
Qed.

Lemma before_char_free (q : char) (s : str) :
  contains q (before_char q s) = false.
Proof.
  induction s as [| c s IH]; [reflexivity |]. cbn [before_char].
  destruct (N.eqb q c) eqn:E; [reflexivity |].
  cbn [contains existsb]. rewrite E. exact IH.
Qed.

Lemma after_char_none (q : char) (s : str) :
  after_char q s = None <-> contains q s = false.
Proof.
  induction s as [| c s IH]; [tauto |]. cbn [after_char contains existsb].
  destruct (N.eqb q c); [split; discriminate | exact IH].
Qed.

(** One step of the scan, with the scanner in place of the pattern. *)
Lemma tokenize_code_scan (uni_decimal : char -> bool) (s : str) :
  tokenize_code uni_decimal s
  = match scan_token uni_decimal s with
    | Some rest =>
        firstn (length s - length rest) s :: tokenize_code uni_decimal rest
    | None =>
        match s with
        | [] => []
        | _ :: s' => tokenize_code uni_decimal s'
        end
    end.
Proof.
  unfold tokenize_code. rewrite findall_eq. rewrite match_here_token.
  destruct (scan_token uni_decimal s) as [rest |] eqn:E; [| reflexivity].
  f_equal. rewrite <- match_here_token in E.
  apply match_here_sound in E. destruct E as (tok & -> & Hm).
  pose proof (token_re_nonempty uni_decimal tok rest Hm) as Hne.
  destruct (Nat.ltb_spec (length rest) (length (tok ++ rest))) as [_ | H];
    [reflexivity |].
  rewrite length_app in H. destruct tok; [congruence | simpl in H; lia].
Qed.

Lemma firstn_length_diff {A} (tok rest : list A) :
  firstn (length (tok ++ rest) - length rest) (tok ++ rest) = tok.
Proof.
  rewrite length_app.
  replace (length tok + length rest - length rest)%nat
    with (length tok + 0)%nat by lia.
  rewrite firstn_app_2. cbn. apply app_nil_r.
Qed.

Lemma firstn_span (p : char -> bool) (c : char) (s : str) :
  firstn (length (c :: s) - length (after_span p s)) (c :: s) = c :: span p s.
Proof.
  pose proof (span_after_span p s) as H.
  set (a := span p s) in *. set (b := after_span p s) in *.
  clearbody a b. subst s. apply (firstn_length_diff (c :: a) b).
Qed.

Lemma digit_not_ident_start (uni_decimal : char -> bool) (c : char) :
  is_digit uni_decimal c = true -> is_ident_start c = false.
Proof.
  unfold is_digit, is_ident_start.
  rewrite orb_true_iff, andb_true_iff, in_range_true, N.leb_le.
  unfold chr. cbn. intros H.
  repeat (apply orb_false_iff; split);
    try (apply in_range_false; lia); apply N.eqb_neq; lia.
Qed.

(** X4: an identifier or a number is taken whole.  A letter or underscore
    starts a token that runs over all following letters, digits and
    underscores, and a digit starts a token that runs over all following
    digits; the scan goes on with what is left, which does not start with
    such a character. *)
Theorem tokenize_code_longest_match (uni_decimal : char -> bool)
    (c : char) (s : str) :
  (is_ident_start c = true ->
   tokenize_code uni_decimal (c :: s)
   = (c :: span is_ident_char s)
       :: tokenize_code uni_decimal (after_span is_ident_char s)) /\
  (is_digit uni_decimal c = true ->
   tokenize_code uni_decimal (c :: s)
   = (c :: span (is_digit uni_decimal) s)
       :: tokenize_code uni_decimal (after_span (is_digit uni_decimal) s)) /\
  (forall p, s = span p s ++ after_span p s /\
             forallb p (span p s) = true /\
             match after_span p s with
             | [] => True
             | c' :: _ => p c' = false
             end).
Proof.
  split; [| split].
  - intros Hc. rewrite tokenize_code_scan. cbn [scan_token]. rewrite Hc.
    f_equal. apply firstn_span.
  - intros Hc. rewrite tokenize_code_scan. cbn [scan_token].
    rewrite (digit_not_ident_start uni_decimal c Hc), Hc. f_equal.
    apply firstn_span.
  - intros p. split; [apply span_after_span |].
    split; [apply span_all | apply after_span_head].
Qed.

Lemma firstn_tok {A} (tok rest s : list A) :
  s = tok ++ rest -> firstn (length s - length rest) s = tok.
Proof. intros ->. apply firstn_length_diff. Qed.

(** X5: a quote starts a string token that ends at the next quote of the
    same kind, whatever is between them (a backslash does not protect a
    quote, and the string may run over several lines); a quote that is not
    closed is a token of one character. *)
Theorem tokenize_code_quote (uni_decimal : char -> bool) (q : char) (s : str) :
  q = dquote \/ q = squote ->
  tokenize_code uni_decimal (q :: s)
  = match after_char q s with
    | Some rest =>
        (q :: before_char q s ++ [q]) :: tokenize_code uni_decimal rest
    | None => [q] :: tokenize_code uni_decimal s
    end /\
  contains q (before_char q s) = false /\
  (contains q s = false <-> after_char q s = None).
Proof.
  intros Hq. split; [| split; [apply before_char_free |
                               symmetry; apply after_char_none]].
  rewrite tokenize_code_scan.
  assert (Hscan : scan_token uni_decimal (q :: s)
                  = match after_char q s with
                    | Some rest => Some rest
                    | None => Some s
                    end).
  { destruct Hq as [-> | ->]; unfold scan_token.
    - change (is_ident_start dquote) with false.
      change (is_digit uni_decimal dquote) with false.
      change (N.eqb dquote dquote) with true. cbv iota.
      destruct (after_char dquote s); reflexivity.
    - change (is_ident_start squote) with false.
      change (is_digit uni_decimal squote) with false.
      change (N.eqb dquote squote) with false.
      change (N.eqb squote squote) with true. cbv iota.
      destruct (after_char squote s); reflexivity. }
  rewrite Hscan. destruct (after_char q s) as [rest |] eqn:E.
  - f_equal. apply firstn_tok. rewrite (before_after_char q s rest E) at 1.
    cbn [app]. now rewrite <- app_assoc.
  - f_equal. now apply (firstn_tok [q] s).
Qed.

(** X6: each of the six two-character operators is one token. *)
Theorem tokenize_code_operator (uni_decimal : char -> bool) (op s : str) :
  In op operators ->
  tokenize_code uni_decimal (op ++ s) = op :: tokenize_code uni_decimal s.
Proof.
  intros Hop. rewrite tokenize_code_scan.
  assert (Hscan : scan_token uni_decimal (op ++ s) = Some s).
  { cbn in Hop.
    destruct Hop as [<- | [<- | [<- | [<- | [<- | [<- | []]]]]]]; reflexivity. }
  rewrite Hscan. f_equal. now apply firstn_tok.
Qed.

(** ** Tokens joined with spaces *)

Lemma after_span_app (p : char -> bool) (a b : str) :
  forallb p a = true ->
  match b with [] => True | c :: _ => p c = false end ->
  after_span p (a ++ b) = b.
Proof.
  intros Ha Hb. induction a as [| x a IH]; cbn [app].
  - destruct b as [| c b]; [reflexivity |]. cbn [after_span]. now rewrite Hb.
  - cbn [forallb] in Ha. apply andb_true_iff in Ha. destruct Ha as [Hx Ha].
    cbn [after_span]. rewrite Hx. now apply IH.
Qed.

Lemma after_char_app (q : char) (a rest : str) :
  contains q a = false -> after_char q (a ++ q :: rest) = Some rest.
Proof.
  intros Ha. induction a as [| x a IH]; cbn [app after_char].
  - now rewrite N.eqb_refl.
  - cbn [contains existsb] in Ha. apply orb_false_iff in Ha.
    destruct Ha as [Hx Ha]. rewrite Hx. now apply IH.
Qed.

Lemma strip_prefix_sound (w s rest : str) :
  strip_prefix w s = Some rest -> s = w ++ rest.
Proof.
  revert s. induction w as [| a w IH]; intros s H; cbn [strip_prefix] in H.
  - now injection H as ->.
  - destruct s as [| c s']; [discriminate |].
    destruct (N.eqb_spec a c) as [-> | _]; [| discriminate].
    cbn [app]. f_equal. now apply IH.
Qed.

Lemma first_operator_sound (ops : list str) (s rest : str) :
  first_operator ops s = Some rest -> exists op, In op ops /\ s = op ++ rest.
Proof.
  induction ops as [| op ops IH]; intros H; [discriminate |].
  cbn [first_operator] in H. destruct (strip_prefix op s) as [r |] eqn:E.
  - injection H as ->. exists op. split; [now left |].
    now apply strip_prefix_sound.
  - destruct (IH H) as (op' & Hin & Hs). exists op'. split; [now right | exact Hs].
Qed.

Lemma first_operator_at_space (c : char) (Y : str) :
  at_space Y -> first_operator operators (c :: Y) = None.
Proof.
  intros [-> | [Y' ->]]; unfold operators;
    change (lit "==") with [chr "="; chr "="];
    change (lit "!=") with [chr "!"; chr "="];
    change (lit "<=") with [chr "<"; chr "="];
    change (lit ">=") with [chr ">"; chr "="];
    change (lit "&&") with [chr "&"; chr "&"];
    change (lit "||") with [chr "|"; chr "|"];
    cbn [first_operator strip_prefix];
    repeat match goal with
           | |- context [N.eqb ?a c] => destruct (N.eqb a c)
           end;
    reflexivity.
Qed.

Lemma at_space_head (p : char -> bool) (Y : str) :
  at_space Y -> p space = false ->
  match Y with [] => True | c :: _ => p c = false end.
Proof. intros [-> | [Y' ->]] H; [exact I | exact H]. Qed.

(** A token that is followed by a space, or by nothing, is scanned as the
    same token, when no quote that was left open gets closed. *)
Lemma scan_token_rescan (uni_decimal : char -> bool) (s rest Y : str) :
  scan_token uni_decimal s = Some rest ->
  at_space Y ->
  (forall q, q = dquote \/ q = squote ->
     contains q rest = false -> contains q Y = false) ->
  scan_token uni_decimal (firstn (length s - length rest) s ++ Y) = Some Y.
Proof.
  intros H HY Hq. destruct s as [| c s']; [discriminate |].
  unfold scan_token in H.
  destruct (is_ident_start c) eqn:E1.
  { injection H as <-. rewrite firstn_span. cbn [app scan_token]. rewrite E1.
    f_equal. apply after_span_app; [apply span_all |].
    now apply at_space_head. }
  destruct (is_digit uni_decimal c) eqn:E2.
  { injection H as <-. rewrite firstn_span. cbn [app scan_token]. rewrite E1, E2.
    f_equal. apply after_span_app; [apply span_all |].
    now apply at_space_head. }
  destruct (N.eqb_spec dquote c) as [<- | Ed].
  { change (N.eqb squote dquote) with false in H. cbv iota in H.
    destruct (after_char dquote s') as [r |] eqn:Ea.
    - injection H as <-.
      rewrite (firstn_tok (dquote :: before_char dquote s' ++ [dquote]) r)
        by (rewrite (before_after_char dquote s' r Ea) at 1;
            cbn [app]; now rewrite <- app_assoc).
      cbn [app]. rewrite <- app_assoc. cbn [app]. unfold scan_token.
      change (is_ident_start dquote) with false.
      change (is_digit uni_decimal dquote) with false.
      change (N.eqb dquote dquote) with true. cbv iota.
      now rewrite after_char_app by apply before_char_free.
    - change (first_operator operators (dquote :: s')) with (@None str) in H.
      change (non_space dquote) with true in H. cbv iota in H.
      injection H as <-. rewrite (firstn_tok [dquote] s') by reflexivity.
      cbn [app]. unfold scan_token.
      change (is_ident_start dquote) with false.
      change (is_digit uni_decimal dquote) with false.
      change (N.eqb dquote dquote) with true.
      change (N.eqb squote dquote) with false. cbv iota.
      rewrite (proj2 (after_char_none dquote Y))
        by (apply Hq; [now left | now apply after_char_none]).
      reflexivity. }
  destruct (N.eqb_spec squote c) as [<- | Es].
  { destruct (after_char squote s') as [r |] eqn:Ea.
    - injection H as <-.
      rewrite (firstn_tok (squote :: before_char squote s' ++ [squote]) r)
        by (rewrite (before_after_char squote s' r Ea) at 1;
            cbn [app]; now rewrite <- app_assoc).
      cbn [app]. rewrite <- app_assoc. cbn [app]. unfold scan_token.
      change (is_ident_start squote) with false.
      change (is_digit uni_decimal squote) with false.
      change (N.eqb dquote squote) with false.
      change (N.eqb squote squote) with true. cbv iota.
      now rewrite after_char_app by apply before_char_free.
    - change (first_operator operators (squote :: s')) with (@None str) in H.
      change (non_space squote) with true in H. cbv iota in H.
      injection H as <-. rewrite (firstn_tok [squote] s') by reflexivity.
      cbn [app]. unfold scan_token.
      change (is_ident_start squote) with false.
      change (is_digit uni_decimal squote) with false.
      change (N.eqb dquote squote) with false.
      change (N.eqb squote squote) with true. cbv iota.
      rewrite (proj2 (after_char_none squote Y))
        by (apply Hq; [now right | now apply after_char_none]).
      reflexivity. }
  destruct (first_operator operators (c :: s')) as [r |] eqn:Eo.
  { injection H as <-. apply first_operator_sound in Eo.
    destruct Eo as (op & Hop & Hs). rewrite Hs.
    rewrite (firstn_tok op r) by reflexivity.
    cbn in Hop.
    destruct Hop as [<- | [<- | [<- | [<- | [<- | [<- | []]]]]]]; reflexivity. }
  destruct (non_space c) eqn:E3; [| discriminate].
  injection H as <-. rewrite (firstn_tok [c] s') by reflexivity.
  cbn [app]. unfold scan_token. rewrite E1, E2.
  destruct (N.eqb_spec dquote c) as [Heq | _]; [exfalso; exact (Ed Heq) |].
  destruct (N.eqb_spec squote c) as [Heq | _]; [exfalso; exact (Es Heq) |].
  rewrite (first_operator_at_space c Y HY), E3. reflexivity.
Qed.

Lemma In_join (c : char) (sep : str) (L : list str) :
  In c (join sep L) -> In c sep \/ exists l, In l L /\ In c l.
Proof.
  induction L as [| l L IH]; [intros [] |].
  destruct L as [| l' L'].
  - intros H. right. exists l. split; [now left | exact H].
  - rewrite join_cons by discriminate. rewrite !in_app_iff.
    intros [H | [H | H]].
    + right. exists l. split; [now left | exact H].
    + now left.
    + destruct (IH H) as [Hs | (l0 & Hl0 & Hc)]; [now left |].
      right. exists l0. split; [now right | exact Hc].
Qed.

Lemma contains_false_iff (q : char) (s : str) :
  contains q s = false <-> ~ In q s.
Proof.
  unfold contains. split.
  - intros H Hin. assert (existsb (N.eqb q) s = true).
    { apply existsb_exists. exists q. split; [exact Hin | apply N.eqb_refl]. }
    congruence.
  - intros H. destruct (existsb (N.eqb q) s) eqn:E; [| reflexivity].
    apply existsb_exists in E. destruct E as (x & Hx & Hq).
    apply N.eqb_eq in Hq. subst x. contradiction.
Qed.

Lemma tokenize_code_space (uni_decimal : char -> bool) (s : str) :
  tokenize_code uni_decimal (space :: s) = tokenize_code uni_decimal s.
Proof. rewrite tokenize_code_scan. reflexivity. Qed.

(** X7: tokens survive a round trip through text: joining the tokens of a
    text with single spaces and tokenizing the result gives the same
    tokens. *)
Theorem tokenize_code_join_round_trip (uni_decimal : char -> bool) (text : str) :
  tokenize_code uni_decimal
    (join [space] (tokenize_code uni_decimal text))
  = tokenize_code uni_decimal text.
Proof.
  induction text as [s IH] using str_length_ind.
  pose proof (tokenize_code_covers uni_decimal) as Hcov.
  rewrite (tokenize_code_scan uni_decimal s).
  destruct (scan_token uni_decimal s) as [rest |] eqn:E.
  - assert (Hlen : (length rest < length s)%nat).
    { pose proof E as E'. rewrite <- match_here_token in E'.
      apply match_here_sound in E'. destruct E' as (tok & -> & Hm).
      pose proof (token_re_nonempty uni_decimal tok rest Hm) as Hne.
      rewrite length_app. destruct tok; [congruence | simpl; lia]. }
    set (tok := firstn (length s - length rest) s).
    set (T := tokenize_code uni_decimal rest).
    set (Y := match T with [] => [] | _ => space :: join [space] T end).
    assert (HJ : join [space] (tok :: T) = tok ++ Y).
    { unfold Y. destruct T as [| t T']; [cbn; now rewrite app_nil_r |].
      now rewrite join_cons by discriminate. }
    assert (HY : at_space Y).
    { unfold Y. destruct T; [now left | right; eauto]. }
    assert (HqY : forall q, q = dquote \/ q = squote ->
                    contains q rest = false -> contains q Y = false).
    { intros q Hq Hrest. apply contains_false_iff. intros Hin.
      apply contains_false_iff in Hrest. apply Hrest.
      unfold Y in Hin. destruct T as [| t T'] eqn:ET; [destruct Hin |].
      destruct Hin as [Hsp | Hin].
      { destruct Hq as [-> | ->]; discriminate Hsp. }
      apply In_join in Hin. destruct Hin as [[Hsp | []] | (l & Hl & Hc)].
      { destruct Hq as [-> | ->]; discriminate Hsp. }
      apply (tokenization_chars rest (t :: T') l q); [| exact Hl | exact Hc].
      rewrite <- ET. apply Hcov. }
    rewrite HJ. rewrite (tokenize_code_scan uni_decimal (tok ++ Y)).
    unfold tok at 1. rewrite (scan_token_rescan uni_decimal s rest Y E HY HqY).
    f_equal; [now apply firstn_tok |].
    unfold Y. destruct T as [| t T'] eqn:ET; [reflexivity |].
    rewrite tokenize_code_space. rewrite <- ET. unfold T. now apply IH.
  - destruct s as [| c s']; [reflexivity |]. apply IH. simpl. lia.
Qed.

(** ** What comment stripping leaves *)

Lemma subseq_refl {A} (s : list A) : subseq s s.
Proof. induction s; constructor; assumption. Qed.

Lemma subseq_app_skip {A} (pre t s : list A) :
  subseq t s -> subseq t (pre ++ s).
Proof. intros H. induction pre; [exact H | now constructor]. Qed.

Lemma subseq_trans {A} (a b c : list A) :
  subseq a b -> subseq b c -> subseq a c.
Proof.
  intros Hab Hbc. revert a Hab. induction Hbc; intros a Hab.
  - exact Hab.
  - constructor. now apply IHHbc.
  - inversion Hab; subst.
    + constructor. now apply IHHbc.
    + apply subseq_keep. now apply IHHbc.
Qed.

Lemma to_eol_suffix (r : str) : exists pre, r = pre ++ to_eol r.
Proof.
  induction r as [| c r [pre IH]]; [now exists [] |]. cbn [to_eol].
  destruct (N.eqb c newline); [now exists [] |].
  exists (c :: pre). cbn [app]. now f_equal.
Qed.

Lemma after_close_suffix (r rest : str) :
  after_close r = Some rest -> exists pre, r = pre ++ rest.
Proof.
  revert rest. induction r as [| c r IH]; intros rest H; [discriminate |].
  cbn [after_close] in H. destruct r as [| c' r']; [discriminate |].
  destruct (N.eqb (chr "*") c && N.eqb (chr "/") c').
  - injection H as <-. now exists [c; c'].
  - destruct (IH _ H) as [pre Hpre]. exists (c :: pre). cbn [app].
    now f_equal.
Qed.

Lemma comment_end_suffix (s rest : str) :
  comment_end s = Some rest -> exists pre, s = pre ++ rest.
Proof.
  destruct s as [| c1 [| c2 r]]; try discriminate. cbn [comment_end].
  destruct (N.eqb (chr "/") c1); [| discriminate].
  destruct (N.eqb (chr "/") c2).
  - intros H. injection H as <-. destruct (to_eol_suffix r) as [pre Hpre].
    exists (c1 :: c2 :: pre). cbn [app]. now do 2 f_equal.
  - destruct (N.eqb (chr "*") c2); [| discriminate].
    intros H. destruct (after_close_suffix r rest H) as [pre Hpre].
    exists (c1 :: c2 :: pre). cbn [app]. now do 2 f_equal.
Qed.

Lemma strip_comments_subseq (s : str) :
  subseq (_strip_java_comments_for_check s) s.
Proof.
  induction s as [s IH] using str_length_ind.
  rewrite strip_comments_eq. destruct (comment_end s) as [rest |] eqn:E.
  - destruct (comment_end_suffix s rest E) as [pre Hpre].
    pose proof (comment_end_length s rest E) as Hlen.
    rewrite Hpre at 1. apply subseq_app_skip, IH. exact Hlen.
  - destruct s as [| c s']; [constructor |].
    apply subseq_keep, IH. simpl. lia.
Qed.

Lemma comment_free_at (a b : str) :
  comment_free (a ++ b) = true -> comment_end b = None.
Proof.
  induction a as [| x a IH]; cbn [app].
  - destruct b as [| c b]; [reflexivity |]. cbn [comment_free].
    now destruct (comment_end (c :: b)).
  - cbn [comment_free]. destruct (comment_end (x :: a ++ b)); [discriminate |].
    exact IH.
Qed.

Lemma comment_free_intro (s : str) :
  (forall a b, s = a ++ b -> comment_end b = None) -> comment_free s = true.
Proof.
  induction s as [| c s IH]; intros H; [reflexivity |].
  cbn [comment_free]. rewrite (H [] (c :: s) eq_refl).
  apply IH. intros a b ->. apply (H (c :: a) b). reflexivity.
Qed.

Lemma comment_end_line (b : str) :
  comment_end (chr "/" :: chr "/" :: b) = Some (to_eol b).
Proof. reflexivity. Qed.

Lemma comment_end_block (b : str) :
  comment_end (chr "/" :: chr "*" :: b) = after_close b.
Proof. reflexivity. Qed.

Lemma comment_end_none_inv (b : str) :
  (forall r, b <> chr "/" :: chr "/" :: r) ->
  (forall r, b = chr "/" :: chr "*" :: r -> after_close r = None) ->
  comment_end b = None.
Proof.
  intros Hline Hblock. destruct b as [| c1 [| c2 r]]; try reflexivity.
  cbn [comment_end].
  destruct (N.eqb_spec (chr "/") c1) as [<- | _]; [| reflexivity].
  destruct (N.eqb_spec (chr "/") c2) as [<- | _].
  { exfalso. now apply (Hline r). }
  destruct (N.eqb_spec (chr "*") c2) as [<- | _]; [| reflexivity].
  now apply Hblock.
Qed.

(** X8: comment stripping only deletes characters, and what it leaves has
    no [//] and no [/*] that is closed by a later [*/]. *)
Theorem strip_comments_result (s : str) :
  let t := _strip_java_comments_for_check s in
  subseq t s /\
  (forall a b, t <> a ++ lit "//" ++ b) /\
  (forall a b, t = a ++ lit "/*" ++ b -> after_close b = None).
Proof.
  cbv zeta. pose proof (strip_comments_comment_free s) as Hfree.
  split; [apply strip_comments_subseq |]. split.
  - intros a b E. rewrite E in Hfree. apply comment_free_at in Hfree.
    discriminate Hfree.
  - intros a b E. rewrite E in Hfree. apply comment_free_at in Hfree.
    exact Hfree.
Qed.

(** X9: the texts that comment stripping leaves unchanged are exactly those
    without [//] and without a [/*] that is closed by a later [*/]; an
    opening [/*] that is never closed stays in the text. *)
Theorem strip_comments_fixed_points (s : str) :
  _strip_java_comments_for_check s = s <->
  (forall a b, s <> a ++ lit "//" ++ b) /\
  (forall a b, s = a ++ lit "/*" ++ b -> after_close b = None).
Proof.
  split.
  - intros E. pose proof (strip_comments_comment_free s) as Hfree.
    rewrite E in Hfree. split.
    + intros a b Es. rewrite Es in Hfree. apply comment_free_at in Hfree.
      discriminate Hfree.
    + intros a b Es. rewrite Es in Hfree. apply comment_free_at in Hfree.
      exact Hfree.
  - intros [Hline Hblock]. apply strip_comments_fixed, comment_free_intro.
    intros a b Es. apply comment_end_none_inv.
    + intros r Eb. apply (Hline a r). now rewrite Es, Eb.
    + intros r Eb. apply (Hblock a r). now rewrite Es, Eb.
Qed.

(** ** Counting non-blank lines *)

Lemma lstrip_nil_iff (l : str) : lstrip l = [] <-> forallb is_space l = true.
Proof.
  induction l as [| c l IH]; [tauto |]. cbn [lstrip forallb].
  destruct (is_space c); cbn [andb]; [exact IH |].
  split; discriminate.
Qed.

Lemma lstrip_all_space (l : str) :
  forallb is_space (lstrip l) = true -> forallb is_space l = true.
Proof.
  induction l as [| c l IH]; [tauto |]. cbn [lstrip].
  destruct (is_space c) eqn:E; cbn [forallb]; rewrite E; [exact IH | tauto].
Qed.

Lemma forallb_rev {A} (p : A -> bool) (l : list A) :
  forallb p (rev l) = forallb p l.
Proof.
  induction l as [| x l IH]; [reflexivity |].
  cbn [rev forallb]. rewrite forallb_app, IH. cbn. now rewrite andb_true_r, andb_comm.
Qed.

(** [l.strip()] is empty exactly when [l] is whitespace only. *)
Lemma truthy_strip (l : str) :
  truthy_str (strip l) = negb (forallb is_space l).
Proof.
  unfold strip. destruct (forallb is_space l) eqn:E.
  - rewrite (proj2 (lstrip_nil_iff l) E). reflexivity.
  - destruct (rev (lstrip (rev (lstrip l)))) as [| x y] eqn:Er; [| reflexivity].
    exfalso. apply (f_equal (@rev char)) in Er. rewrite rev_involutive in Er.
    cbn in Er. apply lstrip_nil_iff in Er. rewrite forallb_rev in Er.
    apply lstrip_all_space in Er. congruence.
Qed.

Lemma linebreak_is_space (c : char) : is_linebreak c = true -> is_space c = true.
Proof.
  unfold is_linebreak, is_space.
  rewrite !orb_true_iff, !in_range_true, !N.eqb_eq. lia.
Qed.

Lemma count_nonblank_from (s cur : str) :
  len (filter (fun l => truthy_str (strip l)) (splitlines_from cur s))
  = if forallb is_space cur then nonblank_from false s
    else 1 + nonblank_from true s.
Proof.
  revert cur. induction s as [s IH] using str_length_ind. intros cur.
  destruct s as [| c s']; cbn [splitlines_from nonblank_from].
  - destruct cur as [| x cur']; [reflexivity |].
    cbn [filter]. rewrite truthy_strip.
    destruct (forallb is_space (x :: cur')); reflexivity.
  - destruct (is_linebreak c) eqn:Eb.
    + cbn [filter]. rewrite truthy_strip.
      assert (Hrest :
        len (filter (fun l => truthy_str (strip l))
               match s' with
               | [] => splitlines_from [] s'
               | c' :: s'' =>
                   if N.eqb c cr && N.eqb c' newline
                   then splitlines_from [] s''
                   else splitlines_from [] s'
               end)
        = nonblank_from false s').
      { destruct s' as [| c' s'']; [reflexivity |].
        destruct (N.eqb c cr && N.eqb c' newline) eqn:Ecr.
        - rewrite IH by (simpl; lia). cbn [forallb nonblank_from].
          apply andb_true_iff in Ecr. destruct Ecr as [_ Ec'].
          apply N.eqb_eq in Ec'. subst c'. reflexivity.
        - rewrite IH by (simpl; lia). reflexivity. }
      destruct (forallb is_space cur); cbn [negb].
      * exact Hrest.
      * change (len (?x :: ?l)) with (Z.of_nat (S (length l))).
        unfold len in Hrest. lia.
    + rewrite IH by (simpl; lia). rewrite forallb_app. cbn [forallb].
      rewrite andb_true_r.
      destruct (forallb is_space cur); cbn [andb];
        destruct (is_space c); reflexivity.
Qed.

Lemma nonblank_lines_from (code : str) :
  nonblank_lines code = nonblank_from false code.
Proof. unfold nonblank_lines, splitlines. now rewrite count_nonblank_from. Qed.

Lemma effective_line_count_from (code : str) :
  effective_line_count code
  = nonblank_from false (_strip_java_comments_for_check code).
Proof.
  unfold effective_line_count, code_lines_of, splitlines.
  now rewrite count_nonblank_from.
Qed.

Lemma nonblank_from_flag (s : str) :
  nonblank_from true s <= nonblank_from false s <= 1 + nonblank_from true s.
Proof.
  induction s as [| c s IH]; cbn [nonblank_from]; [lia |].
  destruct (is_linebreak c); [lia |]. destruct (is_space c); lia.
Qed.

Lemma nonblank_from_nonneg (b : bool) (s : str) : 0 <= nonblank_from b s.
Proof.
  revert b. induction s as [| c s IH]; intros b; cbn [nonblank_from]; [lia |].
  destruct (is_linebreak c); [apply IH |].
  destruct (is_space c); [apply IH |].
  pose proof (IH true). destruct b; lia.
Qed.

Lemma nonblank_from_subseq (t s : str) (b : bool) :
  subseq t s -> nonblank_from b t <= nonblank_from b s.
Proof.
  intros H. revert b. induction H as [| x t s H IH | x t s H IH]; intros b.
  - lia.
  - cbn [nonblank_from]. pose proof (nonblank_from_flag s) as Hs.
    pose proof (nonblank_from_flag t) as Ht.
    pose proof (IH true). pose proof (IH false).
    destruct (is_linebreak x); [destruct b; lia |].
    destruct (is_space x); [apply IH |]. destruct b; lia.
  - cbn [nonblank_from].
    pose proof (IH true). pose proof (IH false).
    destruct (is_linebreak x); [lia |].
    destruct (is_space x); [apply IH |]. lia.
Qed.

Lemma nonblank_from_spaces (s : str) (b : bool) :
  forallb is_space s = true -> nonblank_from b s = 0.
Proof.
  revert b. induction s as [| c s IH]; intros b H; [reflexivity |].
  cbn [forallb] in H. apply andb_true_iff in H. destruct H as [Hc Hs].
  cbn [nonblank_from]. rewrite Hc.
  destruct (is_linebreak c); now apply IH.
Qed.

Lemma effective_line_count_le (code : str) :
  0 <= effective_line_count code <= nonblank_lines code.
Proof.
  rewrite effective_line_count_from, nonblank_lines_from. split.
  - apply nonblank_from_nonneg.
  - apply nonblank_from_subseq, strip_comments_subseq.
Qed.

(** X10: removing comments never adds lines: the effective line count of a
    piece of code is at most the number of its non-blank lines as written,
    which is at most the number of its lines. *)
Theorem effective_line_count_bound (code : str) :
  0 <= effective_line_count code /\
  effective_line_count code <= nonblank_lines code /\
  nonblank_lines code <= len (splitlines code).
Proof.
  pose proof (effective_line_count_le code) as H.
  split; [lia |]. split; [lia |].
  unfold nonblank_lines, len.
  pose proof (filter_length_le (fun l => truthy_str (strip l)) (splitlines code)).
  lia.
Qed.

(** ** Code without code *)

Lemma to_eol_line (body s : str) :
  contains newline body = false -> at_eol s = true -> to_eol (body ++ s) = s.
Proof.
  intros Hb Hs. induction body as [| c body IH]; cbn [app].
  - destruct s as [| c s]; [reflexivity |]. cbn [to_eol at_eol] in *.
    now rewrite Hs.
  - cbn [contains existsb] in Hb. apply orb_false_iff in Hb.
    destruct Hb as [Hc Hb]. cbn [to_eol]. rewrite N.eqb_sym in Hc.
    fold newline in Hc. rewrite Hc. now apply IH.
Qed.

Lemma after_close_app (x s rest : str) :
  after_close x = Some rest -> after_close (x ++ s) = Some (rest ++ s).
Proof.
  revert rest. induction x as [| c x IH]; intros rest H; [discriminate |].
  cbn [after_close] in H. destruct x as [| c' x']; [discriminate |].
  cbn [app after_close].
  destruct (N.eqb (chr "*") c && N.eqb (chr "/") c').
  - now injection H as <-.
  - apply (IH _ H).
Qed.

Lemma slash_not_space : is_space (chr "/") = false.
Proof. reflexivity. Qed.

Lemma comment_only_stripped (s : str) :
  comment_only s -> forallb is_space (_strip_java_comments_for_check s) = true.
Proof.
  intros H. induction H as [| c s Hc H IH | body s Hb Hs H IH | body s Hb H IH].
  - reflexivity.
  - rewrite strip_comments_eq.
    assert (E : comment_end (c :: s) = None).
    { destruct s as [| c2 r]; [reflexivity |]. cbn [comment_end].
      destruct (N.eqb_spec (chr "/") c) as [<- | _]; [| reflexivity].
      rewrite slash_not_space in Hc. discriminate. }
    rewrite E. cbn [forallb]. now rewrite Hc.
  - rewrite strip_comments_eq.
    change (lit "//" ++ body ++ s) with (chr "/" :: chr "/" :: body ++ s).
    rewrite comment_end_line, to_eol_line by assumption. exact IH.
  - rewrite strip_comments_eq.
    change (lit "/*" ++ body ++ lit "*/" ++ s)
      with (chr "/" :: chr "*" :: body ++ lit "*/" ++ s).
    rewrite comment_end_block, app_assoc.
    rewrite (after_close_app _ s [] Hb). exact IH.
Qed.

(** X11: code that consists of comments and whitespace only has no
    effective line, and a record with such code is dropped whatever the
    thresholds are. *)
Theorem comment_only_dropped (methods : list MethodRecord)
    (min_lines max_lines : Z) (m : MethodRecord) :
  comment_only (original_code m) ->
  effective_line_count (original_code m) = 0 /\
  ~ In m (filter_invalid_methods methods min_lines max_lines).
Proof.
  intros H.
  assert (E : effective_line_count (original_code m) = 0).
  { rewrite effective_line_count_from.
    now apply nonblank_from_spaces, comment_only_stripped. }
  split; [exact E |].
  rewrite filter_invalid_methods_filter, filter_In. intros [_ Hp].
  unfold in_policy in Hp. rewrite E in Hp. discriminate.
Qed.

(** ** Extraction followed by the filter *)

Lemma nonblank_lines_le (code : str) : nonblank_lines code <= len (splitlines code).
Proof.
  unfold nonblank_lines, len.
  pose proof (filter_length_le (fun l => truthy_str (strip l)) (splitlines code)).
  lia.
Qed.

(** X12: a method that is extracted from a file and kept by the filter
    spans at least [min_lines] lines of the file, and at least one: its
    effective line count lies between the thresholds and is at most
    [end_line - start_line + 1]. *)
Theorem kept_method_span (uni_decimal : char -> bool) (code : str)
    (tree : option (list MethodDeclaration)) (res : list MethodRecord)
    (min_lines max_lines : Z) (r : MethodRecord) :
  tree_positions_from_one tree ->
  extract_methods_from_file uni_decimal code tree = Returns res ->
  In r (filter_invalid_methods res min_lines max_lines) ->
  let c := effective_line_count (original_code r) in
  1 <= c /\ min_lines <= c <= max_lines /\
  c <= end_line r - start_line r + 1.
Proof.
  intros Hpos Hres Hin. cbv zeta.
  rewrite filter_invalid_methods_filter in Hin. apply filter_In in Hin.
  destruct Hin as [Hin Hp]. unfold in_policy in Hp. cbv zeta in Hp.
  rewrite !andb_true_iff, Z.ltb_lt, !Z.leb_le in Hp.
  destruct (extract_methods_ok uni_decimal code tree Hpos) as (res' & Hres' & Hall).
  assert (res' = res) by congruence. subst res'.
  destruct (record_ok_splits_back uni_decimal (splitlines code) r
              (splitlines_break_free code)
              (proj1 (Forall_forall _ _) Hall r Hin)) as (_ & Hlen & _).
  pose proof (effective_line_count_le (original_code r)) as Hb.
  pose proof (nonblank_lines_le (original_code r)) as Hn.
  lia.
Qed.

(** ** [search_java_repos] *)

Lemma py_slice_prefix {A} (l : list A) (n : Z) :
  0 <= n -> py_slice l 0 n = firstn (Z.to_nat n) l.
Proof.
  intros Hn. unfold py_slice. cbv zeta beta.
  pose proof (len_nonneg l) as Hl.
  change (0 <? 0) with false. cbv iota.
  destruct (Z.ltb_spec n 0); [lia |].
  rewrite (Z.min_l 0) by lia. change (Z.to_nat 0) with O. cbn [skipn].
  rewrite Z.sub_0_r.
  destruct (Z.le_gt_cases n (len l)) as [H1 | H1].
  - now rewrite Z.min_l by lia.
  - rewrite Z.min_r by lia. unfold len in *.
    rewrite Nat2Z.id. rewrite !firstn_all2 by lia. reflexivity.
Qed.

Lemma py_slice_full {A} (l : list A) (n : Z) :
  len l <= n -> py_slice l 0 n = l.
Proof.
  intros H. pose proof (len_nonneg l).
  rewrite py_slice_prefix by lia. apply firstn_all2. unfold len in *. lia.
Qed.

Lemma firstn_app_cut {A} (k : nat) (l1 l2 l3 : list A) :
  (length l1 <= k <= length l1 + length l2)%nat ->
  firstn k ((l1 ++ firstn (k - length l1) l2) ++ l3) = firstn k (l1 ++ l2 ++ l3).
Proof.
  intros H.
  assert (Hx : length (l1 ++ firstn (k - length l1) l2) = k).
  { rewrite length_app, length_firstn. lia. }
  rewrite firstn_app, Hx, Nat.sub_diag. cbn [firstn]. rewrite app_nil_r.
  rewrite firstn_all2 by lia.
  rewrite firstn_app. rewrite (firstn_all2 l1) by lia. f_equal.
  rewrite firstn_app.
  replace (k - length l1 - length l2)%nat with O by lia.
  cbn [firstn]. now rewrite app_nil_r.
Qed.

Section Search.
Variable search_page : Z -> Z -> result (list Repo).
Variable lower : str -> str.
Variable allowed_licenses : option (list str).
Variables n min_star : Z.

Local Abbreviation ok := (license_ok lower allowed_licenses).

Lemma add_items_firstn (items repos : list Repo) :
  len repos < n ->
  add_items lower allowed_licenses n items repos
  = repos ++ firstn (Z.to_nat (n - len repos)) (filter ok items).
Proof.
  revert repos. induction items as [| repo items IH]; intros repos Hlt.
  - cbn. now rewrite firstn_nil, app_nil_r.
  - cbn [add_items filter]. destruct (ok repo); cbn [negb].
    + rewrite len_app. change (len [repo]) with 1.
      destruct (Z.geb_spec (len repos + 1) n) as [Hge | Hlt'].
      * replace (Z.to_nat (n - len repos)) with 1%nat by lia.
        cbn [firstn]. reflexivity.
      * rewrite IH by (rewrite len_app; change (len [repo]) with 1; lia).
        rewrite len_app. change (len [repo]) with 1.
        replace (Z.to_nat (n - len repos))
          with (S (Z.to_nat (n - (len repos + 1)))) by lia.
        cbn [firstn]. now rewrite <- app_assoc.
    + now apply IH.
Qed.

Lemma py_slice_nil {A} (a b : Z) : py_slice (@nil A) a b = [].
Proof. unfold py_slice. now rewrite skipn_nil, firstn_nil. Qed.

Lemma search_loop_done (fuel : nat) (page : Z) (repos more : list Repo) :
  n <= len repos -> (n < 0 -> repos = []) ->
  search_loop search_page lower allowed_licenses (S fuel) n min_star page repos
  = Some (Ok (firstn (Z.to_nat n) (repos ++ more))).
Proof.
  intros Hle Hneg. cbn [search_loop].
  destruct (Z.ltb_spec (len repos) n); [lia |]. do 2 f_equal.
  destruct (Z.le_gt_cases 0 n) as [H0 | H0].
  - rewrite py_slice_prefix by lia. rewrite firstn_app.
    replace (Z.to_nat n - length repos)%nat with O by (unfold len in *; lia).
    cbn [firstn]. now rewrite app_nil_r.
  - rewrite (Hneg H0). rewrite py_slice_nil.
    replace (Z.to_nat n) with O by lia. reflexivity.
Qed.

(** The loop over successive non-empty pages [rest], starting at [page]. *)
Lemma search_loop_pages (rest : list (list Repo)) (fuel : nat) (page : Z)
    (repos : list Repo) :
  (forall i, (i < length rest)%nat ->
     search_page min_star (page + Z.of_nat i) = Ok (nth i rest []) /\
     nth i rest [] <> []) ->
  (length rest < fuel)%nat ->
  (n < 0 -> repos = []) ->
  search_loop search_page lower allowed_licenses fuel n min_star page repos
  = if n <=? len (repos ++ filter ok (concat rest)) then
      Some (Ok (firstn (Z.to_nat n) (repos ++ filter ok (concat rest))))
    else
      search_loop search_page lower allowed_licenses (fuel - length rest) n
        min_star (page + len rest) (repos ++ filter ok (concat rest)).
Proof.
  revert fuel page repos.
  induction rest as [| items rest IH]; intros fuel page repos Hpages Hfuel Hneg.
  - cbn [concat filter length]. rewrite app_nil_r, Nat.sub_0_r.
    change (len (@nil (list Repo))) with 0. rewrite Z.add_0_r.
    destruct (Z.leb_spec n (len repos)) as [Hle | Hgt]; [| reflexivity].
    destruct fuel as [| fuel]; [lia |].
    rewrite (search_loop_done fuel page repos []) by assumption.
    now rewrite app_nil_r.
  - destruct fuel as [| fuel]; [simpl in Hfuel; lia |].
    cbn [concat]. rewrite filter_app.
    pose proof (len_nonneg repos) as Hr.
    destruct (Z.ltb_spec (len repos) n) as [Hlt | Hge].
    + cbn [search_loop]. destruct (Z.ltb_spec (len repos) n); [| lia].
      destruct (Hpages O ltac:(simpl; lia)) as [Hpage Hne].
      rewrite Z.add_0_r in Hpage. cbn [nth] in Hpage, Hne. rewrite Hpage.
      destruct items as [| x items']; [congruence |].
      rewrite IH.
      2:{ intros i Hi. specialize (Hpages (S i) ltac:(simpl; lia)).
          cbn [nth] in Hpages.
          replace (page + 1 + Z.of_nat i) with (page + Z.of_nat (S i)) by lia.
          exact Hpages. }
      2:{ simpl in Hfuel. lia. }
      2:{ lia. }
      rewrite add_items_firstn by exact Hlt.
      set (F := filter ok (x :: items')).
      set (R := filter ok (concat rest)).
      destruct (Z.le_gt_cases (len F) (n - len repos)) as [Hfit | Hcut].
      * rewrite firstn_all2 by (unfold len in *; lia).
        rewrite <- app_assoc.
        replace (S fuel - length ((x :: items') :: rest))%nat
          with (fuel - length rest)%nat by (simpl; lia).
        replace (page + 1 + len rest)
          with (page + len ((x :: items') :: rest))
          by (unfold len; simpl length; lia).
        reflexivity.
      * assert (Hlen : len (repos ++ firstn (Z.to_nat (n - len repos)) F) = n).
        { rewrite len_app. unfold len at 2. rewrite length_firstn.
          unfold len in *. lia. }
        destruct (Z.leb_spec n (len ((repos ++ firstn (Z.to_nat (n - len repos)) F) ++ R)))
          as [_ | Hx]; [| rewrite len_app in Hx; pose proof (len_nonneg R); lia].
        destruct (Z.leb_spec n (len (repos ++ F ++ R)))
          as [_ | Hx];
          [| rewrite !len_app in Hx; pose proof (len_nonneg R); lia].
        do 2 f_equal.
        replace (Z.to_nat (n - len repos))
          with (Z.to_nat n - length repos)%nat by (unfold len; lia).
        apply firstn_app_cut; unfold len in *; lia.
    + destruct (Z.leb_spec n (len (repos ++ filter ok items ++ filter ok (concat rest))))
        as [_ | Hx]; [| rewrite len_app in Hx;
                       pose proof (len_nonneg (filter ok items ++ filter ok (concat rest)));
                       lia].
      now apply search_loop_done.
Qed.

End Search.

(** X13: when the listing consists of the non-empty pages [pages], each
    answered, and either an empty page follows or the pages hold [n]
    compatible repositories, the search returns the first [n] compatible
    repositories in the order of the listing, all of them when there are
    fewer.  So it returns at most [n] repositories, every one of them with an
    allowed license when a non-empty set of licenses is given. *)
Theorem search_java_repos_first_n (search_page : Z -> Z -> result (list Repo))
    (lower : str -> str) (allowed_licenses : option (list str))
    (n min_star : Z) (pages : list (list Repo)) (fuel : nat) :
  (forall i, (i < length pages)%nat ->
     search_page min_star (1 + Z.of_nat i) = Ok (nth i pages []) /\
     nth i pages [] <> []) ->
  search_page min_star (1 + len pages) = Ok [] \/
  n <= len (filter (license_ok lower allowed_licenses) (concat pages)) ->
  (length pages < fuel)%nat ->
  search_java_repos search_page lower fuel n min_star allowed_licenses
  = Some (Ok (firstn (Z.to_nat n)
                (filter (license_ok lower allowed_licenses) (concat pages)))).
Proof.
  intros Hpages Hend Hfuel. unfold search_java_repos.
  rewrite (search_loop_pages search_page lower allowed_licenses n min_star
             pages fuel 1 []) by auto.
  cbn [app].
  set (C := filter (license_ok lower allowed_licenses) (concat pages)) in *.
  destruct (Z.leb_spec n (len C)) as [Hle | Hgt]; [reflexivity |].
  destruct Hend as [Hend | Hend]; [| lia].
  destruct (fuel - length pages)%nat as [| fuel'] eqn:Ef; [lia |].
  cbn [search_loop]. destruct (Z.ltb_spec (len C) n); [| lia].
  rewrite Hend. do 2 f_equal.
  rewrite py_slice_full by lia. symmetry. apply firstn_all2.
  unfold len in *. lia.
Qed.

(** X14: when a request fails before [n] compatible repositories have been
    found, the search fails with it: the repositories found on the earlier
    pages are not returned. *)
Theorem search_java_repos_fails (search_page : Z -> Z -> result (list Repo))
    (lower : str -> str) (allowed_licenses : option (list str))
    (n min_star : Z) (pages : list (list Repo)) (fuel : nat) (e : failure) :
  (forall i, (i < length pages)%nat ->
     search_page min_star (1 + Z.of_nat i) = Ok (nth i pages []) /\
     nth i pages [] <> []) ->
  search_page min_star (1 + len pages) = Fail e ->
  len (filter (license_ok lower allowed_licenses) (concat pages)) < n ->
  (length pages < fuel)%nat ->
  search_java_repos search_page lower fuel n min_star allowed_licenses
  = Some (Fail e).
Proof.
  intros Hpages Hfail Hlt Hfuel. unfold search_java_repos.
  rewrite (search_loop_pages search_page lower allowed_licenses n min_star
             pages fuel 1 []) by (auto; lia).
  cbn [app].
  set (C := filter (license_ok lower allowed_licenses) (concat pages)) in *.
  destruct (Z.leb_spec n (len C)) as [Hle | Hgt]; [lia |].
  destruct (fuel - length pages)%nat as [| fuel'] eqn:Ef; [lia |].
  cbn [search_loop]. destruct (Z.ltb_spec (len C) n); [| lia].
  now rewrite Hfail.
Qed.

(** X15: the search need not end: when every page is answered with
    repositories none of which is compatible, and at least one repository
    is asked for, no number of iterations is enough. *)
Theorem search_java_repos_endless (search_page : Z -> Z -> result (list Repo))
    (lower : str -> str) (allowed_licenses : option (list str))
    (n min_star : Z) (fuel : nat) :
  (forall page, 1 <= page ->
     exists items, items <> [] /\ search_page min_star page = Ok items /\
                   filter (license_ok lower allowed_licenses) items = []) ->
  0 < n ->
  search_java_repos search_page lower fuel n min_star allowed_licenses = None.
Proof.
  intros Hpages Hn. unfold search_java_repos.
  assert (H : forall page, 1 <= page ->
            search_loop search_page lower allowed_licenses fuel n min_star page []
            = None).
  { induction fuel as [| fuel IH]; intros page Hp; [reflexivity |].
    cbn [search_loop]. change (len (@nil Repo)) with 0.
    destruct (Z.ltb_spec 0 n); [| lia].
    destruct (Hpages page Hp) as (items & Hne & -> & Hnone).
    destruct items as [| x items']; [congruence |].
    rewrite add_items_firstn by (change (len (@nil Repo)) with 0; lia).
    rewrite Hnone, firstn_nil. cbn [app]. apply IH. lia. }
  apply H. lia.
Qed.

(** ** [deduplicate_methods] *)

Lemma str_eqb_eq (a b : str) : str_eqb a b = true <-> a = b.
Proof.
  revert b. induction a as [| x a IH]; intros [| y b]; cbn [str_eqb];
    try (split; [discriminate | discriminate]); [tauto |].
  rewrite andb_true_iff, N.eqb_eq, IH. split.
  - intros [-> ->]. reflexivity.
  - intros H. injection H as -> ->. tauto.
Qed.

Lemma same_key_eq (a b : Row) : same_key a b = true <-> row_key a = row_key b.
Proof.
  unfold same_key, row_key. rewrite !andb_true_iff, !str_eqb_eq. split.
  - intros [[[-> ->] ->] ->]. reflexivity.
  - intros H. injection H as -> -> -> ->. tauto.
Qed.

Lemma seen_key (r : Row) (seen : list Row) :
  existsb (same_key r) seen = true <-> In (row_key r) (map row_key seen).
Proof.
  rewrite existsb_exists, in_map_iff. split.
  - intros (x & Hx & Hk). exists x. split; [| exact Hx].
    symmetry. now apply same_key_eq.
  - intros (x & Hk & Hx). exists x. split; [exact Hx |].
    apply same_key_eq. now symmetry.
Qed.

Lemma drop_duplicates_subseq (rows seen : list Row) :
  subseq (drop_duplicates seen rows) rows.
Proof.
  revert seen. induction rows as [| r rows IH]; intros seen; cbn [drop_duplicates].
  - constructor.
  - destruct (existsb (same_key r) seen); constructor; apply IH.
Qed.

Lemma subseq_In {A} (t s : list A) (x : A) : subseq t s -> In x t -> In x s.
Proof.
  intros H. induction H; intros Hin.
  - exact Hin.
  - right. now apply IHsubseq.
  - destruct Hin as [-> | Hin]; [now left | right; now apply IHsubseq].
Qed.

Lemma drop_duplicates_fresh (rows seen : list Row) (r : Row) :
  In r (drop_duplicates seen rows) -> ~ In (row_key r) (map row_key seen).
Proof.
  revert seen. induction rows as [| x rows IH]; intros seen; cbn [drop_duplicates].
  - intros [].
  - destruct (existsb (same_key x) seen) eqn:E.
    + apply IH.
    + intros [<- | Hin].
      * intros H. apply seen_key in H. congruence.
      * intros H. apply (IH (x :: seen) Hin). cbn [map]. now right.
Qed.

Lemma drop_duplicates_NoDup (rows seen : list Row) :
  NoDup (map row_key (drop_duplicates seen rows)).
Proof.
  revert seen. induction rows as [| x rows IH]; intros seen; cbn [drop_duplicates].
  - constructor.
  - destruct (existsb (same_key x) seen) eqn:E; [apply IH |].
    cbn [map]. constructor; [| apply IH].
    intros H. apply in_map_iff in H. destruct H as (r & Hk & Hin).
    apply (drop_duplicates_fresh rows (x :: seen) r Hin).
    cbn [map]. left. now symmetry.
Qed.

Lemma drop_duplicates_covers (rows seen : list Row) (r : Row) :
  In r rows ->
  In (row_key r) (map row_key seen) \/
  In (row_key r) (map row_key (drop_duplicates seen rows)).
Proof.
  revert seen. induction rows as [| x rows IH]; intros seen; [intros [] |].
  cbn [drop_duplicates]. intros [-> | Hin].
  - destruct (existsb (same_key r) seen) eqn:E.
    + left. now apply seen_key.
    + right. cbn [map]. now left.
  - destruct (existsb (same_key x) seen) eqn:E.
    + now apply IH.
    + destruct (IH (x :: seen) Hin) as [[Hk | Hs] | Hd].
      * right. cbn [map]. left. exact Hk.
      * now left.
      * right. cbn [map]. now right.
Qed.

Lemma drop_duplicates_first (rows seen : list Row) (r : Row) :
  In r (drop_duplicates seen rows) ->
  exists a b, rows = a ++ r :: b /\
              forall x, In x a -> row_key x <> row_key r.
Proof.
  revert seen. induction rows as [| x rows IH]; intros seen; cbn [drop_duplicates].
  - intros [].
  - destruct (existsb (same_key x) seen) eqn:E.
    + intros Hin. pose proof (drop_duplicates_fresh rows seen r Hin) as Hfresh.
      destruct (IH seen Hin) as (a & b & -> & Ha).
      exists (x :: a), b. split; [reflexivity |].
      intros y [<- | Hy]; [| now apply Ha].
      intros Hk. apply Hfresh. rewrite <- Hk. now apply seen_key.
    + intros [<- | Hin].
      * exists [], rows. split; [reflexivity | intros y []].
      * pose proof (drop_duplicates_fresh rows (x :: seen) r Hin) as Hfresh.
        destruct (IH (x :: seen) Hin) as (a & b & -> & Ha).
        exists (x :: a), b. split; [reflexivity |].
        intros y [<- | Hy]; [| now apply Ha].
        intros Hk. apply Hfresh. cbn [map]. now left.
Qed.

Lemma drop_duplicates_fixed (rows seen : list Row) :
  NoDup (map row_key rows) ->
  (forall r, In r rows -> ~ In (row_key r) (map row_key seen)) ->
  drop_duplicates seen rows = rows.
Proof.
  revert seen. induction rows as [| x rows IH]; intros seen Hnd Hfresh;
    [reflexivity |].
  cbn [drop_duplicates]. cbn [map] in Hnd. inversion Hnd as [| ? ? Hx Hnd']; subst.
  destruct (existsb (same_key x) seen) eqn:E.
  - exfalso. apply (Hfresh x); [now left | now apply seen_key].
  - f_equal. apply IH; [exact Hnd' |].
    intros r Hr [Hk | Hs].
    + apply Hx. rewrite Hk. now apply in_map.
    + apply (Hfresh r); [now right | exact Hs].
Qed.

(** X16: [deduplicate_methods] keeps, in their order, exactly the rows that
    have no earlier row with the same repository, file, method name and
    code: no two rows of the result agree on these four columns, every row
    of the input has a row with the same four values in the result, and a
    second pass changes nothing. *)
Theorem deduplicate_methods_first (df : list Row) :
  subseq (deduplicate_methods df) df /\
  NoDup (map row_key (deduplicate_methods df)) /\
  (forall r, In r df ->
     exists r', In r' (deduplicate_methods df) /\ row_key r' = row_key r) /\
  (forall r, In r (deduplicate_methods df) ->
     exists a b, df = a ++ r :: b /\
                 forall x, In x a -> row_key x <> row_key r) /\
  deduplicate_methods (deduplicate_methods df) = deduplicate_methods df.
Proof.
  unfold deduplicate_methods. split; [apply drop_duplicates_subseq |].
  split; [apply drop_duplicates_NoDup |]. split; [| split].
  - intros r Hin. destruct (drop_duplicates_covers df [] r Hin) as [[] | H].
    apply in_map_iff in H. destruct H as (r' & Hk & Hr'). eauto.
  - apply drop_duplicates_first.
  - apply drop_duplicates_fixed; [apply drop_duplicates_NoDup |].
    intros r _ [].
Qed.

(** ** [build_dataset] *)

Lemma In_firstn_list {A} (n : nat) (l : list A) (x : A) :
  In x (firstn n l) -> In x l.
Proof.
  revert l. induction n as [| n IH]; intros l; [intros [] |].
  destruct l as [| y l]; [intros [] |]. cbn [firstn].
  intros [-> | Hin]; [now left | right; now apply IH].
Qed.

Lemma In_skipn_list {A} (n : nat) (l : list A) (x : A) :
  In x (skipn n l) -> In x l.
Proof.
  revert l. induction n as [| n IH]; intros l; [intros Hin; exact Hin |].
  destruct l as [| y l]; [intros [] |]. cbn [skipn].
  intros Hin. right. now apply IH.
Qed.

Lemma In_py_slice {A} (l : list A) (a b : Z) (x : A) :
  In x (py_slice l a b) -> In x l.
Proof.
  unfold py_slice. intros H. apply In_firstn_list in H.
  now apply In_skipn_list in H.
Qed.

Section CrawlerFacts.
Context {W Path : Type}.
Variable env : Env W Path.

Lemma get_repo_files_extension (owner repo branch extension : str) (w w' : W)
    (files : list str) :
  get_repo_files env owner repo branch extension w = (Ok files, w') ->
  forall f, In f files -> endswith f extension = true.
Proof.
  unfold get_repo_files.
  destruct (fetch_tree env owner repo branch w) as [[tree | e] w1];
    [| discriminate].
  intros H. injection H as <- _. intros f Hf.
  apply in_map_iff in Hf. destruct Hf as (item & <- & Hitem).
  apply filter_In in Hitem. destruct Hitem as [_ Hitem].
  now apply andb_true_iff in Hitem.
Qed.

(** The rows that the loop over the files of one repository appends. *)
Lemma process_files_rows (repo : Repo) (owner name branch : str)
    (local_repo : Path) (files : list str) :
  (forall f, In f files -> endswith f (lit ".java") = true) ->
  forall all_results w,
  exists extra,
    snd (fst (process_files env repo owner name branch (html_url repo)
                local_repo files all_results w))
    = all_results ++ extra /\
    Forall (row_of_repo env repo) extra.
Proof.
  induction files as [| f files IH]; intros Hjava all_results w.
  - exists []. split; [cbn; now rewrite app_nil_r | constructor].
  - assert (Hjava' : forall f', In f' files -> endswith f' (lit ".java") = true)
      by (intros f' Hf'; apply Hjava; now right).
    specialize (IH Hjava'). cbn [process_files].
    destruct (path_exists env local_repo f w) as [[[|] | e] w1];
      [| apply IH | exists []; split; [cbn; now rewrite app_nil_r | constructor]].
    destruct (read_and_parse env local_repo f w1) as [parsed w2] eqn:Er.
    destruct (extract_parsed env parsed) as [methods | e] eqn:Ex;
      [| exists []; split; [cbn; now rewrite app_nil_r | constructor]].
    destruct (get_last_commit env owner name f branch w2) as [[commit | e] w3];
      [| exists []; split; [cbn; now rewrite app_nil_r | constructor]].
    destruct (truthy_sha commit) eqn:Et; cbn [negb]; [| apply IH].
    destruct (filter_invalid_methods methods default_min_lines default_max_lines)
      as [| m ms] eqn:Ef; [apply IH |].
    destruct commit as [s |]; [| discriminate]. cbn [truthy_sha] in Et.
    destruct (IH (all_results ++ map (make_row repo (html_url repo) s f) (m :: ms)) w3)
      as (extra & Hrows & Hextra).
    exists (map (make_row repo (html_url repo) s f) (m :: ms) ++ extra).
    split; [rewrite Hrows; now rewrite <- app_assoc |].
    apply Forall_app. split; [| exact Hextra].
    apply Forall_map, Forall_forall. intros m' Hm'.
    exists f, m', s, local_repo, w1, methods.
    split; [reflexivity |]. split; [apply Hjava; now left |].
    split; [exact Et |]. split; [now rewrite Er |].
    now rewrite Ef.
Qed.

Lemma process_repo_rows (max_files : Z) (repo : Repo) (all_results : list Row)
    (w : W) :
  exists extra,
    fst (process_repo env max_files repo all_results w) = all_results ++ extra /\
    Forall (row_of_repo env repo) extra.
Proof.
  assert (Hnone : exists extra, all_results = all_results ++ extra /\
                                Forall (row_of_repo env repo) extra).
  { exists []. split; [now rewrite app_nil_r | constructor]. }
  unfold process_repo.
  destruct (split (chr "/") (full_name repo)) as [| owner [| name [| ? ?]]];
    try exact Hnone.
  destruct (get_repo_files env owner name (default_branch repo) (lit ".java") w)
    as [[files | e] w1] eqn:Eg; [| exact Hnone].
  destruct (download_and_extract_repo env owner name (default_branch repo) w1)
    as [[local_repo | e] w2]; [| exact Hnone].
  destruct (process_files_rows repo owner name (default_branch repo) local_repo
              (py_slice files 0 max_files)
              ltac:(intros f Hf; apply In_py_slice in Hf;
                    exact (get_repo_files_extension _ _ _ _ _ _ _ Eg f Hf))
              all_results w2) as (extra & Hrows & Hextra).
  destruct (process_files env repo owner name (default_branch repo) (html_url repo)
              local_repo (py_slice files 0 max_files) all_results w2)
    as [[err rows] w3].
  exists extra. split; [exact Hrows | exact Hextra].
Qed.

(** The rows that the loop over the repositories collects: nothing is ever
    removed, and what is there beyond the first rows, fewer than
    [max_num_samples], comes from one repository. *)
Lemma crawl_rows (max_files max_num_samples : Z) (repos : list Repo) :
  forall all_results w,
  exists extra,
    fst (crawl env max_files max_num_samples repos all_results w)
    = all_results ++ extra /\
    Forall (fun r => exists repo, In repo repos /\ row_of_repo env repo r) extra /\
    (extra = [] \/
     exists before batch repo,
       all_results ++ extra = before ++ batch /\
       len before < max_num_samples /\
       In repo repos /\ Forall (row_of_repo env repo) batch).
Proof.
  induction repos as [| repo repos IH]; intros all_results w.
  - exists []. split; [cbn; now rewrite app_nil_r |].
    split; [constructor | now left].
  - cbn [crawl].
    destruct (Z.geb_spec (len all_results) max_num_samples) as [Hcap | Hcap].
    { exists []. split; [cbn; now rewrite app_nil_r |].
      split; [constructor | now left]. }
    destruct (process_repo_rows max_files repo all_results w)
      as (batch & Hbatch & Hfrom).
    destruct (process_repo env max_files repo all_results w) as [rows w'].
    cbn [fst] in Hbatch. subst rows.
    destruct (IH (all_results ++ batch) w') as (extra & Hrows & Hextra & Hcase).
    exists (batch ++ extra). split; [rewrite Hrows; now rewrite <- app_assoc |].
    split.
    + apply Forall_app. split.
      * apply Forall_forall. intros r Hr. exists repo. split; [now left |].
        exact (proj1 (Forall_forall _ _) Hfrom r Hr).
      * apply Forall_forall. intros r Hr.
        destruct (proj1 (Forall_forall _ _) Hextra r Hr) as (repo' & Hin & Hsrc).
        exists repo'. split; [now right | exact Hsrc].
    + right. destruct Hcase as [-> | (before & batch' & repo' & Heq & Hlen & Hin & Hb)].
      * exists all_results, batch, repo. rewrite app_nil_r.
        split; [reflexivity |]. split; [exact Hcap |].
        split; [now left | exact Hfrom].
      * exists before, batch', repo'. rewrite app_assoc.
        split; [exact Heq |]. split; [exact Hlen |].
        split; [now right | exact Hb].
Qed.

End CrawlerFacts.

Lemma row_of_repo_fields {W Path : Type} (env : Env W Path) (repo : Repo)
    (r : Row) :
  row_of_repo env repo r ->
  repo_name r = full_name repo /\ repo_url r = html_url repo /\
  repo_license r = license_name repo /\
  endswith (file_path r) (lit ".java") = true /\
  truthy_str (commit_sha r) = true /\
  default_min_lines <= effective_line_count (original_code (method r))
                    <= default_max_lines.
Proof.
  intros (f & m & commit & local_repo & w0 & methods & -> & Hjava & Hsha & _ & Hm).
  cbn [make_row repo_name repo_url repo_license file_path commit_sha method].
  repeat split; try assumption;
    rewrite filter_invalid_methods_filter in Hm; apply filter_In in Hm;
    destruct Hm as [_ Hp]; unfold in_policy in Hp; cbv zeta in Hp;
    rewrite !andb_true_iff, Z.ltb_lt, !Z.leb_le in Hp; lia.
Qed.

(** X17: every row of the data frame that [build_dataset] returns belongs
    to one of the repositories that the search returned, with its name, url
    and license (or NO-LICENSE); its file has the extension [.java], its
    commit id is not empty, and its code has between 3 and 100 effective
    lines.  No two rows agree on repository, file, method name and code. *)
Theorem build_dataset_rows {W Path : Type} (env : Env W Path) (fuel : nat)
    (n_repos min_star max_files : Z) (allowed_licenses : option (list str))
    (max_num_samples : Z) (w w' : W) (df : list Row) :
  build_dataset env fuel n_repos min_star max_files allowed_licenses
    max_num_samples w = Some (Ok df, w') ->
  exists repos,
    search_java_repos (search_page env) (lower env) fuel n_repos min_star
      allowed_licenses = Some (Ok repos) /\
    NoDup (map row_key df) /\
    forall r, In r df ->
      (exists repo, In repo repos /\
         repo_name r = full_name repo /\ repo_url r = html_url repo /\
         repo_license r = license_name repo) /\
      endswith (file_path r) (lit ".java") = true /\
      truthy_str (commit_sha r) = true /\
      3 <= effective_line_count (original_code (method r)) <= 100.
Proof.
  unfold build_dataset.
  destruct (search_java_repos _ _ _ _ _ _) as [[repos | e] |];
    [| discriminate | discriminate].
  destruct (crawl_rows env max_files max_num_samples repos [] w)
    as (extra & Hrows & Hextra & _).
  destruct (crawl env max_files max_num_samples repos [] w) as [rows w1].
  cbn [fst app] in Hrows. subst rows.
  intros H. injection H as <- _. exists repos. split; [reflexivity |].
  split; [apply drop_duplicates_NoDup |].
  intros r Hin.
  apply (subseq_In _ _ r (drop_duplicates_subseq extra [])) in Hin.
  destruct (proj1 (Forall_forall _ _) Hextra r Hin) as (repo & Hrepo & Hsrc).
  destruct (row_of_repo_fields env repo r Hsrc) as (H1 & H2 & H3 & H4 & H5 & H6).
  split; [exists repo; auto |]. split; [exact H4 |]. split; [exact H5 |].
  exact H6.
Qed.

(** X18: when the parser numbers lines from 1, every row of the data frame
    holds a method as it stands in some file that was read: its code is
    lines [start_line] to [end_line] of that file joined with newlines, its
    tokens are the tokens of that code, and it spans at least 3 lines. *)
Theorem build_dataset_methods {W Path : Type} (env : Env W Path) (fuel : nat)
    (n_repos min_star max_files : Z) (allowed_licenses : option (list str))
    (max_num_samples : Z) (w w' : W) (df : list Row) (r : Row) :
  parser_positions_from_one env ->
  build_dataset env fuel n_repos min_star max_files allowed_licenses
    max_num_samples w = Some (Ok df, w') ->
  In r df ->
  exists local_repo w0 code nodes,
    fst (read_and_parse env local_repo (file_path r) w0) = Some (code, nodes) /\
    let lines := splitlines code in
    let m := method r in
    1 <= start_line m <= end_line m /\ end_line m <= len lines /\
    original_code m
    = join [newline] (lines_between lines (start_line m) (end_line m)) /\
    code_tokens m = tokenize_code (uni_decimal env) (original_code m) /\
    3 <= end_line m - start_line m + 1.
Proof.
  intros Hparser. unfold build_dataset.
  destruct (search_java_repos _ _ _ _ _ _) as [[repos | e] |];
    [| discriminate | discriminate].
  destruct (crawl_rows env max_files max_num_samples repos [] w)
    as (extra & Hrows & Hextra & _).
  destruct (crawl env max_files max_num_samples repos [] w) as [rows w1].
  cbn [fst app] in Hrows. subst rows.
  intros H Hin. injection H as <- _.
  apply (subseq_In _ _ r (drop_duplicates_subseq extra [])) in Hin.
  destruct (proj1 (Forall_forall _ _) Hextra r Hin) as (repo & _ & Hsrc).
  destruct Hsrc as (f & m & commit & local_repo & w0 & methods & -> & _ & _ & Hex & Hm).
  cbn [make_row method file_path].
  destruct (fst (read_and_parse env local_repo f w0)) as [[code nodes] |] eqn:Er.
  2:{ cbn in Hex. injection Hex as <-.
      rewrite filter_invalid_methods_filter in Hm. destruct Hm. }
  exists local_repo, w0, code, nodes. split; [exact Er |]. cbv zeta.
  cbn [extract_parsed] in Hex.
  assert (Hpos : tree_positions_from_one (Some nodes))
    by exact (Hparser local_repo f w0 code nodes Er).
  destruct (extract_methods_ok (uni_decimal env) code (Some nodes) Hpos)
    as (res & Hres & Hall).
  assert (res = methods) by congruence. subst res.
  rewrite filter_invalid_methods_filter in Hm. apply filter_In in Hm.
  destruct Hm as [Hm Hp].
  pose proof (proj1 (Forall_forall _ _) Hall m Hm) as Hok.
  destruct (record_ok_splits_back (uni_decimal env) (splitlines code) m
              (splitlines_break_free code) Hok) as (_ & Hlen & _).
  destruct Hok as (H1 & H2 & _ & Hcode & Htok).
  pose proof (effective_line_count_le (original_code m)) as Hb.
  pose proof (nonblank_lines_le (original_code m)) as Hn.
  unfold in_policy in Hp. cbv zeta in Hp.
  rewrite !andb_true_iff, Z.ltb_lt, !Z.leb_le in Hp.
  unfold default_min_lines in Hp.
  repeat split; try assumption; lia.
Qed.

(** X19: the loop over the repositories never removes a row, also when a
    repository fails half way; it does not start a repository once
    [max_num_samples] rows are there, but it does not cut either: the rows
    beyond the first ones, fewer than [max_num_samples], all come from one
    repository. *)
Theorem build_dataset_cap {W Path : Type} (env : Env W Path)
    (max_files max_num_samples : Z) (repos : list Repo)
    (all_results : list Row) (w : W) :
  let rows := fst (crawl env max_files max_num_samples repos all_results w) in
  (exists extra, rows = all_results ++ extra) /\
  (max_num_samples <= len all_results ->
   crawl env max_files max_num_samples repos all_results w = (all_results, w)) /\
  (rows = all_results \/
   exists before batch repo,
     rows = before ++ batch /\ len before < max_num_samples /\
     In repo repos /\ Forall (row_of_repo env repo) batch).
Proof.
  cbv zeta.
  destruct (crawl_rows env max_files max_num_samples repos all_results w)
    as (extra & Hrows & _ & Hcase).
  split; [eauto |]. split.
  - intros Hcap. destruct repos as [| repo repos]; [reflexivity |].
    cbn [crawl]. destruct (Z.geb_spec (len all_results) max_num_samples);
      [reflexivity | lia].
  - rewrite Hrows. destruct Hcase as [-> | Hcase].
    + left. apply app_nil_r.
    + right. exact Hcase.
Qed.

(** ** Further instances at sample inputs *)

Lemma brace_matched_end_raises_witness :
  _brace_matched_end unclosed_lines (-2) = Raises IndexError.
Proof.
  apply (proj2 (proj1 (brace_matched_end_raises unclosed_lines (-2)))).
  vm_compute. discriminate.
Defined.

Lemma extracted_code_splits_back_witness :
  splitlines (original_code sample_record)
  = lines_between (splitlines sample_code) (start_line sample_record)
      (end_line sample_record) /\
  len (splitlines (original_code sample_record))
  = end_line sample_record - start_line sample_record + 1 /\
  line_at (splitlines sample_code) (end_line sample_record) <> [].
Proof.
  apply (extracted_code_splits_back arabic_indic_digit sample_code
           (Some [sample_node]) [sample_record] sample_record).
  - exact sample_positions_from_one.
  - reflexivity.
  - now left.
Defined.

Lemma extract_methods_in_order_witness :
  extract_methods_from_file arabic_indic_digit sample_code (Some [sample_node])
  = Returns (flat_map (located arabic_indic_digit (splitlines sample_code))
               [sample_node]) /\
  forall res,
    extract_methods_from_file arabic_indic_digit sample_code (Some [sample_node])
    = Returns res ->
    (length res <= length [sample_node])%nat.
Proof.
  apply (extract_methods_in_order arabic_indic_digit sample_code
           (Some [sample_node])).
  exact sample_positions_from_one.
Defined.

Lemma tokenize_code_longest_match_witness :
  tokenize_code arabic_indic_digit (lit "x1+2")
  = (chr "x" :: span is_ident_char (lit "1+2"))
      :: tokenize_code arabic_indic_digit (after_span is_ident_char (lit "1+2")).
Proof.
  apply (proj1 (tokenize_code_longest_match arabic_indic_digit (chr "x")
                  (lit "1+2"))).
  reflexivity.
Defined.

Lemma tokenize_code_quote_witness :
  tokenize_code arabic_indic_digit (dquote :: lit "a b")
  = match after_char dquote (lit "a b") with
    | Some rest =>
        (dquote :: before_char dquote (lit "a b") ++ [dquote])
          :: tokenize_code arabic_indic_digit rest
    | None => [dquote] :: tokenize_code arabic_indic_digit (lit "a b")
    end /\
  contains dquote (before_char dquote (lit "a b")) = false /\
  (contains dquote (lit "a b") = false <-> after_char dquote (lit "a b") = None).
Proof.
  apply (tokenize_code_quote arabic_indic_digit dquote (lit "a b")).
  left. reflexivity.
Defined.

Lemma tokenize_code_operator_witness :
  tokenize_code arabic_indic_digit (lit "<=" ++ lit "b")
  = lit "<=" :: tokenize_code arabic_indic_digit (lit "b").
Proof.
  apply (tokenize_code_operator arabic_indic_digit (lit "<=") (lit "b")).
  right. right. left. reflexivity.
Defined.

Lemma sample_comment_only : comment_only (original_code comment_only_method).
Proof.
  exact (comment_only_block (lit " nothing here ") [] eq_refl comment_only_nil).
Defined.

Lemma comment_only_dropped_witness :
  effective_line_count (original_code comment_only_method) = 0 /\
  ~ In comment_only_method
      (filter_invalid_methods [comment_only_method; three_line_method] 0 100).
Proof.
  apply (comment_only_dropped [comment_only_method; three_line_method] 0 100
           comment_only_method).
  exact sample_comment_only.
Defined.

Lemma kept_method_span_witness :
  let c := effective_line_count (original_code sample_record) in
  1 <= c /\ 3 <= c <= 100 /\
  c <= end_line sample_record - start_line sample_record + 1.
Proof.
  apply (kept_method_span arabic_indic_digit sample_code (Some [sample_node])
           [sample_record] 3 100 sample_record).
  - exact sample_positions_from_one.
  - reflexivity.
  - vm_compute. now left.
Defined.

Lemma one_page_listing (i : nat) :
  (i < length [[mit_repo; unlicensed_repo]])%nat ->
  one_page 50 (1 + Z.of_nat i) = Ok (nth i [[mit_repo; unlicensed_repo]] []) /\
  nth i [[mit_repo; unlicensed_repo]] [] <> [].
Proof.
  intros Hi. assert (i = O) by (simpl in Hi; lia). subst i.
  split; [reflexivity | discriminate].
Defined.

Lemma search_java_repos_first_n_witness :
  search_java_repos one_page (fun s => s) 3 5 50 (Some [lit "mit"])
  = Some (Ok (firstn (Z.to_nat 5)
                (filter (license_ok (fun s => s) (Some [lit "mit"]))
                   (concat [[mit_repo; unlicensed_repo]])))).
Proof.
  apply (search_java_repos_first_n one_page (fun s => s) (Some [lit "mit"]) 5 50
           [[mit_repo; unlicensed_repo]] 3).
  - exact one_page_listing.
  - left. reflexivity.
  - simpl. lia.
Defined.

Lemma failing_page_listing (i : nat) :
  (i < length [[mit_repo]])%nat ->
  failing_page 50 (1 + Z.of_nat i) = Ok (nth i [[mit_repo]] []) /\
  nth i [[mit_repo]] [] <> [].
Proof.
  intros Hi. assert (i = O) by (simpl in Hi; lia). subst i.
  split; [reflexivity | discriminate].
Defined.

Lemma search_java_repos_fails_witness :
  search_java_repos failing_page (fun s => s) 3 5 50 None = Some (Fail External).
Proof.
  apply (search_java_repos_fails failing_page (fun s => s) None 5 50
           [[mit_repo]] 3 External).
  - exact failing_page_listing.
  - reflexivity.
  - vm_compute. reflexivity.
  - simpl. lia.
Defined.

Lemma search_java_repos_endless_witness :
  search_java_repos endless_pages (fun s => s) 1000 1 50 (Some [lit "mit"])
  = None.
Proof.
  apply (search_java_repos_endless endless_pages (fun s => s)
           (Some [lit "mit"]) 1 50 1000).
  - intros page _. exists [unlicensed_repo].
    split; [discriminate |]. split; reflexivity.
  - lia.
Defined.

Lemma build_dataset_rows_witness :
  exists repos,
    search_java_repos (search_page sample_env) (lower sample_env) 3 2 500
      (Some [lit "mit"]) = Some (Ok repos) /\
    NoDup (map row_key sample_df) /\
    forall r, In r sample_df ->
      (exists repo, In repo repos /\
         repo_name r = full_name repo /\ repo_url r = html_url repo /\
         repo_license r = license_name repo) /\
      endswith (file_path r) (lit ".java") = true /\
      truthy_str (commit_sha r) = true /\
      3 <= effective_line_count (original_code (method r)) <= 100.
Proof.
  apply (build_dataset_rows sample_env 3 2 500 50 (Some [lit "mit"]) 30000
           tt tt sample_df).
  vm_compute. reflexivity.
Defined.

Lemma sample_parser_positions : parser_positions_from_one sample_env.
Proof.
  intros local_repo f w code nodes H. cbn in H. injection H as _ <-.
  intros node p [<- | []] Hp. injection Hp as <-. lia.
Defined.

Lemma sample_df_row : sample_df = [sample_row].
Proof. reflexivity. Qed.

Lemma build_dataset_methods_witness :
  exists local_repo w0 code nodes,
    fst (read_and_parse sample_env local_repo (file_path sample_row) w0)
    = Some (code, nodes) /\
    let lines := splitlines code in
    let m := method sample_row in
    1 <= start_line m <= end_line m /\ end_line m <= len lines /\
    original_code m
    = join [newline] (lines_between lines (start_line m) (end_line m)) /\
    code_tokens m = tokenize_code (uni_decimal sample_env) (original_code m) /\
    3 <= end_line m - start_line m + 1.
Proof.
  apply (build_dataset_methods sample_env 3 2 500 50 (Some [lit "mit"]) 30000
           tt tt sample_df sample_row).
  - exact sample_parser_positions.
  - vm_compute. reflexivity.
  - left. reflexivity.
Defined.
